(** * SteosMorphy: the morphological analyzer, embedded and verified

    A shallow embedding of [analyzer/analyzer.go] and [analyzer/tagset.go].

    - A Go [string] is a byte sequence: Rocq's [string].  [[]rune(s)] and
      [for _, c := range s] decode UTF-8 ([runes]); [string(rs)] encodes
      ([string_of_runes]).
    - Fixed-width integers are [Z] with the wrap-around written out.
    - A Go map is a [gmap]; the order in which [range] visits it is left to
      the run time ([map_range] of [GoRuntime]).
    - A run-time panic (index or slice out of range, unbounded recursion) is
      [None] in the option monad. *)

From Stdlib Require Import ZArith String Ascii List Bool Lia.
From Stdlib Require Import Strings.Byte.
From Stdlib Require Import Sorting.Sorted Structures.OrdersEx.
From Equations Require Import Equations.
From stdpp Require Import base option list gmap strings sorting.

Open Scope Z_scope.

(** ** Go primitives *)

Definition rune := Z.

Definition wrap32 (x : Z) : Z := x mod 2 ^ 32.
Definition wrap64s (x : Z) : Z := (x + 2 ^ 63) mod 2 ^ 64 - 2 ^ 63.

Definition byteZ (c : ascii) : Z := Z.of_N (N_of_ascii c).
Definition asciiZ (z : Z) : ascii := ascii_of_N (Z.to_N z).

Definition RuneError : rune := 0xFFFD.

Definition in_range (lo hi x : Z) : bool := (lo <=? x) && (x <=? hi).
Definition is_cont (b : Z) : bool := in_range 0x80 0xBF b.

(** The accept range of the second byte, by the first byte
    ([unicode/utf8]: [acceptRanges]). *)
Definition second_ok (b0 b1 : Z) : bool :=
  if b0 =? 0xE0 then in_range 0xA0 0xBF b1
  else if b0 =? 0xED then in_range 0x80 0x9F b1
  else if b0 =? 0xF0 then in_range 0x90 0xBF b1
  else if b0 =? 0xF4 then in_range 0x80 0x8F b1
  else is_cont b1.

Definition low6 (b : Z) : Z := Z.land b 0x3F.

(** [[]rune(s)]: an invalid byte decodes to [RuneError] and is one byte
    wide. *)
Fixpoint runes (s : string) : list rune :=
  match s with
  | EmptyString => []
  | String c0 s1 =>
    let b0 := byteZ c0 in
    if b0 <? 0x80 then b0 :: runes s1
    else
      match s1 with
      | EmptyString => [RuneError]
      | String c1 s2 =>
        let b1 := byteZ c1 in
        if in_range 0xC2 0xDF b0 then
          if is_cont b1
          then Z.lor (Z.shiftl (Z.land b0 0x1F) 6) (low6 b1) :: runes s2
          else RuneError :: runes s1
        else if in_range 0xE0 0xEF b0 then
          match s2 with
          | EmptyString => RuneError :: runes s1
          | String c2 s3 =>
            let b2 := byteZ c2 in
            if second_ok b0 b1 && is_cont b2
            then Z.lor (Z.shiftl (Z.land b0 0x0F) 12)
                   (Z.lor (Z.shiftl (low6 b1) 6) (low6 b2)) :: runes s3
            else RuneError :: runes s1
          end
        else if in_range 0xF0 0xF4 b0 then
          match s2 with
          | EmptyString => RuneError :: runes s1
          | String c2 s3 =>
            match s3 with
            | EmptyString => RuneError :: runes s1
            | String c3 s4 =>
              let b2 := byteZ c2 in
              let b3 := byteZ c3 in
              if second_ok b0 b1 && is_cont b2 && is_cont b3
              then Z.lor (Z.shiftl (Z.land b0 0x07) 18)
                     (Z.lor (Z.shiftl (low6 b1) 12)
                        (Z.lor (Z.shiftl (low6 b2) 6) (low6 b3))) :: runes s4
              else RuneError :: runes s1
            end
          end
        else RuneError :: runes s1
      end
  end.

Definition cont_byte (x : Z) : ascii := asciiZ (Z.lor 0x80 (Z.land x 0x3F)).

(** [utf8.AppendRune]: a rune outside Unicode or a surrogate encodes as
    [RuneError]. *)
Definition encode_rune (r : rune) : string :=
  let r := if (r <? 0) || (0x10FFFF <? r) || in_range 0xD800 0xDFFF r
           then RuneError else r in
  if r <? 0x80 then String (asciiZ r) EmptyString
  else if r <? 0x800 then
    String (asciiZ (Z.lor 0xC0 (Z.shiftr r 6)))
      (String (cont_byte r) EmptyString)
  else if r <? 0x10000 then
    String (asciiZ (Z.lor 0xE0 (Z.shiftr r 12)))
      (String (cont_byte (Z.shiftr r 6)) (String (cont_byte r) EmptyString))
  else
    String (asciiZ (Z.lor 0xF0 (Z.shiftr r 18)))
      (String (cont_byte (Z.shiftr r 12))
         (String (cont_byte (Z.shiftr r 6))
            (String (cont_byte r) EmptyString))).

(** [string(rs)] for [rs : []rune]. *)
Definition string_of_runes (rs : list rune) : string :=
  foldr (fun r acc => String.append (encode_rune r) acc) EmptyString rs.

(** [strings.HasPrefix], [strings.HasSuffix], [strings.TrimPrefix],
    [strings.TrimSuffix]: all byte-wise. *)
Definition HasPrefix (s p : string) : bool := String.prefix p s.

Definition TrimPrefix (s p : string) : string :=
  if HasPrefix s p
  then String.substring (String.length p)
         (String.length s - String.length p)%nat s
  else s.

Definition HasSuffix (s x : string) : bool :=
  (String.length x <=? String.length s)%nat &&
  String.eqb
    (String.substring (String.length s - String.length x)%nat
       (String.length x) s) x.

Definition TrimSuffix (s x : string) : string :=
  if HasSuffix s x
  then String.substring 0 (String.length s - String.length x)%nat s
  else s.

(** [s[lo:hi]] on a slice whose capacity equals its length: panics unless
    [0 <= lo <= hi <= len(s)]. *)
Definition slice {A} (l : list A) (lo hi : Z) : option (list A) :=
  if (0 <=? lo) && (lo <=? hi) && (hi <=? Z.of_nat (length l))
  then Some (take (Z.to_nat (hi - lo)) (drop (Z.to_nat lo) l))
  else None.

(** [s[i]]: panics when [i] is out of range. *)
Definition index {A} (l : list A) (i : Z) : option A :=
  if 0 <=? i then l !! Z.to_nat i else None.

(** [l[len(l)-k:]] for [0 <= k <= len(l)]. *)
Definition lastn {A} (k : nat) (l : list A) : list A :=
  drop (length l - k)%nat l.

(** The comparison function of a [sort.Slice] call must be a strict weak
    ordering. *)
Definition StrictWeak {A} (less : A -> A -> bool) : Prop :=
  (forall x y, less x y = true -> less y x = false) /\
  (forall x y z, less y x = false -> less z y = false -> less z x = false).

(** What the program takes from the Go run time and standard library and
    does not fix itself: the Unicode case tables, the order in which [range]
    visits a map, the (unstable) sorting algorithm of [sort.Slice], and the
    order in which the results of concurrent workers arrive.  One instance
    stands for one way a call may go; Go draws the order of a map anew at
    every [range], so a statement that relates two calls takes an instance
    for each. *)
Class GoRuntime := {
  unicode_ToLower : rune -> rune;
  unicode_ToUpper : rune -> rune;
  map_range : forall {K} `{Countable K} {V}, gmap K V -> list (K * V);
  map_range_perm : forall K `{Countable K} V (m : gmap K V),
      map_range m ≡ₚ map_to_list m;
  sort_Slice : forall {A}, (A -> A -> bool) -> list A -> list A;
  sort_Slice_perm : forall A (less : A -> A -> bool) l,
      sort_Slice less l ≡ₚ l;
  sort_Slice_sorted : forall A (less : A -> A -> bool) l,
      StrictWeak less ->
      StronglySorted (fun x y => less y x = false) (sort_Slice less l);
  arrival : forall {A}, list A -> list A;
  arrival_perm : forall A (l : list A), arrival l ≡ₚ l
}.

(** [strings.ToLower] and [strings.ToUpper]: [strings.Map] of the Unicode
    case mapping over the decoded runes. *)
Definition ToLower `{GoRuntime} (s : string) : string :=
  string_of_runes (map unicode_ToLower (runes s)).

Definition ToUpper `{GoRuntime} (s : string) : string :=
  string_of_runes (map unicode_ToUpper (runes s)).

(** [strings.Split(s, ",")]: always at least one token. *)
Fixpoint Split_comma (s : string) : list string :=
  match s with
  | EmptyString => [EmptyString]
  | String c rest =>
    if Ascii.eqb c ","%char then EmptyString :: Split_comma rest
    else match Split_comma rest with
         | tok :: toks => String c tok :: toks
         | [] => [String c EmptyString]
         end
  end.

(** ** tagset.go *)

(** [GrammemeSet] is [map[string]struct{}]: a finite set of strings. *)
Abbreviation GrammemeSet := (gset string).

(** [Parsed]: the Go field [Lemma] is spelled [Lemma_] here. *)
Record Parsed := mkParsed {
  Word : string;
  Lemma_ : string;
  Tags : string;
  PartOfSpeech : string;
  Animacy : string;
  Aspect : string;
  Case : string;
  Gender : string;
  Mood : string;
  Number : string;
  Person : string;
  Tense : string;
  Transitivity : string;
  Voice : string;
  OtherTags : GrammemeSet
}.

Definition posTags : GrammemeSet :=
  list_to_set
    ["Существительное"; "Прилагательное"; "Глагол"; "Наречие"; "Причастие";
     "Деепричастие"; "Местоимение"; "Числительное"; "Предлог"; "Частица";
     "Союз"; "Междометие"; "Вводное слово"].

Definition animacyTags : GrammemeSet :=
  list_to_set
    ["Одушевленное"; "Неодушевленное"; "одушевленное и неодушевленное"].

Definition aspectTags : GrammemeSet :=
  list_to_set ["Совершенный"; "Несовершенный"; "Двувидовой"].

Definition caseTags : GrammemeSet :=
  list_to_set
    ["Именительный"; "Родительный"; "Дательный"; "Винительный";
     "Творительный"; "Предложный"; "Звательный"; "Местный"; "Счетный";
     "Партитивный"; "Несклоняемый"; "Ждательный"].

Definition genderTags : GrammemeSet :=
  list_to_set ["Мужской"; "Женский"; "Средний"; "Общий"; "Парный"].

Definition moodTags : GrammemeSet := list_to_set ["Повелительное"].

Definition numberTags : GrammemeSet :=
  list_to_set ["Единственное число"; "Множественное число"].

Definition personTags : GrammemeSet :=
  list_to_set ["1-е лицо"; "2-е лицо"; "3-е лицо"; "нет лица"].

Definition tenseTags : GrammemeSet :=
  list_to_set
    ["Прошедшее"; "Настоящее"; "Будущее"; "Будущее аналитическое"].

Definition transTags : GrammemeSet :=
  list_to_set ["Переходный"; "Непереходный"; "Лабильный"].

Definition voiceTags : GrammemeSet :=
  list_to_set ["Действительный"; "Страдательный"].

Definition inMap (key : string) (set : GrammemeSet) : bool :=
  bool_decide (key ∈ set).

(** Field assignments [p.F = g]. *)
Definition set_PartOfSpeech (g : string) (p : Parsed) : Parsed :=
  mkParsed (Word p) (Lemma_ p) (Tags p) g (Animacy p) (Aspect p) (Case p)
    (Gender p) (Mood p) (Number p) (Person p) (Tense p) (Transitivity p)
    (Voice p) (OtherTags p).
Definition set_Animacy (g : string) (p : Parsed) : Parsed :=
  mkParsed (Word p) (Lemma_ p) (Tags p) (PartOfSpeech p) g (Aspect p) (Case p)
    (Gender p) (Mood p) (Number p) (Person p) (Tense p) (Transitivity p)
    (Voice p) (OtherTags p).
Definition set_Aspect (g : string) (p : Parsed) : Parsed :=
  mkParsed (Word p) (Lemma_ p) (Tags p) (PartOfSpeech p) (Animacy p) g (Case p)
    (Gender p) (Mood p) (Number p) (Person p) (Tense p) (Transitivity p)
    (Voice p) (OtherTags p).
Definition set_Case (g : string) (p : Parsed) : Parsed :=
  mkParsed (Word p) (Lemma_ p) (Tags p) (PartOfSpeech p) (Animacy p)
    (Aspect p) g (Gender p) (Mood p) (Number p) (Person p) (Tense p)
    (Transitivity p) (Voice p) (OtherTags p).
Definition set_Gender (g : string) (p : Parsed) : Parsed :=
  mkParsed (Word p) (Lemma_ p) (Tags p) (PartOfSpeech p) (Animacy p)
    (Aspect p) (Case p) g (Mood p) (Number p) (Person p) (Tense p)
    (Transitivity p) (Voice p) (OtherTags p).
Definition set_Mood (g : string) (p : Parsed) : Parsed :=
  mkParsed (Word p) (Lemma_ p) (Tags p) (PartOfSpeech p) (Animacy p)
    (Aspect p) (Case p) (Gender p) g (Number p) (Person p) (Tense p)
    (Transitivity p) (Voice p) (OtherTags p).
Definition set_Number (g : string) (p : Parsed) : Parsed :=
  mkParsed (Word p) (Lemma_ p) (Tags p) (PartOfSpeech p) (Animacy p)
    (Aspect p) (Case p) (Gender p) (Mood p) g (Person p) (Tense p)
    (Transitivity p) (Voice p) (OtherTags p).
Definition set_Person (g : string) (p : Parsed) : Parsed :=
  mkParsed (Word p) (Lemma_ p) (Tags p) (PartOfSpeech p) (Animacy p)
    (Aspect p) (Case p) (Gender p) (Mood p) (Number p) g (Tense p)
    (Transitivity p) (Voice p) (OtherTags p).
Definition set_Tense (g : string) (p : Parsed) : Parsed :=
  mkParsed (Word p) (Lemma_ p) (Tags p) (PartOfSpeech p) (Animacy p)
    (Aspect p) (Case p) (Gender p) (Mood p) (Number p) (Person p) g
    (Transitivity p) (Voice p) (OtherTags p).
Definition set_Transitivity (g : string) (p : Parsed) : Parsed :=
  mkParsed (Word p) (Lemma_ p) (Tags p) (PartOfSpeech p) (Animacy p)
    (Aspect p) (Case p) (Gender p) (Mood p) (Number p) (Person p) (Tense p) g
    (Voice p) (OtherTags p).
Definition set_Voice (g : string) (p : Parsed) : Parsed :=
  mkParsed (Word p) (Lemma_ p) (Tags p) (PartOfSpeech p) (Animacy p)
    (Aspect p) (Case p) (Gender p) (Mood p) (Number p) (Person p) (Tense p)
    (Transitivity p) g (OtherTags p).
(** [p.OtherTags[g] = struct{}{}]. *)
Definition add_OtherTags (g : string) (p : Parsed) : Parsed :=
  mkParsed (Word p) (Lemma_ p) (Tags p) (PartOfSpeech p) (Animacy p)
    (Aspect p) (Case p) (Gender p) (Mood p) (Number p) (Person p) (Tense p)
    (Transitivity p) (Voice p) ({[ g ]} ∪ OtherTags p).

(** The same record with another surface word. *)
Definition set_Word (w : string) (p : Parsed) : Parsed :=
  mkParsed w (Lemma_ p) (Tags p) (PartOfSpeech p) (Animacy p) (Aspect p)
    (Case p) (Gender p) (Mood p) (Number p) (Person p) (Tense p)
    (Transitivity p) (Voice p) (OtherTags p).

(** The body of the loop over the grammemes: the [switch]. *)
Definition dispatch (p : Parsed) (g : string) : Parsed :=
  if String.eqb g (PartOfSpeech p) then p
  else if inMap g animacyTags then set_Animacy g p
  else if inMap g aspectTags then set_Aspect g p
  else if inMap g caseTags then set_Case g p
  else if inMap g genderTags then set_Gender g p
  else if inMap g moodTags then set_Mood g p
  else if inMap g numberTags then set_Number g p
  else if inMap g personTags then set_Person g p
  else if inMap g tenseTags then set_Tense g p
  else if inMap g transTags then set_Transitivity g p
  else if inMap g voiceTags then set_Voice g p
  else add_OtherTags g p.

Definition newParsed (word lemma tagString : string) : Parsed :=
  let p := mkParsed word lemma tagString "" "" "" "" "" "" "" "" "" "" "" ∅ in
  let grammemes := Split_comma tagString in
  let p := match grammemes with
           | g0 :: _ => if inMap g0 posTags then set_PartOfSpeech g0 p else p
           | [] => p
           end in
  fold_left dispatch grammemes p.

(** The categories of the decomposition, in the order of the [switch]. *)
Inductive Category :=
  | CAnimacy | CAspect | CCase | CGender | CMood
  | CNumber | CPerson | CTense | CTransitivity | CVoice.

#[global] Instance Category_eq_dec : EqDecision Category.
Proof. solve_decision. Defined.

Definition categories : list Category :=
  [CAnimacy; CAspect; CCase; CGender; CMood;
   CNumber; CPerson; CTense; CTransitivity; CVoice].

Definition vocabulary (c : Category) : GrammemeSet :=
  match c with
  | CAnimacy => animacyTags | CAspect => aspectTags | CCase => caseTags
  | CGender => genderTags | CMood => moodTags | CNumber => numberTags
  | CPerson => personTags | CTense => tenseTags
  | CTransitivity => transTags | CVoice => voiceTags
  end.

Definition field (c : Category) (p : Parsed) : string :=
  match c with
  | CAnimacy => Animacy p | CAspect => Aspect p | CCase => Case p
  | CGender => Gender p | CMood => Mood p | CNumber => Number p
  | CPerson => Person p | CTense => Tense p
  | CTransitivity => Transitivity p | CVoice => Voice p
  end.

(** The first category, in the fixed order, whose vocabulary has [g]. *)
Definition first_category (g : string) : option Category :=
  List.find (fun c => inMap g (vocabulary c)) categories.

(** Where token [g] goes when the part of speech is [pos]: nowhere when it
    equals [pos], else to [Some c] for its first category, else to the
    other-tags set ([None]). *)
Definition goes_to (pos g : string) (d : option Category) : Prop :=
  g <> pos /\ first_category g = d.

#[global] Instance goes_to_dec pos g d : Decision (goes_to pos g d).
Proof. unfold goes_to. solve_decision. Defined.

(** ** analyzer.go: data *)

Module MorphInfo.
Record t := mk { LemmaID : Z; TagsID : Z; ParadigmID : Z }.
End MorphInfo.

Module PredictInfo.
Record t := mk { Frequency : Z; ParadigmID : Z; FormIdx : Z; TagsID : Z }.
End PredictInfo.

Module FlatNode.
Record t := mk {
  PayloadIdx : Z; EdgesIdx : Z; PayloadLen : Z; EdgesLen : Z; IsFinal : bool
}.
End FlatNode.

Module FlatEdge.
Record t := mk { Char : rune; NodeID : Z }.
End FlatEdge.

Module ParadigmInfo.
Record t := mk { Stem : string; NodeID : Z }.
End ParadigmInfo.

Record MorphAnalyzer := mkAnalyzer {
  LemmaPool : list string;
  tagsPool : list string;
  paradigms : gmap Z (list ParadigmInfo.t);
  paradigmToLemmaID : gmap Z Z;
  nodes : list FlatNode.t;
  edges : list FlatEdge.t;
  payloads : list MorphInfo.t;
  predictNodes : list FlatNode.t;
  predictEdges : list FlatEdge.t;
  predictPayloads : list PredictInfo.t
}.

(** [PredictionCandidate] embeds [PredictInfo]. *)
Record PredictionCandidate := mkCandidate {
  Info : PredictInfo.t;
  SuffixLen : Z
}.

(** ** analyzer.go: traversal *)

(** A loop with an accumulator whose body may panic. *)
Fixpoint foldM {A B} (f : B -> A -> option B) (b : B) (l : list A)
  : option B :=
  match l with
  | [] => Some b
  | x :: l => b' ← f b x; foldM f b' l
  end.

(** [sort.Search(n, f)]: the loop of the Go standard library,
    [for i < j { h := int(uint(i+j) >> 1); if !f(h) { i = h + 1 } else
    { j = h } }]. *)
Equations? Search_loop (f : Z -> bool) (i j : Z) : Z
  by wf (Z.to_nat (j - i)) lt :=
  Search_loop f i j with decide (i < j) := {
    | left _ with f (Z.shiftr (i + j) 1) := {
        | true := Search_loop f i (Z.shiftr (i + j) 1);
        | false := Search_loop f (Z.shiftr (i + j) 1 + 1) j };
    | right _ := i }.
Proof.
  all: rewrite Z.shiftr_div_pow2 by lia; change (2 ^ 1) with 2.
  all: pose proof (Z.div_mod (i + j) 2 ltac:(lia));
    pose proof (Z.mod_pos_bound (i + j) 2 ltac:(lia)); lia.
Qed.

Definition sort_Search (n : Z) (f : Z -> bool) : Z := Search_loop f 0 n.

(** The window of a node in a flat array:
    [arr[idx : idx+uint32(len)]], the sum in [uint32]. *)
Definition window {A} (arr : list A) (idx len : Z) : option (list A) :=
  slice arr idx (wrap32 (idx + len)).

(** The closure handed to [sort.Search] by [findChildGeneral]:
    [searchSlice[i].Char >= char].  [sort.Search] calls it inside the slice
    only. *)
Definition notBelow (searchSlice : list FlatEdge.t) (char : rune) (i : Z)
  : bool :=
  match searchSlice !! Z.to_nat i with
  | Some e => char <=? FlatEdge.Char e
  | None => false
  end.

Definition findChildGeneral (nodeIndex : Z) (char : rune)
    (nodes : list FlatNode.t) (edges : list FlatEdge.t) : option (Z * bool) :=
  node ← index nodes nodeIndex;
  if FlatNode.EdgesLen node =? 0 then Some (0, false)
  else
    searchSlice ←
      window edges (FlatNode.EdgesIdx node) (FlatNode.EdgesLen node);
    let i := sort_Search (Z.of_nat (length searchSlice))
               (notBelow searchSlice char) in
    match searchSlice !! Z.to_nat i with
    | Some e =>
      if (i <? Z.of_nat (length searchSlice)) && (FlatEdge.Char e =? char)
      then Some (FlatEdge.NodeID e, true)
      else Some (0, false)
    | None => Some (0, false)
    end.

(** The walk shared by [Parse], [Inflect] and [findBestPrediction]:
    [for _, char := range s { child, found := findChildGeneral(cur, char);
    if !found { ... break }; cur = child }].  Returns the node reached and
    whether every character had an edge. *)
Fixpoint walk (nodes : list FlatNode.t) (edges : list FlatEdge.t)
    (currentNodeIndex : Z) (chars : list rune) : option (Z * bool) :=
  match chars with
  | [] => Some (currentNodeIndex, true)
  | char :: chars =>
    '(childNodeIndex, found) ←
      findChildGeneral currentNodeIndex char nodes edges;
    if found : bool then walk nodes edges childNodeIndex chars
    else Some (currentNodeIndex, false)
  end.

(** The payload window of a node. *)
Definition payloadsOf {P} (payloads : list P) (node : FlatNode.t)
  : option (list P) :=
  window payloads (FlatNode.PayloadIdx node) (FlatNode.PayloadLen node).

Definition lessWord (x y : Parsed) : bool := String.ltb (Word x) (Word y).

Section Analyzer.
Context `{GoRuntime}.
Variable a : MorphAnalyzer.

(** The loop of [findWord] over the payload window of a final node:
    [if info.ParadigmID == targetID { results[form] = info.TagsID }]. *)
Definition emitForms (form : string) (targetID : Z)
    (infos : list MorphInfo.t) (results : gmap string Z) : gmap string Z :=
  fold_left
    (fun results info =>
       if MorphInfo.ParadigmID info =? targetID
       then <[form := MorphInfo.TagsID info]> results
       else results)
    infos results.

(** [findWord], the closure of [dfsGenerate].  The recursion depth is
    bounded by [fuel]; [dfsGenerate] starts it with the number of nodes, and
    deeper recursion means a cycle, on which the Go function never
    returns. *)
Fixpoint findWord (fuel : nat) (prefix : list rune) (targetID : Z)
    (currNodeIdx : Z) (currentSuffix : list rune) (results : gmap string Z)
  : option (gmap string Z) :=
  match fuel with
  | O => None
  | S fuel =>
    currNode ← index (nodes a) currNodeIdx;
    results ←
      (if FlatNode.IsFinal currNode then
         infos ← payloadsOf (payloads a) currNode;
         Some (emitForms (string_of_runes (prefix ++ currentSuffix))
                 targetID infos results)
       else Some results);
    out ← window (edges a) (FlatNode.EdgesIdx currNode)
            (FlatNode.EdgesLen currNode);
    foldM (fun results edge =>
             findWord fuel prefix targetID (FlatEdge.NodeID edge)
               (currentSuffix ++ [FlatEdge.Char edge]) results)
      results out
  end.

Definition dfsGenerate (nodeIndex : Z) (prefix : list rune) (targetID : Z)
    (results : gmap string Z) : option (gmap string Z) :=
  findWord (length (nodes a)) prefix targetID nodeIndex [] results.

(** All stems of one paradigm, into one map. *)
Definition generateAll (pID : Z) (infos : list ParadigmInfo.t)
    (results : gmap string Z) : option (gmap string Z) :=
  foldM (fun results pInfo =>
           dfsGenerate (ParadigmInfo.NodeID pInfo)
             (runes (ParadigmInfo.Stem pInfo)) pID results)
    results infos.

Definition getFormsByParadigmID (pID : Z) : option (list string) :=
  match paradigms a !! pID with
  | None => Some []
  | Some paradigmInfoSlice =>
    resultsMap ← generateAll pID paradigmInfoSlice ∅;
    if Z.of_nat (size resultsMap) =? 0 then Some []
    else Some (sort_Slice String.ltb (map fst (map_range resultsMap)))
  end.

Definition Parse (word : string) : option (list Parsed) :=
  let lowerWord := ToLower word in
  '(currentNodeIndex, found) ← walk (nodes a) (edges a) 0 (runes lowerWord);
  if negb found then Some []
  else
    node ← index (nodes a) currentNodeIndex;
    if negb (FlatNode.IsFinal node) then Some []
    else
      infos ← payloadsOf (payloads a) node;
      mapM (fun info =>
              lemma ← index (LemmaPool a) (MorphInfo.LemmaID info);
              tags ← index (tagsPool a) (MorphInfo.TagsID info);
              Some (newParsed word lemma tags))
        infos.

(** The first half of [Inflect]: the paradigms at the terminal node of the
    word, each with the lemma of its last payload entry. *)
Definition paradigmsToProcess (word : string) : option (gmap Z string) :=
  let lowerWord := ToLower word in
  '(currentNodeIndex, pathFound) ←
    walk (nodes a) (edges a) 0 (runes lowerWord);
  if pathFound : bool then
    node ← index (nodes a) currentNodeIndex;
    infos ← payloadsOf (payloads a) node;
    foldM (fun m info =>
             lemma ← index (LemmaPool a) (MorphInfo.LemmaID info);
             Some (<[MorphInfo.ParadigmID info := lemma]> m))
      ∅ infos
  else Some ∅.

(** [if _, exists := finalResults[form]; !exists { finalResults[form] =
    newParsed(form, lemma, a.tagsPool[tagsID]) }]. *)
Definition addForm (lemma : string) (finalResults : gmap string Parsed)
    (entry : string * Z) : option (gmap string Parsed) :=
  let '(form, tagsID) := entry in
  match finalResults !! form with
  | Some _ => Some finalResults
  | None =>
    tags ← index (tagsPool a) tagsID;
    Some (<[form := newParsed form lemma tags]> finalResults)
  end.

(** The body of the loop over the stems of one paradigm. *)
Definition addStem (pID : Z) (lemma : string)
    (finalResults : gmap string Parsed) (pInfo : ParadigmInfo.t)
  : option (gmap string Parsed) :=
  generatedForms ←
    dfsGenerate (ParadigmInfo.NodeID pInfo) (runes (ParadigmInfo.Stem pInfo))
      pID ∅;
  foldM (addForm lemma) finalResults (map_range generatedForms).

(** The body of the loop over [paradigmsToProcess]. *)
Definition addParadigm (finalResults : gmap string Parsed)
    (entry : Z * string) : option (gmap string Parsed) :=
  let '(pID, lemma) := entry in
  match paradigms a !! pID with
  | None => Some finalResults
  | Some paradigmInfoSlice =>
    foldM (addStem pID lemma) finalResults paradigmInfoSlice
  end.

Definition Inflect (word : string) : option (list Parsed) :=
  initialParses ← Parse word;
  if Z.of_nat (length initialParses) =? 0 then Some []
  else
    toProcess ← paradigmsToProcess word;
    finalResults ← foldM addParadigm ∅ (map_range toProcess);
    if Z.of_nat (size finalResults) =? 0 then Some []
    else Some (sort_Slice lessWord (map snd (map_range finalResults))).

(** ** analyzer.go: the predictor *)

(** One round of the loop of [findBestPrediction]: the candidates that the
    suffix of length [suffixLen] contributes. *)
Definition probe (rs : list rune) (suffixLen : Z)
  : option (list PredictionCandidate) :=
  if Z.of_nat (length rs) <? suffixLen then Some []
  else
    let suffix := string_of_runes (lastn (Z.to_nat suffixLen) rs) in
    '(currentNodeIndex, foundSuffix) ←
      walk (predictNodes a) (predictEdges a) 0 (runes suffix);
    if negb foundSuffix then Some []
    else
      node ← index (predictNodes a) currentNodeIndex;
      if negb (FlatNode.IsFinal node) then Some []
      else
        ps ← payloadsOf (predictPayloads a) node;
        Some (map (fun p => mkCandidate p suffixLen) ps).

(** The comparison of the [sort.Slice] call of [findBestPrediction]. *)
Definition lessCandidate (x y : PredictionCandidate) : bool :=
  if negb (SuffixLen x =? SuffixLen y) then SuffixLen y <? SuffixLen x
  else PredictInfo.Frequency (Info y) <? PredictInfo.Frequency (Info x).

Definition collectCandidates (word : string)
  : option (list PredictionCandidate) :=
  let rs := runes word in
  foldM (fun candidates suffixLen =>
           found ← probe rs suffixLen; Some (candidates ++ found))
    [] [5; 4; 3; 2; 1].

(** The outer [option] is a panic, the inner one the [nil] pointer. *)
Definition findBestPrediction (word : string)
  : option (option PredictionCandidate) :=
  candidates ← collectCandidates word;
  if Z.of_nat (length candidates) =? 0 then Some None
  else Some (head (sort_Slice lessCandidate candidates)).

(** The lemma of [ParsePredicted], by proportional substitution. *)
Definition predictLemma (lowerWord : string) (best : PredictionCandidate)
    (allFormsOfTemplate : list string) : option string :=
  match paradigmToLemmaID a !! PredictInfo.ParadigmID (Info best) with
  | None => Some lowerWord
  | Some lemmaID =>
    if (Z.of_nat (length allFormsOfTemplate) =? 0)
       || (Z.of_nat (length allFormsOfTemplate)
             <=? PredictInfo.FormIdx (Info best))
    then Some lowerWord
    else
      wordOfTemplate ←
        index allFormsOfTemplate (PredictInfo.FormIdx (Info best));
      lemmaOfTemplate ← index (LemmaPool a) lemmaID;
      if Z.of_nat (length (runes wordOfTemplate)) <? SuffixLen best
      then Some lowerWord
      else
        let rs := runes lowerWord in
        tail ← slice rs (Z.of_nat (length rs) - SuffixLen best)
                 (Z.of_nat (length rs));
        let commonSuffix := string_of_runes tail in
        if negb (HasSuffix wordOfTemplate commonSuffix) then Some lowerWord
        else
          let oovPrefix := TrimSuffix lowerWord commonSuffix in
          let templateWordPrefix := TrimSuffix wordOfTemplate commonSuffix in
          if negb (HasPrefix lemmaOfTemplate templateWordPrefix)
          then Some lowerWord
          else
            let templateLemmaEnding :=
              TrimPrefix lemmaOfTemplate templateWordPrefix in
            Some (String.append oovPrefix templateLemmaEnding)
  end.

Definition ParsePredicted (word : string) : option (list Parsed) :=
  let lowerWord := ToLower word in
  best ← findBestPrediction lowerWord;
  match best with
  | None => Some []
  | Some best =>
    allFormsOfTemplate ←
      getFormsByParadigmID (PredictInfo.ParadigmID (Info best));
    predictedLemma ← predictLemma lowerWord best allFormsOfTemplate;
    tags ← index (tagsPool a) (PredictInfo.TagsID (Info best));
    Some [newParsed word predictedLemma tags]
  end.

Definition Predict (word lemma : string) : option (list Parsed) :=
  let lowerWord := ToLower word in
  best ← findBestPrediction lowerWord;
  match best with
  | None => Some []
  | Some best =>
    let pID := PredictInfo.ParadigmID (Info best) in
    allFormsInParadigm ← getFormsByParadigmID pID;
    if (Z.of_nat (length allFormsInParadigm) =? 0)
       || (Z.of_nat (length allFormsInParadigm)
             <=? PredictInfo.FormIdx (Info best))
    then Some []
    else
      wordOfTemplate ←
        index allFormsInParadigm (PredictInfo.FormIdx (Info best));
      if Z.of_nat (length (runes wordOfTemplate)) <? SuffixLen best
      then Some []
      else
        let rs := runes lowerWord in
        tail ← slice rs (Z.of_nat (length rs) - SuffixLen best)
                 (Z.of_nat (length rs));
        let commonSuffix := string_of_runes tail in
        if negb (HasSuffix wordOfTemplate commonSuffix) then Some []
        else
          let inputPrefix := TrimSuffix lowerWord commonSuffix in
          let dictPrefix := TrimSuffix wordOfTemplate commonSuffix in
          formsAndTags ←
            generateAll pID (default [] (paradigms a !! pID)) ∅;
          results ←
            foldM (fun results '(dictForm, tagsID) =>
                     if HasPrefix dictForm dictPrefix then
                       tags ← index (tagsPool a) tagsID;
                       let ending := TrimPrefix dictForm dictPrefix in
                       let newForm := String.append inputPrefix ending in
                       Some (results ++ [newParsed newForm lemma tags])
                     else Some results)
              [] (map_range formsAndTags);
          if Z.of_nat (length results) =? 0 then Some []
          else Some (sort_Slice lessWord results)
  end.

Definition Analyze (word : string) : option (list Parsed * list Parsed) :=
  parses ← Parse word;
  if 0 <? Z.of_nat (length parses) then
    forms ← Inflect word;
    Some (parses, forms)
  else
    predictedParses ← ParsePredicted word;
    match predictedParses with
    | [] => Some ([], [])
    | p0 :: _ =>
      predictedForms ← Predict word (Lemma_ p0);
      Some (predictedParses, predictedForms)
    end.

(** ** analyzer.go: the batch pipeline *)

(** The dispatcher: [words[i:min(i+chunkSize, len(words))]] for
    [i = 0, chunkSize, ...]. *)
Fixpoint chunksOf {A} (fuel : nat) (chunkSize : nat) (l : list A)
  : list (list A) :=
  match fuel, l with
  | O, _ | _, [] => []
  | S fuel, _ => take chunkSize l :: chunksOf fuel chunkSize (drop chunkSize l)
  end.

Definition chunkSize : nat := 1000.

(** What one worker sends back for one chunk. *)
Definition parseChunk (chunk : list string) : option (list Parsed) :=
  foldM (fun parsedChunk word =>
           '(parses, _) ← Analyze word;
           Some (parsedChunk ++ parses))
    [] chunk.

(** The workers run concurrently; a panic in any of them ends the program,
    and the collector receives the chunk results in some order
    ([arrival]). *)
Definition ParseList (words : list string) : option (list Parsed) :=
  results ← mapM parseChunk (chunksOf (length words) chunkSize words);
  Some (sort_Slice lessWord (concat (arrival results))).

(** What one worker of [InflectList] sends back for one chunk: the second
    component of [Analyze]. *)
Definition inflectChunk (chunk : list string) : option (list Parsed) :=
  foldM (fun parsedChunk word =>
           '(_, forms) ← Analyze word;
           Some (parsedChunk ++ forms))
    [] chunk.

(** [InflectList]: the pipeline of [ParseList] over the forms. *)
Definition InflectList (words : list string) : option (list Parsed) :=
  results ← mapM inflectChunk (chunksOf (length words) chunkSize words);
  Some (sort_Slice lessWord (concat (arrival results))).

End Analyzer.

(** ** analyzer.go: the loader *)

(** The errors that [loadInternal] returns, one per [fmt.Errorf]. *)
Inductive LoadError :=
  | ErrOpen | ErrMmap | ErrHeaderTooShort | ErrReadHeader | ErrBadMagic
  | ErrGzipReader | ErrDecompress | ErrGzipClose | ErrGob.

(** A call returns a value, returns an error, or panics. *)
Inductive outcome (A : Type) :=
  | Ok (x : A)
  | Err (e : LoadError)
  | Panic.
Arguments Ok {A} x.
Arguments Err {A} e.
Arguments Panic {A}.

Record Header := mkHeader {
  Magic : list byte;
  ComplexDataOffset : Z;
  ComplexDataLength : Z;
  NodesOffset : Z;
  NodesCount : Z;
  EdgesOffset : Z;
  EdgesCount : Z;
  PayloadsOffset : Z;
  PayloadsCount : Z;
  PredictNodesOffset : Z;
  PredictNodesCount : Z;
  PredictEdgesOffset : Z;
  PredictEdgesCount : Z;
  PredictPayloadsOffset : Z;
  PredictPayloadsCount : Z
}.

Module ComplexData.
Record t := mk {
  LemmaPool : list string;
  TagsPool : list string;
  Paradigms : gmap Z (list ParadigmInfo.t);
  ParadigmToLemmaID : gmap Z Z
}.
End ComplexData.

Definition byteVal (b : byte) : Z := Z.of_N (Byte.to_N b).

(** Little-endian integers. *)
Definition le_unsigned (bs : list byte) : Z :=
  foldr (fun b acc => byteVal b + 256 * acc) 0 bs.

Definition le_int64 (bs : list byte) : Z := wrap64s (le_unsigned bs).

Definition le_int32 (bs : list byte) : Z :=
  (le_unsigned bs + 2 ^ 31) mod 2 ^ 32 - 2 ^ 31.

(** The bytes [b[lo:lo+n]] of a record that lies inside [b]. *)
Definition bytesAt (b : list byte) (lo n : nat) : list byte :=
  take n (drop lo b).

(** [unsafe.Sizeof] of the header and of the four record types, with the
    padding of the Go compiler on a 64-bit target. *)
Definition sizeofHeader : Z := 120.
Definition sizeofFlatNode : Z := 16.
Definition sizeofFlatEdge : Z := 8.
Definition sizeofMorphInfo : Z := 12.
Definition sizeofPredictInfo : Z := 16.

(** [binary.Read] of the header: the fields one after the other, without
    padding. *)
Definition readHeader (b : list byte) : Header :=
  let field (k : nat) := le_int64 (bytesAt b (4 + 8 * k) 8) in
  mkHeader (bytesAt b 0 4) (field 0%nat) (field 1%nat) (field 2%nat)
    (field 3%nat) (field 4%nat) (field 5%nat) (field 6%nat) (field 7%nat)
    (field 8%nat) (field 9%nat) (field 10%nat) (field 11%nat) (field 12%nat)
    (field 13%nat).

(** The records as they lie in memory on a little-endian host; a [bool] is
    read as true from any non-zero byte. *)
Definition viewFlatNode (b : list byte) : FlatNode.t :=
  FlatNode.mk (le_unsigned (bytesAt b 0 4)) (le_unsigned (bytesAt b 4 4))
    (le_unsigned (bytesAt b 8 2)) (le_unsigned (bytesAt b 10 2))
    (negb (le_unsigned (bytesAt b 12 1) =? 0)).

Definition viewFlatEdge (b : list byte) : FlatEdge.t :=
  FlatEdge.mk (le_int32 (bytesAt b 0 4)) (le_unsigned (bytesAt b 4 4)).

Definition viewMorphInfo (b : list byte) : MorphInfo.t :=
  MorphInfo.mk (le_unsigned (bytesAt b 0 4)) (le_unsigned (bytesAt b 4 4))
    (le_unsigned (bytesAt b 8 4)).

Definition viewPredictInfo (b : list byte) : PredictInfo.t :=
  PredictInfo.mk (le_unsigned (bytesAt b 0 2)) (le_unsigned (bytesAt b 4 4))
    (le_unsigned (bytesAt b 8 4)) (le_unsigned (bytesAt b 12 4)).

(** The first [n] records of [size] bytes of [b]. *)
Fixpoint records {T} (view : list byte -> T) (size n : nat) (b : list byte)
  : list T :=
  match n with
  | O => []
  | S n => view (take size b) :: records view size n (drop size b)
  end.

(** [bytesToSlice]: a view of [len(b) / size] records; the remainder of the
    division is dropped. *)
Definition bytesToSlice {T} (view : list byte -> T) (size : Z)
    (b : list byte) : list T :=
  if Z.of_nat (length b) =? 0 then []
  else records view (Z.to_nat size)
         (Z.to_nat (Z.of_nat (length b) / size)) b.

(** [bytesToSlice[T](mmapFile[offset : offset+count*int64(sizeof)])], the
    arithmetic in [int64]. *)
Definition region {T} (view : list byte -> T) (size : Z)
    (mmapFile : list byte) (offset count : Z) : outcome (list T) :=
  match slice mmapFile offset (wrap64s (offset + wrap64s (count * size))) with
  | Some b => Ok (bytesToSlice view size b)
  | None => Panic
  end.

Section Loader.

(** [gzip.NewReader], [io.ReadAll], [Close] and [gob.Decode] on the complex
    block: the decoded complex data or the error of the step that fails. *)
Variable decodeComplex : list byte -> LoadError + ComplexData.t.

(** [loadInternal] from the point where the file is mapped: [mmapFile] is
    the content of the file.  A file that cannot be opened or mapped, an
    empty one among them, does not get this far. *)
Definition loadInternal (mmapFile : list byte) : outcome MorphAnalyzer :=
  if Z.of_nat (length mmapFile) <? sizeofHeader then Err ErrHeaderTooShort
  else
    let header := readHeader (take (Z.to_nat sizeofHeader) mmapFile) in
    if negb (String.eqb (string_of_list_byte (Magic header)) "DAW7")
    then Err ErrBadMagic
    else
      let complexStart := ComplexDataOffset header in
      let complexEnd := wrap64s (complexStart + ComplexDataLength header) in
      match slice mmapFile complexStart complexEnd with
      | None => Panic
      | Some compressedBlock =>
        match decodeComplex compressedBlock with
        | inl e => Err e
        | inr complexData =>
          match region viewFlatNode sizeofFlatNode mmapFile
                  (NodesOffset header) (NodesCount header),
                region viewFlatEdge sizeofFlatEdge mmapFile
                  (EdgesOffset header) (EdgesCount header),
                region viewMorphInfo sizeofMorphInfo mmapFile
                  (PayloadsOffset header) (PayloadsCount header),
                region viewFlatNode sizeofFlatNode mmapFile
                  (PredictNodesOffset header) (PredictNodesCount header),
                region viewFlatEdge sizeofFlatEdge mmapFile
                  (PredictEdgesOffset header) (PredictEdgesCount header),
                region viewPredictInfo sizeofPredictInfo mmapFile
                  (PredictPayloadsOffset header) (PredictPayloadsCount header)
          with
          | Ok nodes, Ok edges, Ok payloads,
            Ok predictNodes, Ok predictEdges, Ok predictPayloads =>
            Ok (mkAnalyzer
                  (ComplexData.LemmaPool complexData)
                  (ComplexData.TagsPool complexData)
                  (ComplexData.Paradigms complexData)
                  (ComplexData.ParadigmToLemmaID complexData)
                  nodes edges payloads
                  predictNodes predictEdges predictPayloads)
          | _, _, _, _, _, _ => Panic
          end
        end
      end.

End Loader.

(** The six fixed-record regions of a file: offset, count and record size. *)
Definition regionTable (h : Header) : list (Z * Z * Z) :=
  [(NodesOffset h, NodesCount h, sizeofFlatNode);
   (EdgesOffset h, EdgesCount h, sizeofFlatEdge);
   (PayloadsOffset h, PayloadsCount h, sizeofMorphInfo);
   (PredictNodesOffset h, PredictNodesCount h, sizeofFlatNode);
   (PredictEdgesOffset h, PredictEdgesCount h, sizeofFlatEdge);
   (PredictPayloadsOffset h, PredictPayloadsCount h, sizeofPredictInfo)].

(** The byte length of the region that starts at [offset]: it extends to the
    start of the next region of the file, or to the end of the file. *)
Definition regionLength (fileLen : Z) (h : Header) (offset : Z) : Z :=
  let later :=
    filter (fun o => offset < o)
      ((fun r => r.1.1) <$> regionTable h) in
  foldr Z.min fileLen later - offset.

(** The window of a region lies inside the file. *)
Definition inside (fileLen : Z) (r : Z * Z * Z) : Prop :=
  0 <= r.1.1 /\ 0 <= r.1.2 /\ r.1.1 + r.1.2 * r.2 <= fileLen.

(** A file with one node in each graph and one prediction rule, followed by
    four more bytes. *)
Fixpoint le_bytes (n : nat) (z : Z) : list byte :=
  match n with
  | O => []
  | S n => default x00%byte (Byte.of_N (Z.to_N (z mod 256)))
           :: le_bytes n (z / 256)
  end.

Definition demoFile : list byte :=
  [x44; x41; x57; x37]%byte
  ++ le_bytes 8 120 ++ le_bytes 8 0
  ++ le_bytes 8 120 ++ le_bytes 8 1
  ++ le_bytes 8 136 ++ le_bytes 8 0
  ++ le_bytes 8 136 ++ le_bytes 8 0
  ++ le_bytes 8 136 ++ le_bytes 8 1
  ++ le_bytes 8 152 ++ le_bytes 8 0
  ++ le_bytes 8 152 ++ le_bytes 8 1
  ++ le_bytes 4 0
  ++ le_bytes 16 0 ++ le_bytes 16 0 ++ le_bytes 16 0
  ++ le_bytes 4 0.

Definition emptyComplex : ComplexData.t := ComplexData.mk [] [] ∅ ∅.

(** ** Well-formed graphs

    The invariants that the data model states for a flat graph: the root
    exists, every window lies inside its array, every edge leads to a
    node. *)
Record wf_graph {P} (nodes : list FlatNode.t) (edges : list FlatEdge.t)
    (payloads : list P) : Prop := {
  wf_root : (0 < length nodes)%nat;
  wf_edges_len : Z.of_nat (length edges) < 2 ^ 32;
  wf_payloads_len : Z.of_nat (length payloads) < 2 ^ 32;
  wf_edge_window : forall i n, nodes !! i = Some n ->
    0 <= FlatNode.EdgesIdx n /\ 0 <= FlatNode.EdgesLen n /\
    FlatNode.EdgesIdx n + FlatNode.EdgesLen n <= Z.of_nat (length edges);
  wf_payload_window : forall i n, nodes !! i = Some n ->
    0 <= FlatNode.PayloadIdx n /\ 0 <= FlatNode.PayloadLen n /\
    FlatNode.PayloadIdx n + FlatNode.PayloadLen n
      <= Z.of_nat (length payloads);
  wf_edge_target : forall e, e ∈ edges ->
    0 <= FlatEdge.NodeID e < Z.of_nat (length nodes)
}.

(** The same, as a check that computes. *)
Definition node_okb (ne np : nat) (n : FlatNode.t) : bool :=
  (0 <=? FlatNode.EdgesIdx n) && (0 <=? FlatNode.EdgesLen n) &&
  (FlatNode.EdgesIdx n + FlatNode.EdgesLen n <=? Z.of_nat ne) &&
  (0 <=? FlatNode.PayloadIdx n) && (0 <=? FlatNode.PayloadLen n) &&
  (FlatNode.PayloadIdx n + FlatNode.PayloadLen n <=? Z.of_nat np).

Definition wf_graphb {P} (nodes : list FlatNode.t) (edges : list FlatEdge.t)
    (payloads : list P) : bool :=
  (0 <? Z.of_nat (length nodes)) &&
  (Z.of_nat (length edges) <? 2 ^ 32) &&
  (Z.of_nat (length payloads) <? 2 ^ 32) &&
  forallb (node_okb (length edges) (length payloads)) nodes &&
  forallb (fun e => (0 <=? FlatEdge.NodeID e) &&
                    (FlatEdge.NodeID e <? Z.of_nat (length nodes))) edges.

Definition final_has_payloadb (nodes : list FlatNode.t) : bool :=
  forallb (fun n => implb (FlatNode.IsFinal n) (0 <? FlatNode.PayloadLen n))
    nodes.

(** Final nodes carry at least one payload entry. *)
Definition final_has_payload (nodes : list FlatNode.t) : Prop :=
  forall i n, nodes !! i = Some n -> FlatNode.IsFinal n = true ->
    0 < FlatNode.PayloadLen n.

(** The main graph is acyclic: some height, below the number of nodes,
    decreases along every edge. *)
Definition decreasing (rank : Z -> nat) (nodes : list FlatNode.t)
    (edges : list FlatEdge.t) : Prop :=
  (forall i, (i < length nodes)%nat ->
     (rank (Z.of_nat i) < length nodes)%nat) /\
  (forall i n w e,
     nodes !! i = Some n ->
     window edges (FlatNode.EdgesIdx n) (FlatNode.EdgesLen n) = Some w ->
     e ∈ w ->
     (rank (FlatEdge.NodeID e) < rank (Z.of_nat i))%nat).

Definition decreasingb (rank : Z -> nat) (nodes : list FlatNode.t)
    (edges : list FlatEdge.t) : bool :=
  forallb (fun i => (rank (Z.of_nat i) <? length nodes)%nat)
    (seq 0 (length nodes)) &&
  forallb
    (fun '(i, n) =>
       match window edges (FlatNode.EdgesIdx n) (FlatNode.EdgesLen n) with
       | Some w =>
         forallb (fun e =>
                    (rank (FlatEdge.NodeID e) <? rank (Z.of_nat i))%nat) w
       | None => true
       end)
    (imap pair nodes).

(** The invariants of the data model for a loaded lexicon.  Integer fields
    are within the pools and arrays they index. *)
Record wf_lexicon (a : MorphAnalyzer) : Prop := {
  wf_main : wf_graph (nodes a) (edges a) (payloads a);
  wf_predict : wf_graph (predictNodes a) (predictEdges a) (predictPayloads a);
  wf_acyclic : exists rank, decreasing rank (nodes a) (edges a);
  wf_pools : forall m, m ∈ payloads a ->
    0 <= MorphInfo.LemmaID m < Z.of_nat (length (LemmaPool a)) /\
    0 <= MorphInfo.TagsID m < Z.of_nat (length (tagsPool a));
  wf_rules : forall p, p ∈ predictPayloads a ->
    0 <= PredictInfo.TagsID p < Z.of_nat (length (tagsPool a)) /\
    0 <= PredictInfo.FormIdx p;
  wf_anchors : forall pID infos pInfo,
    paradigms a !! pID = Some infos -> pInfo ∈ infos ->
    0 <= ParadigmInfo.NodeID pInfo < Z.of_nat (length (nodes a));
  wf_lemma_ids : forall pID lemmaID,
    paradigmToLemmaID a !! pID = Some lemmaID ->
    0 <= lemmaID < Z.of_nat (length (LemmaPool a))
}.

Definition wf_lexiconb (rank : Z -> nat) (a : MorphAnalyzer) : bool :=
  wf_graphb (nodes a) (edges a) (payloads a) &&
  wf_graphb (predictNodes a) (predictEdges a) (predictPayloads a) &&
  decreasingb rank (nodes a) (edges a) &&
  forallb (fun m =>
             in_range 0 (Z.of_nat (length (LemmaPool a)) - 1)
               (MorphInfo.LemmaID m) &&
             in_range 0 (Z.of_nat (length (tagsPool a)) - 1)
               (MorphInfo.TagsID m)) (payloads a) &&
  forallb (fun p =>
             in_range 0 (Z.of_nat (length (tagsPool a)) - 1)
               (PredictInfo.TagsID p) &&
             (0 <=? PredictInfo.FormIdx p)) (predictPayloads a) &&
  forallb (fun '(_, infos) =>
             forallb (fun pInfo =>
                        in_range 0 (Z.of_nat (length (nodes a)) - 1)
                          (ParadigmInfo.NodeID pInfo)) infos)
    (map_to_list (paradigms a)) &&
  forallb (fun '(_, lemmaID) =>
             in_range 0 (Z.of_nat (length (LemmaPool a)) - 1) lemmaID)
    (map_to_list (paradigmToLemmaID a)).

(** The suffix of [k] characters of the word with runes [rs] spells a path
    of the prediction graph from the root to the final node [node]. *)
Definition suffix_ends_at (a : MorphAnalyzer) (rs : list rune) (k : Z)
    (node : FlatNode.t) : Prop :=
  k <= Z.of_nat (length rs) /\
  exists cur,
    walk (predictNodes a) (predictEdges a) 0
      (runes (string_of_runes (lastn (Z.to_nat k) rs))) = Some (cur, true) /\
    index (predictNodes a) cur = Some node /\
    FlatNode.IsFinal node = true.

(** [c] is at least as good as [d] in the order of [findBestPrediction]:
    longer suffix first, then higher frequency. *)
Definition at_least_as_good (c d : PredictionCandidate) : Prop :=
  SuffixLen d < SuffixLen c \/
  (SuffixLen d = SuffixLen c /\
   PredictInfo.Frequency (Info d) <= PredictInfo.Frequency (Info c)).

(** The analogical substitution of [ParsePredicted] is unsafe for the rule
    [best] and the template form list [forms]: the list is empty, [FormIdx]
    is out of range, the template word is shorter than [SuffixLen], the
    template word does not end with the common suffix, or the template lemma
    does not start with the template prefix. *)
Definition unsafe_substitution (a : MorphAnalyzer) (lowerWord : string)
    (best : PredictionCandidate) (forms : list string) : Prop :=
  forms = [] \/
  Z.of_nat (length forms) <= PredictInfo.FormIdx (Info best) \/
  exists templateWord,
    index forms (PredictInfo.FormIdx (Info best)) = Some templateWord /\
    let commonSuffix :=
      string_of_runes (lastn (Z.to_nat (SuffixLen best)) (runes lowerWord)) in
    (Z.of_nat (length (runes templateWord)) < SuffixLen best \/
     HasSuffix templateWord commonSuffix = false \/
     exists lemmaID templateLemma,
       paradigmToLemmaID a !! PredictInfo.ParadigmID (Info best)
         = Some lemmaID /\
       index (LemmaPool a) lemmaID = Some templateLemma /\
       HasPrefix templateLemma (TrimSuffix templateWord commonSuffix)
         = false).

(** Paradigm [pID] generates the surface form [form]: the depth-first
    generation from one of its stems emits it. *)
Definition generates `{GoRuntime} (a : MorphAnalyzer) (pID : Z)
    (form : string) : Prop :=
  exists stems pInfo generatedForms,
    paradigms a !! pID = Some stems /\ pInfo ∈ stems /\
    dfsGenerate a (ParadigmInfo.NodeID pInfo)
      (runes (ParadigmInfo.Stem pInfo)) pID ∅ = Some generatedForms /\
    is_Some (generatedForms !! form).

(** The word is in the dictionary and, for one of its parses, a stem of the
    paradigm is a leading substring of the word and is spelled from the root
    to its anchor node. *)
Definition stem_covers `{GoRuntime} (a : MorphAnalyzer) (word : string)
  : Prop :=
  exists cur node infos info stems pInfo rest,
    walk (nodes a) (edges a) 0 (runes (ToLower word)) = Some (cur, true) /\
    index (nodes a) cur = Some node /\ FlatNode.IsFinal node = true /\
    payloadsOf (payloads a) node = Some infos /\ info ∈ infos /\
    paradigms a !! MorphInfo.ParadigmID info = Some stems /\
    pInfo ∈ stems /\
    runes (ToLower word) = runes (ParadigmInfo.Stem pInfo) ++ rest /\
    walk (nodes a) (edges a) 0 (runes (ParadigmInfo.Stem pInfo))
    = Some (ParadigmInfo.NodeID pInfo, true).

(** The parses that [Analyze] reports for a word: those of [Parse] when
    there are any, else those of [ParsePredicted]. *)
Definition analyzedParses `{GoRuntime} (a : MorphAnalyzer) (word : string)
  : list Parsed :=
  match Parse a word with
  | Some (p :: ps) => p :: ps
  | _ => default [] (ParsePredicted a word)
  end.

(** ** A reference run time and a small lexicon *)

(** The case mapping of [unicode.ToLower] and [unicode.ToUpper] on basic
    Latin and on the Cyrillic block U+0400..U+045F; the identity
    elsewhere. *)
Definition refToLower (r : rune) : rune :=
  if in_range 0x41 0x5A r then r + 32
  else if in_range 0x410 0x42F r then r + 32
  else if in_range 0x400 0x40F r then r + 80
  else r.

Definition refToUpper (r : rune) : rune :=
  if in_range 0x61 0x7A r then r - 32
  else if in_range 0x430 0x44F r then r - 32
  else if in_range 0x450 0x45F r then r - 80
  else r.

(** A stable merge sort stands for [sort.Slice]. *)
Definition notAfter {A} (less : A -> A -> bool) : relation A :=
  fun x y => less y x = false.

#[global] Instance notAfter_dec {A} (less : A -> A -> bool) :
  RelDecision (notAfter less).
Proof. intros x y. unfold notAfter. apply bool_eq_dec. Defined.

Definition refSort {A} (less : A -> A -> bool) (l : list A) : list A :=
  merge_sort (notAfter less) l.

Lemma refSort_sorted A (less : A -> A -> bool) l :
  StrictWeak less ->
  StronglySorted (fun x y => less y x = false) (refSort less l).
Proof.
  intros [Hasym Htrans]. unfold refSort.
  change (StronglySorted (notAfter less) (merge_sort (notAfter less) l)).
  apply StronglySorted_merge_sort; unfold notAfter.
  - intros x y z Hxy Hyz. exact (Htrans x y z Hxy Hyz).
  - intros x y. destruct (less y x) eqn:E; [right; eauto|left; reflexivity].
Qed.

#[global] Instance refRuntime : GoRuntime := {|
  unicode_ToLower := refToLower;
  unicode_ToUpper := refToUpper;
  map_range := fun K _ _ V m => map_to_list m;
  map_range_perm := fun K _ _ V m => reflexivity _;
  sort_Slice := @refSort;
  sort_Slice_perm := fun A less l => merge_sort_Permutation _ l;
  sort_Slice_sorted := refSort_sorted;
  arrival := fun A l => l;
  arrival_perm := fun A l => reflexivity _
|}.

(** A lexicon with the words [ab] (paradigms 1 and 2) and [abc]
    (paradigm 1), and the suffix rules [b] and [zb]. *)
Definition demo : MorphAnalyzer := {|
  LemmaPool := ["ab"; "abc"];
  tagsPool := ["Существительное,Именительный"; "Глагол";
               "Существительное,Родительный"];
  paradigms :=
    {[ 1 := [ParadigmInfo.mk "a" 1]; 2 := [ParadigmInfo.mk "a" 1] ]};
  paradigmToLemmaID := {[ 1 := 0; 2 := 1 ]};
  nodes := [FlatNode.mk 0 0 0 1 false; FlatNode.mk 0 1 0 1 false;
            FlatNode.mk 0 2 2 1 true; FlatNode.mk 2 3 1 0 true];
  edges := [FlatEdge.mk 97 1; FlatEdge.mk 98 2; FlatEdge.mk 99 3];
  payloads := [MorphInfo.mk 0 0 1; MorphInfo.mk 1 1 2; MorphInfo.mk 0 2 1];
  predictNodes := [FlatNode.mk 0 0 0 2 false; FlatNode.mk 0 2 2 0 true;
                   FlatNode.mk 2 2 0 1 false; FlatNode.mk 2 3 1 0 true];
  predictEdges := [FlatEdge.mk 98 1; FlatEdge.mk 122 2; FlatEdge.mk 98 3];
  predictPayloads := [PredictInfo.mk 7 1 0 0; PredictInfo.mk 9 2 0 1;
                      PredictInfo.mk 1 1 1 2]
|}.

(** The rule that wins for [qzb]: suffix [zb], template form 1 of
    paradigm 1. *)
Definition demo_rule : PredictionCandidate :=
  mkCandidate (PredictInfo.mk 1 1 1 2) 2.

(** Every entry of the result map of [Inflect] is filed under its own
    surface form. *)
Definition keyed (finalResults : gmap string Parsed) : Prop :=
  forall form p, finalResults !! form = Some p -> Word p = form.

(** Every tag index that the generation adds to [results0] comes from a
    payload entry. *)
Definition from_payloads (a : MorphAnalyzer) (results0 results : gmap string Z)
  : Prop :=
  forall k v, results !! k = Some v ->
    results0 !! k = Some v \/
    exists info, info ∈ payloads a /\ MorphInfo.TagsID info = v.

(** The characters [cs] label a chain of edges of the main graph from node
    [i] to node [j], each edge taken from the window of the node it
    leaves. *)
Inductive path (a : MorphAnalyzer) : Z -> list rune -> Z -> Prop :=
  | path_nil i : path a i [] i
  | path_cons i n w e cs j :
      index (nodes a) i = Some n ->
      window (edges a) (FlatNode.EdgesIdx n) (FlatNode.EdgesLen n) = Some w ->
      e ∈ w ->
      path a (FlatEdge.NodeID e) cs j ->
      path a i (FlatEdge.Char e :: cs) j.

(** Node [j] is final and its payload window has an entry of paradigm
    [targetID] with the tag index [v]. *)
Definition emits (a : MorphAnalyzer) (targetID j v : Z) : Prop :=
  exists node infos info,
    index (nodes a) j = Some node /\ FlatNode.IsFinal node = true /\
    payloadsOf (payloads a) node = Some infos /\ info ∈ infos /\
    MorphInfo.ParadigmID info = targetID /\ MorphInfo.TagsID info = v.

(** Paradigm [pID] spells [form]: a stem of the paradigm followed by the
    labels of a path from the anchor node of the stem to a final node that
    carries the paradigm. *)
Definition spells (a : MorphAnalyzer) (pID : Z) (form : string) : Prop :=
  exists stems pInfo cs j v,
    paradigms a !! pID = Some stems /\ pInfo ∈ stems /\
    path a (ParadigmInfo.NodeID pInfo) cs j /\ emits a pID j v /\
    form = string_of_runes (runes (ParadigmInfo.Stem pInfo) ++ cs).

(** The edge window of every node is sorted strictly ascending by [Char],
    as the binary search of [findChildGeneral] expects. *)
Definition sorted_windows (nodes : list FlatNode.t) (edges : list FlatEdge.t)
  : Prop :=
  forall i n w, nodes !! i = Some n ->
    window edges (FlatNode.EdgesIdx n) (FlatNode.EdgesLen n) = Some w ->
    StronglySorted (fun e1 e2 => FlatEdge.Char e1 < FlatEdge.Char e2) w.

Definition sorted_windowsb (nodes : list FlatNode.t) (edges : list FlatEdge.t)
  : bool :=
  forallb
    (fun n =>
       match window edges (FlatNode.EdgesIdx n) (FlatNode.EdgesLen n) with
       | Some w =>
         bool_decide
           (StronglySorted (fun e1 e2 => FlatEdge.Char e1 < FlatEdge.Char e2)
              w)
       | None => true
       end)
    nodes.

(** The forms that [Analyze] reports for a word. *)
Definition analyzedForms `{GoRuntime} (a : MorphAnalyzer) (word : string)
  : list Parsed :=
  match Analyze a word with
  | Some (_, forms) => forms
  | None => []
  end.

(** The record [p] is built from paradigm [pID] with the lemma [lemma]: a
    stem of the paradigm generates the form of the record, and the record
    is [newParsed] of the form, the lemma and the tag string generated with
    the form. *)
Definition built_from (a : MorphAnalyzer) (pID : Z) (lemma : string)
    (p : Parsed) : Prop :=
  exists stems pInfo generatedForms tagsID tags,
    paradigms a !! pID = Some stems /\ pInfo ∈ stems /\
    dfsGenerate a (ParadigmInfo.NodeID pInfo)
      (runes (ParadigmInfo.Stem pInfo)) pID ∅ = Some generatedForms /\
    generatedForms !! Word p = Some tagsID /\
    index (tagsPool a) tagsID = Some tags /\
    p = newParsed (Word p) lemma tags.


(** The list [l] is a view of the file: its element [i] is read from the
    [size] bytes at [offset + i * size]. *)
Definition views {T} (view : list byte -> T) (size : Z) (file : list byte)
    (offset : Z) (l : list T) : Prop :=
  forall i x, l !! i = Some x ->
    x = view (bytesAt file (Z.to_nat offset + i * Z.to_nat size)
                (Z.to_nat size)).

(** The rune [r] may label an edge or stand in a stem: it is a Unicode
    scalar value other than U+FFFD read back from an invalid byte (encoding
    and decoding it gives it back), and it is its own lower-case form. *)
Definition lexicon_rune `{GoRuntime} (r : rune) : Prop :=
  runes (encode_rune r) = [r] /\ unicode_ToLower r = r.

(** A second run time: the reference one with every [range] over a map in
    the opposite order. *)
Definition revRuntime : GoRuntime := {|
  unicode_ToLower := refToLower;
  unicode_ToUpper := refToUpper;
  map_range := fun K _ _ V m => reverse (map_to_list m);
  map_range_perm := fun K _ _ V m => reverse_Permutation _;
  sort_Slice := @refSort;
  sort_Slice_perm := fun A less l => merge_sort_Permutation _ l;
  sort_Slice_sorted := refSort_sorted;
  arrival := fun A l => l;
  arrival_perm := fun A l => reflexivity _
|}.

(** A lexicon with the words [ab] (paradigm 1) and [x] (paradigm 2) in
    which the only stem of paradigm 1 is [x], anchored at the node of the
    word [x]: no form of paradigm 1 lies below that anchor. *)
Definition strayStem : MorphAnalyzer := {|
  LemmaPool := ["ab"; "x"];
  tagsPool := ["Существительное"];
  paradigms :=
    {[ 1 := [ParadigmInfo.mk "x" 3]; 2 := [ParadigmInfo.mk "x" 3] ]};
  paradigmToLemmaID := {[ 1 := 0; 2 := 1 ]};
  nodes := [FlatNode.mk 0 0 0 2 false; FlatNode.mk 0 2 0 1 false;
            FlatNode.mk 0 3 1 0 true; FlatNode.mk 1 3 1 0 true];
  edges := [FlatEdge.mk 97 1; FlatEdge.mk 120 3; FlatEdge.mk 98 2];
  payloads := [MorphInfo.mk 0 0 1; MorphInfo.mk 1 0 2];
  predictNodes := [FlatNode.mk 0 0 0 0 false];
  predictEdges := [];
  predictPayloads := []
|}.

(** A file built around a given complex block: the header, one node record
    followed by four stray bytes, one prediction node, one prediction rule,
    and the complex block at the end.  The node region spans the 20 bytes
    up to the next region, its count of 1 times the record size is 16. *)
Definition corruptPrefix (blockLen : Z) : list byte :=
  [x44; x41; x57; x37]%byte
  ++ le_bytes 8 172 ++ le_bytes 8 blockLen
  ++ le_bytes 8 120 ++ le_bytes 8 1
  ++ le_bytes 8 140 ++ le_bytes 8 0
  ++ le_bytes 8 140 ++ le_bytes 8 0
  ++ le_bytes 8 140 ++ le_bytes 8 1
  ++ le_bytes 8 156 ++ le_bytes 8 0
  ++ le_bytes 8 156 ++ le_bytes 8 1
  ++ le_bytes 4 0
  ++ le_bytes 16 0 ++ le_bytes 4 0 ++ le_bytes 16 0 ++ le_bytes 16 0.

Definition corruptFile (block : list byte) : list byte :=
  corruptPrefix (Z.of_nat (length block)) ++ block.

Definition corruptHeader (blockLen : Z) : Header :=
  mkHeader [x44; x41; x57; x37]%byte 172 blockLen
    120 1 140 0 140 0 140 1 156 0 156 1.

(** A decoder that accepts one block, of four bytes, and rejects every
    other block, the empty one included, as [gzip.NewReader] does. *)
Definition sampleBlock : list byte := [x1f; x8b; x08; x00]%byte.

Definition sampleDecoder (b : list byte) : LoadError + ComplexData.t :=
  if String.eqb (string_of_list_byte b) (string_of_list_byte sampleBlock)
  then inr emptyComplex
  else inl ErrGzipReader.

(** * Properties *)

(** The membership tests of one token, as opaque booleans. *)
Ltac abstract_tests g :=
  generalize (inMap g animacyTags), (inMap g aspectTags), (inMap g caseTags),
    (inMap g genderTags), (inMap g moodTags), (inMap g numberTags),
    (inMap g personTags), (inMap g tenseTags), (inMap g transTags),
    (inMap g voiceTags);
  intros [] [] [] [] [] [] [] [] [] [].

Lemma dispatch_keeps p g :
  Word (dispatch p g) = Word p /\ Lemma_ (dispatch p g) = Lemma_ p /\
  Tags (dispatch p g) = Tags p /\ PartOfSpeech (dispatch p g) = PartOfSpeech p.
Proof.
  unfold dispatch. destruct (String.eqb g (PartOfSpeech p)); [easy|].
  abstract_tests g; repeat split; reflexivity.
Qed.

Lemma dispatch_field p g c :
  field c (dispatch p g) =
  if decide (goes_to (PartOfSpeech p) g (Some c)) then g else field c p.
Proof.
  destruct (decide (goes_to (PartOfSpeech p) g (Some c))) as [Hy|Hy];
    unfold goes_to, first_category, categories in Hy;
    cbn [List.find vocabulary] in Hy; revert Hy; unfold dispatch;
    destruct (String.eqb_spec g (PartOfSpeech p)) as [->|Hne];
    try (intros Hy; solve [reflexivity | destruct Hy; congruence]).
  all: abstract_tests g; destruct c; cbn [field]; intros Hy;
    solve [ reflexivity
          | destruct Hy; congruence
          | exfalso; apply Hy; split; [assumption|reflexivity] ].
Qed.

Lemma dispatch_other p g :
  OtherTags (dispatch p g) =
  if decide (goes_to (PartOfSpeech p) g None)
  then {[ g ]} ∪ OtherTags p else OtherTags p.
Proof.
  destruct (decide (goes_to (PartOfSpeech p) g None)) as [Hy|Hy];
    unfold goes_to, first_category, categories in Hy;
    cbn [List.find vocabulary] in Hy; revert Hy; unfold dispatch;
    destruct (String.eqb_spec g (PartOfSpeech p)) as [->|Hne];
    try (intros Hy; solve [reflexivity | destruct Hy; congruence]).
  all: abstract_tests g; cbn [OtherTags]; intros Hy;
    solve [ reflexivity
          | destruct Hy; congruence
          | exfalso; apply Hy; split; [assumption|reflexivity] ].
Qed.

Lemma fold_dispatch_keeps toks p :
  Word (fold_left dispatch toks p) = Word p /\
  Lemma_ (fold_left dispatch toks p) = Lemma_ p /\
  Tags (fold_left dispatch toks p) = Tags p /\
  PartOfSpeech (fold_left dispatch toks p) = PartOfSpeech p.
Proof.
  revert p. induction toks as [|g toks IH]; intros p; [easy|].
  cbn [fold_left]. destruct (IH (dispatch p g)) as (-> & -> & -> & ->).
  apply dispatch_keeps.
Qed.

Lemma fold_dispatch_field toks p c :
  field c (fold_left dispatch toks p) =
  default (field c p)
    (last (filter (fun g => goes_to (PartOfSpeech p) g (Some c)) toks)).
Proof.
  revert p. induction toks as [|g toks IH]; intros p; [reflexivity|].
  cbn [fold_left]. rewrite IH, dispatch_field.
  destruct (dispatch_keeps p g) as (_ & _ & _ & ->).
  rewrite filter_cons.
  destruct (filter _ toks) as [|h l] eqn:Hf; case_decide;
    try reflexivity.
  all: rewrite ?last_cons_cons; destruct (last (h :: l)) eqn:E;
    [reflexivity|apply last_None in E; discriminate].
Qed.

Lemma fold_dispatch_other toks p g :
  g ∈ OtherTags (fold_left dispatch toks p) <->
  g ∈ OtherTags p \/ (g ∈ toks /\ goes_to (PartOfSpeech p) g None).
Proof.
  revert p. induction toks as [|h toks IH]; intros p.
  { cbn. split; [tauto|]. intros [?|[H%elem_of_nil _]]; tauto. }
  cbn [fold_left]. rewrite IH, dispatch_other.
  destruct (dispatch_keeps p h) as (_ & _ & _ & ->).
  rewrite elem_of_cons. case_decide as Hh.
  - rewrite elem_of_union, elem_of_singleton. split.
    + intros [[->|?]|[? ?]]; auto.
    + intros [?|[[->|?] ?]]; auto.
  - split.
    + intros [?|[? ?]]; auto.
    + intros [?|[[->|?] ?]]; auto. contradiction.
Qed.

Lemma Split_comma_cons s : exists first rest, Split_comma s = first :: rest.
Proof.
  induction s as [|c s (f & r & IH)]; cbn; [eauto|].
  rewrite IH. destruct (Ascii.eqb c ","); eauto.
Qed.

(** C10, as amended.  [newParsed] keeps the raw tag string in [Tags]; the
    part of speech is the first token when that token is in the
    part-of-speech vocabulary and is empty otherwise; every token other than
    the part of speech goes to exactly one destination, the first category of
    the fixed order animacy, aspect, case, gender, mood, number, person,
    tense, transitivity, voice whose vocabulary has it, or else the
    other-tags set: each category field ends up holding the last token sent
    to it (empty when none was), and the other-tags set holds exactly the
    tokens sent to no category. *)
Theorem newParsed_decomposition (word lemma tagString : string) :
  let p := newParsed word lemma tagString in
  let tokens := Split_comma tagString in
  Tags p = tagString /\
  (exists first rest, tokens = first :: rest /\
     PartOfSpeech p = if inMap first posTags then first else "") /\
  (forall c, field c p =
     default "" (last (filter (fun g => goes_to (PartOfSpeech p) g (Some c))
                         tokens))) /\
  (forall g, g ∈ OtherTags p <->
     g ∈ tokens /\ goes_to (PartOfSpeech p) g None).
Proof.
  intros p tokens. subst p. unfold newParsed. fold tokens.
  destruct (Split_comma_cons tagString) as (first & rest & Htok).
  fold tokens in Htok. rewrite Htok.
  set (p0 := mkParsed word lemma tagString "" "" "" "" "" "" "" "" "" "" "" ∅).
  set (p1 := if inMap first posTags then set_PartOfSpeech first p0 else p0).
  assert (Hpos : PartOfSpeech p1 = if inMap first posTags then first else "")
    by (subst p1; destruct (inMap first posTags); reflexivity).
  assert (Hfld : forall c, field c p1 = "")
    by (intros c; subst p1; destruct (inMap first posTags), c; reflexivity).
  assert (Hoth : OtherTags p1 = ∅)
    by (subst p1; destruct (inMap first posTags); reflexivity).
  assert (Htag : Tags p1 = tagString)
    by (subst p1; destruct (inMap first posTags); reflexivity).
  destruct (fold_dispatch_keeps (first :: rest) p1) as (_ & _ & HT & HP).
  rewrite HP. split; [congruence|]. split; [eauto|]. split.
  - intros c. rewrite fold_dispatch_field, Hfld. reflexivity.
  - intros g. rewrite fold_dispatch_other, Hoth.
    split; [intros [H%elem_of_empty|H]; tauto|auto].
Qed.

(** C10, as stated, fails on the empty tag string: its only token is empty,
    the part of speech is empty, hence equal to that token, and the token is
    not in the part-of-speech vocabulary. *)
Lemma newParsed_pos_iff_counterexample :
  ~ (forall word lemma tagString first rest,
       Split_comma tagString = first :: rest ->
       (PartOfSpeech (newParsed word lemma tagString) = first <->
        first ∈ posTags)).
Proof.
  intros H. specialize (H "" "" "" "" [] eq_refl).
  assert (Hout : inMap "" posTags = false) by (vm_compute; reflexivity).
  apply bool_decide_eq_false in Hout. apply Hout, H.
  vm_compute. reflexivity.
Qed.

(** ** The traversal primitive *)

Lemma half_between i j : i < j -> i <= Z.shiftr (i + j) 1 < j.
Proof.
  intros Hij. rewrite Z.shiftr_div_pow2 by lia. change (2 ^ 1) with 2.
  pose proof (Z.div_mod (i + j) 2 ltac:(lia)).
  pose proof (Z.mod_pos_bound (i + j) 2 ltac:(lia)). lia.
Qed.

Lemma Search_loop_spec f i j :
  i <= j ->
  let r := Search_loop f i j in
  i <= r <= j /\ (r < j -> f r = true) /\ (i < r -> f (r - 1) = false).
Proof.
  funelim (Search_loop f i j); intros Hij; cbn zeta.
  - repeat split; lia.
  - match goal with Hlt : i < j |- _ => pose proof (half_between i j Hlt) end.
    match goal with
    | IH : _ -> _ /\ _ |- _ => destruct (IH ltac:(lia)) as (Hr & Ht & Hf)
    end.
    set (h := Z.shiftr (i + j) 1) in *. set (r := Search_loop f i h) in *.
    repeat split; try lia; [|assumption].
    intros _. destruct (decide (r < h)) as [Hl|Hl]; [auto|].
    replace r with h by lia. assumption.
  - match goal with Hlt : i < j |- _ => pose proof (half_between i j Hlt) end.
    match goal with
    | IH : _ -> _ /\ _ |- _ => destruct (IH ltac:(lia)) as (Hr & Ht & Hf)
    end.
    set (h := Z.shiftr (i + j) 1) in *.
    set (r := Search_loop f (h + 1) j) in *.
    repeat split; try lia; [assumption|].
    intros _. destruct (decide (h + 1 < r)) as [Hl|Hl]; [auto|].
    replace (r - 1) with h by lia. assumption.
Qed.

Lemma sorted_lookup_lt {A} (R : relation A) (w : list A) i j x y :
  StronglySorted R w -> w !! i = Some x -> w !! j = Some y ->
  (i < j)%nat -> R x y.
Proof.
  intros Hs. revert i j.
  induction Hs as [|z w Hs IH Hall]; intros i j Hi Hj Hlt.
  - rewrite lookup_nil in Hi. discriminate.
  - destruct j as [|j]; [lia|]. cbn in Hj. destruct i as [|i].
    + cbn in Hi. injection Hi as <-. rewrite List.Forall_forall in Hall.
      apply Hall, list_elem_of_In, list_elem_of_lookup. eauto.
    + cbn in Hi. apply (IH i j); [assumption..|lia].
Qed.

Lemma Search_finds (w : list FlatEdge.t) (char : rune) e :
  StronglySorted (fun e1 e2 => FlatEdge.Char e1 < FlatEdge.Char e2) w ->
  e ∈ w -> FlatEdge.Char e = char ->
  let r := sort_Search (Z.of_nat (length w)) (notBelow w char) in
  0 <= r < Z.of_nat (length w) /\ w !! Z.to_nat r = Some e.
Proof.
  intros Hs [k Hk]%list_elem_of_lookup Hc r.
  pose proof (lookup_lt_Some _ _ _ Hk) as Hklen.
  destruct (Search_loop_spec (notBelow w char) 0 (Z.of_nat (length w))
              ltac:(lia)) as (Hr & Ht & Hf).
  fold (sort_Search (Z.of_nat (length w)) (notBelow w char)) in Hr, Ht, Hf.
  fold r in Hr, Ht, Hf.
  assert (Hkr : Z.of_nat k = r).
  { destruct (Z.lt_trichotomy (Z.of_nat k) r) as [Hlt|[Heq|Hgt]];
      [exfalso|assumption|exfalso].
    - specialize (Hf ltac:(lia)). unfold notBelow in Hf.
      destruct (w !! Z.to_nat (r - 1)) as [e'|] eqn:He'.
      + apply Z.leb_gt in Hf.
        destruct (decide (k = Z.to_nat (r - 1))) as [->|Hne].
        * rewrite Hk in He'. injection He' as <-. lia.
        * pose proof (sorted_lookup_lt _ w k (Z.to_nat (r - 1)) e e' Hs Hk He'
                        ltac:(lia)) as Hlt'. cbn in Hlt'. lia.
      + apply lookup_ge_None in He'. lia.
    - specialize (Ht ltac:(lia)). unfold notBelow in Ht.
      destruct (w !! Z.to_nat r) as [e'|] eqn:He'; [|discriminate].
      apply Z.leb_le in Ht.
      pose proof (sorted_lookup_lt _ w (Z.to_nat r) k e' e Hs He' Hk
                    ltac:(lia)) as Hlt'. cbn in Hlt'. lia. }
  split; [lia|]. rewrite <- Hkr, Nat2Z.id. assumption.
Qed.

(** C6.  At a valid node index, [findChildGeneral] reports no child when the
    edge window of the node is empty; and when the window is sorted strictly
    ascending by [Char], it returns the [NodeID] of the edge of the window
    whose [Char] is the character, and reports no child when the window has
    no such edge. *)
Theorem findChildGeneral_spec (nodeIndex : Z) (char : rune)
    (nodes : list FlatNode.t) (edges : list FlatEdge.t) (node : FlatNode.t) :
  index nodes nodeIndex = Some node ->
  (FlatNode.EdgesLen node = 0 ->
   findChildGeneral nodeIndex char nodes edges = Some (0, false)) /\
  (forall w,
     FlatNode.EdgesLen node <> 0 ->
     window edges (FlatNode.EdgesIdx node) (FlatNode.EdgesLen node) = Some w ->
     StronglySorted (fun e1 e2 => FlatEdge.Char e1 < FlatEdge.Char e2) w ->
     (forall e, e ∈ w -> FlatEdge.Char e = char ->
        findChildGeneral nodeIndex char nodes edges
        = Some (FlatEdge.NodeID e, true)) /\
     ((forall e, e ∈ w -> FlatEdge.Char e <> char) ->
        findChildGeneral nodeIndex char nodes edges = Some (0, false))).
Proof.
  intros Hnode. unfold findChildGeneral. rewrite Hnode. cbn [mbind option_bind].
  split.
  - intros ->. reflexivity.
  - intros w Hlen Hw Hs. apply Z.eqb_neq in Hlen. rewrite Hlen, Hw.
    cbn [mbind option_bind]. cbv zeta. split.
    + intros e He Hc.
      destruct (Search_finds w char e Hs He Hc) as ([_ Hr] & ->).
      apply Z.ltb_lt in Hr as ->. apply Z.eqb_eq in Hc as ->.
      reflexivity.
    + intros Hno.
      destruct (w !! Z.to_nat _) as [e|] eqn:He; [|reflexivity].
      assert (Hne : FlatEdge.Char e <> char)
        by (apply Hno, list_elem_of_lookup; eauto).
      apply Z.eqb_neq in Hne as ->. rewrite andb_false_r. reflexivity.
Qed.

(** C6 at the root of the small lexicon, on the character [a]. *)
Lemma findChildGeneral_spec_witness :
  index (nodes demo) 0 = Some (FlatNode.mk 0 0 0 1 false) /\
  findChildGeneral 0 97 (nodes demo) (edges demo) = Some (1, true).
Proof.
  split; [reflexivity|].
  refine (proj1 (proj2 (findChildGeneral_spec 0 97 (nodes demo) (edges demo)
                          (FlatNode.mk 0 0 0 1 false) eq_refl)
                   [FlatEdge.mk 97 1] _ eq_refl _)
            (FlatEdge.mk 97 1) _ eq_refl).
  - cbn. lia.
  - repeat constructor.
  - apply list_elem_of_In. left. reflexivity.
Defined.

(** ** Well-formed graphs never panic on a walk *)

Lemma index_Some {A} (l : list A) i :
  0 <= i < Z.of_nat (length l) -> exists x, index l i = Some x /\ x ∈ l.
Proof.
  intros Hi. unfold index. destruct (Z.leb_spec 0 i); [|lia].
  destruct (lookup_lt_is_Some_2 l (Z.to_nat i) ltac:(lia)) as [x Hx].
  exists x. split; [assumption|]. apply list_elem_of_lookup. eauto.
Qed.

Lemma index_lookup {A} (l : list A) i x :
  index l i = Some x ->
  0 <= i < Z.of_nat (length l) /\ l !! Z.to_nat i = Some x.
Proof.
  unfold index. destruct (Z.leb_spec 0 i); [|discriminate]. intros Hx.
  pose proof (lookup_lt_Some _ _ _ Hx). split; [lia|assumption].
Qed.

Lemma slice_Some {A} (l : list A) lo hi w :
  slice l lo hi = Some w ->
  0 <= lo <= hi /\ hi <= Z.of_nat (length l) /\
  w = take (Z.to_nat (hi - lo)) (drop (Z.to_nat lo) l).
Proof.
  unfold slice.
  destruct (Z.leb_spec 0 lo), (Z.leb_spec lo hi),
    (Z.leb_spec hi (Z.of_nat (length l))); cbn; try discriminate.
  intros [= <-]. repeat split; lia.
Qed.

Lemma slice_subseteq {A} (l : list A) lo hi w :
  slice l lo hi = Some w -> w ⊆ l.
Proof.
  intros (_ & _ & ->)%slice_Some.
  etransitivity; [apply subseteq_take|apply subseteq_drop].
Qed.

Lemma window_in_bounds {A} (arr : list A) idx len :
  0 <= idx -> 0 <= len -> idx + len <= Z.of_nat (length arr) ->
  Z.of_nat (length arr) < 2 ^ 32 ->
  window arr idx len
  = Some (take (Z.to_nat len) (drop (Z.to_nat idx) arr)).
Proof.
  intros Hi Hl Hb Hlen. unfold window, wrap32, slice.
  rewrite Z.mod_small by lia.
  destruct (Z.leb_spec 0 idx), (Z.leb_spec idx (idx + len)),
    (Z.leb_spec (idx + len) (Z.of_nat (length arr))); try lia.
  cbn. do 3 f_equal. lia.
Qed.

Lemma window_subseteq {A} (arr : list A) idx len w :
  window arr idx len = Some w -> w ⊆ arr.
Proof. apply slice_subseteq. Qed.

Section WalkTotal.
Context {P : Type} (nodes : list FlatNode.t) (edges : list FlatEdge.t)
  (payloads : list P) (Hwf : wf_graph nodes edges payloads).

Lemma wf_window_edges i n :
  nodes !! i = Some n ->
  exists w, window edges (FlatNode.EdgesIdx n) (FlatNode.EdgesLen n) = Some w.
Proof.
  intros Hn. destruct (wf_edge_window _ _ _ Hwf i n Hn) as (? & ? & ?).
  eexists. apply window_in_bounds; try assumption. apply Hwf.
Qed.

Lemma wf_window_payloads i n :
  nodes !! i = Some n ->
  payloadsOf payloads n
  = Some (take (Z.to_nat (FlatNode.PayloadLen n))
            (drop (Z.to_nat (FlatNode.PayloadIdx n)) payloads)).
Proof.
  intros Hn. destruct (wf_payload_window _ _ _ Hwf i n Hn) as (? & ? & ?).
  apply window_in_bounds; try assumption. apply Hwf.
Qed.

Lemma findChildGeneral_found i char c b :
  findChildGeneral i char nodes edges = Some (c, b) ->
  b = true ->
  exists n w e,
    index nodes i = Some n /\
    window edges (FlatNode.EdgesIdx n) (FlatNode.EdgesLen n) = Some w /\
    e ∈ w /\ FlatEdge.Char e = char /\ FlatEdge.NodeID e = c.
Proof.
  unfold findChildGeneral.
  destruct (index nodes i) as [n|] eqn:Hn; [|discriminate].
  cbn [mbind option_bind].
  destruct (FlatNode.EdgesLen n =? 0); [intros [= <- <-]; discriminate|].
  destruct (window edges _ _) as [w|] eqn:Hw; [|discriminate].
  cbn [mbind option_bind]. cbv zeta.
  destruct (w !! Z.to_nat _) as [e|] eqn:He;
    [|intros [= <- <-]; discriminate].
  destruct (_ && _) eqn:Hc; intros [= <- <-]; [intros _|discriminate].
  apply andb_true_iff in Hc as [_ Hc%Z.eqb_eq].
  exists n, w, e. repeat split; try assumption.
  apply list_elem_of_lookup. eauto.
Qed.

Lemma findChildGeneral_total i char :
  0 <= i < Z.of_nat (length nodes) ->
  exists c b, findChildGeneral i char nodes edges = Some (c, b) /\
    (b = true -> 0 <= c < Z.of_nat (length nodes)).
Proof.
  intros Hi. destruct (index_Some nodes i Hi) as (n & Hn & _).
  destruct (index_lookup _ _ _ Hn) as [_ Hn'].
  destruct (wf_window_edges _ _ Hn') as [w Hw].
  assert (Hex : exists c b, findChildGeneral i char nodes edges = Some (c, b)).
  { unfold findChildGeneral. rewrite Hn. cbn [mbind option_bind].
    destruct (FlatNode.EdgesLen n =? 0); [eauto|]. rewrite Hw.
    cbn [mbind option_bind]. cbv zeta.
    destruct (w !! Z.to_nat _); [destruct (_ && _)|]; eauto. }
  destruct Hex as (c & b & Hfc). exists c, b. split; [assumption|].
  intros Hb.
  destruct (findChildGeneral_found _ _ _ _ Hfc Hb)
    as (n' & w' & e & _ & Hw' & He & _ & <-).
  apply (wf_edge_target _ _ _ Hwf). eapply window_subseteq; eassumption.
Qed.

Lemma walk_total chars : forall i,
  0 <= i < Z.of_nat (length nodes) ->
  exists c b, walk nodes edges i chars = Some (c, b) /\
    0 <= c < Z.of_nat (length nodes).
Proof.
  induction chars as [|char chars IH]; intros i Hi; cbn [walk]; [eauto|].
  destruct (findChildGeneral_total i char Hi) as (c & b & -> & Hc).
  cbn [mbind option_bind]. destruct b; [apply IH; auto|eauto].
Qed.

End WalkTotal.

(** ** The predictor: the best rule *)

Section Prediction.
Context `{GoRuntime} (a : MorphAnalyzer).

Lemma probe_elem rs k cs c :
  probe a rs k = Some cs ->
  c ∈ cs <->
  exists node ps, SuffixLen c = k /\ suffix_ends_at a rs k node /\
    payloadsOf (predictPayloads a) node = Some ps /\ Info c ∈ ps.
Proof.
  unfold probe, suffix_ends_at.
  destruct (Z.ltb_spec (Z.of_nat (length rs)) k) as [Hlt|Hle].
  { intros [= <-]. split; [intros []%elem_of_nil|].
    intros (? & ? & _ & [? _] & _). lia. }
  destruct (walk _ _ 0 _) as [[cur found]|] eqn:Hwalk; [|discriminate].
  cbn [mbind option_bind]. destruct found; cbn [negb].
  2:{ intros [= <-]. split; [intros []%elem_of_nil|].
      intros (? & ? & _ & [_ (? & [=] & _)] & _). }
  destruct (index _ cur) as [node|] eqn:Hnode; [|discriminate].
  cbn [mbind option_bind].
  destruct (FlatNode.IsFinal node) eqn:Hfin; cbn [negb].
  2:{ intros [= <-]. split; [intros []%elem_of_nil|].
      intros (? & ? & _ & [_ (? & [= <-] & Hn & Hf)] & _).
      rewrite Hnode in Hn. injection Hn as <-. congruence. }
  destruct (payloadsOf _ node) as [ps|] eqn:Hps; [|discriminate].
  cbn [mbind option_bind]. intros [= <-]. rewrite list_elem_of_In, in_map_iff.
  split.
  - intros (p & <- & Hp%list_elem_of_In). exists node, ps. cbn. eauto 10.
  - intros (node' & ps' & Hk & [_ (cur' & [= <-] & Hn & _)] & Hps' & Hin).
    rewrite Hnode in Hn. injection Hn as <-. rewrite Hps in Hps'.
    injection Hps' as <-. exists (Info c). split; [|by apply list_elem_of_In].
    destruct c; cbn in *; congruence.
Qed.

Lemma probe_total rs k :
  wf_graph (predictNodes a) (predictEdges a) (predictPayloads a) ->
  exists cs, probe a rs k = Some cs.
Proof.
  intros Hwf. unfold probe. destruct (_ <? _); [eauto|].
  destruct (walk_total _ _ _ Hwf (runes (string_of_runes
              (lastn (Z.to_nat k) rs))) 0) as (c & b & -> & Hc).
  { pose proof (wf_root _ _ _ Hwf). lia. }
  cbn [mbind option_bind]. destruct b; cbn [negb]; [|eauto].
  destruct (index_Some _ _ Hc) as (n & Hn & _). rewrite Hn.
  destruct (index_lookup _ _ _ Hn) as [_ Hn'].
  cbn [mbind option_bind]. destruct (FlatNode.IsFinal n); cbn [negb]; [|eauto].
  rewrite (wf_window_payloads _ _ _ Hwf _ _ Hn'). cbn. eauto.
Qed.

Lemma collectCandidates_inv word cands :
  collectCandidates a word = Some cands ->
  exists c5 c4 c3 c2 c1,
    probe a (runes word) 5 = Some c5 /\ probe a (runes word) 4 = Some c4 /\
    probe a (runes word) 3 = Some c3 /\ probe a (runes word) 2 = Some c2 /\
    probe a (runes word) 1 = Some c1 /\
    cands = c5 ++ c4 ++ c3 ++ c2 ++ c1.
Proof.
  unfold collectCandidates. cbn [foldM].
  destruct (probe a (runes word) 5) as [c5|]; [|discriminate].
  cbn [mbind option_bind].
  destruct (probe a (runes word) 4) as [c4|]; [|discriminate].
  cbn [mbind option_bind].
  destruct (probe a (runes word) 3) as [c3|]; [|discriminate].
  cbn [mbind option_bind].
  destruct (probe a (runes word) 2) as [c2|]; [|discriminate].
  cbn [mbind option_bind].
  destruct (probe a (runes word) 1) as [c1|]; [|discriminate].
  cbn [mbind option_bind]. intros [= <-].
  exists c5, c4, c3, c2, c1. cbn [app]. rewrite <- !app_assoc. auto 10.
Qed.

Lemma collectCandidates_total word :
  wf_graph (predictNodes a) (predictEdges a) (predictPayloads a) ->
  exists cands, collectCandidates a word = Some cands.
Proof.
  intros Hwf. unfold collectCandidates. cbn [foldM].
  destruct (probe_total (runes word) 5 Hwf) as [? ->].
  destruct (probe_total (runes word) 4 Hwf) as [? ->].
  destruct (probe_total (runes word) 3 Hwf) as [? ->].
  destruct (probe_total (runes word) 2 Hwf) as [? ->].
  destruct (probe_total (runes word) 1 Hwf) as [? ->].
  cbn. eauto.
Qed.

Lemma collectCandidates_elem word cands c :
  collectCandidates a word = Some cands ->
  c ∈ cands <->
  exists node ps, 1 <= SuffixLen c <= 5 /\
    suffix_ends_at a (runes word) (SuffixLen c) node /\
    payloadsOf (predictPayloads a) node = Some ps /\ Info c ∈ ps.
Proof.
  intros (c5 & c4 & c3 & c2 & c1 & H5 & H4 & H3 & H2 & H1 & ->)
    %collectCandidates_inv.
  rewrite !elem_of_app.
  rewrite (probe_elem _ _ _ c H5), (probe_elem _ _ _ c H4),
    (probe_elem _ _ _ c H3), (probe_elem _ _ _ c H2), (probe_elem _ _ _ c H1).
  split.
  - intros [Hc|[Hc|[Hc|[Hc|Hc]]]];
      destruct Hc as (node & ps & Hk & Hs & Hp & Hi);
      exists node, ps; rewrite Hk; (split; [lia|auto]).
  - intros (node & ps & Hk & Hs & Hp & Hi).
    assert (Hcase : SuffixLen c = 5 \/ SuffixLen c = 4 \/ SuffixLen c = 3 \/
                    SuffixLen c = 2 \/ SuffixLen c = 1) by lia.
    destruct Hcase as [E|[E|[E|[E|E]]]]; rewrite E in Hs;
      [left|right; left|do 2 right; left|do 3 right; left|do 4 right];
      exists node, ps; auto.
Qed.

End Prediction.

Lemma lessCandidate_StrictWeak : StrictWeak lessCandidate.
Proof.
  unfold lessCandidate. split.
  - intros x y.
    destruct (Z.eqb_spec (SuffixLen x) (SuffixLen y)),
      (Z.eqb_spec (SuffixLen y) (SuffixLen x)); cbn [negb]; lia.
  - intros x y z.
    destruct (Z.eqb_spec (SuffixLen y) (SuffixLen x)),
      (Z.eqb_spec (SuffixLen z) (SuffixLen y)),
      (Z.eqb_spec (SuffixLen z) (SuffixLen x)); cbn [negb]; lia.
Qed.

Lemma lessCandidate_false c d :
  lessCandidate c d = false <-> at_least_as_good d c.
Proof.
  unfold lessCandidate, at_least_as_good.
  destruct (Z.eqb_spec (SuffixLen c) (SuffixLen d)); cbn [negb]; lia.
Qed.

(** The head of a sorted slice is not after any element. *)
Lemma sort_Slice_head `{GoRuntime} {A} (less : A -> A -> bool) l :
  StrictWeak less -> l <> [] ->
  exists best, head (sort_Slice less l) = Some best /\ best ∈ l /\
    forall x, x ∈ l -> less x best = false.
Proof.
  intros Hsw Hne. pose proof (sort_Slice_perm A less l) as Hp.
  pose proof (sort_Slice_sorted A less l Hsw) as Hs.
  destruct (sort_Slice less l) as [|best rest].
  { apply Permutation_nil_l in Hp. congruence. }
  exists best. split; [reflexivity|]. split.
  - rewrite <- Hp. left.
  - intros x Hx. rewrite <- Hp in Hx. apply elem_of_cons in Hx as [->|Hx].
    + destruct Hsw as [Hasym _].
      destruct (less best best) eqn:E; [|reflexivity].
      rewrite (Hasym _ _ E) in E. discriminate.
    + inversion Hs as [|? ? _ Hall]; subst. rewrite List.Forall_forall in Hall.
      apply Hall, list_elem_of_In, Hx.
Qed.

Lemma drop_take_nonempty {P} (payloads : list P) (n : FlatNode.t) :
  0 <= FlatNode.PayloadIdx n /\ 0 <= FlatNode.PayloadLen n /\
  FlatNode.PayloadIdx n + FlatNode.PayloadLen n
    <= Z.of_nat (length payloads) ->
  0 < FlatNode.PayloadLen n ->
  exists p, p ∈ take (Z.to_nat (FlatNode.PayloadLen n))
                 (drop (Z.to_nat (FlatNode.PayloadIdx n)) payloads).
Proof.
  intros (Hi & Hl & Hb) Hpos.
  destruct (take (Z.to_nat (FlatNode.PayloadLen n))
              (drop (Z.to_nat (FlatNode.PayloadIdx n)) payloads))
    as [|p l] eqn:E.
  - apply (f_equal length) in E. rewrite length_take, length_drop in E.
    cbn in E. lia.
  - exists p. left.
Qed.

Lemma wf_graphb_sound {P} nodes edges (payloads : list P) :
  wf_graphb nodes edges payloads = true -> wf_graph nodes edges payloads.
Proof.
  unfold wf_graphb. rewrite !andb_true_iff, !forallb_forall.
  intros ((((Hroot & He) & Hp) & Hn) & Ht).
  assert (Hnode : forall i n, nodes !! i = Some n ->
            node_okb (length edges) (length payloads) n = true).
  { intros i n Hi. apply Hn, list_elem_of_In, list_elem_of_lookup. eauto. }
  split.
  - apply Z.ltb_lt in Hroot. lia.
  - apply Z.ltb_lt, He.
  - apply Z.ltb_lt, Hp.
  - intros i n Hi. specialize (Hnode i n Hi). unfold node_okb in Hnode.
    rewrite !andb_true_iff, !Z.leb_le in Hnode. lia.
  - intros i n Hi. specialize (Hnode i n Hi). unfold node_okb in Hnode.
    rewrite !andb_true_iff, !Z.leb_le in Hnode. lia.
  - intros e He'. apply list_elem_of_In, Ht in He'.
    rewrite andb_true_iff, Z.leb_le, Z.ltb_lt in He'. assumption.
Qed.

Lemma final_has_payloadb_sound nodes :
  final_has_payloadb nodes = true -> final_has_payload nodes.
Proof.
  unfold final_has_payloadb. rewrite forallb_forall. intros Hall i n Hi Hf.
  assert (Hn : In n nodes)
    by (apply list_elem_of_In, list_elem_of_lookup; eauto).
  apply Hall in Hn. rewrite Hf in Hn. apply Z.ltb_lt, Hn.
Qed.

(** C5.  On a well-formed prediction graph whose final nodes carry a
    payload, [findBestPrediction] returns.  The candidates it collects are
    exactly the [PredictInfo] entries at the final node that the suffix of
    [k] characters of the word reaches, paired with [k], for [k] from 5 down
    to 1 and not larger than the number of characters of the word.  The
    result is a candidate that no candidate beats in the order (longer
    suffix, then higher frequency), and it is [nil] exactly when no probed
    suffix ends at a final node. *)
Theorem findBestPrediction_spec `{GoRuntime} (a : MorphAnalyzer)
    (word : string) :
  wf_graph (predictNodes a) (predictEdges a) (predictPayloads a) ->
  final_has_payload (predictNodes a) ->
  exists candidates result,
    collectCandidates a word = Some candidates /\
    findBestPrediction a word = Some result /\
    (forall c, c ∈ candidates <->
       exists node ps, 1 <= SuffixLen c <= 5 /\
         suffix_ends_at a (runes word) (SuffixLen c) node /\
         payloadsOf (predictPayloads a) node = Some ps /\ Info c ∈ ps) /\
    (forall best, result = Some best ->
       best ∈ candidates /\
       forall c, c ∈ candidates -> at_least_as_good best c) /\
    (result = None <->
       forall k node, 1 <= k <= 5 -> ~ suffix_ends_at a (runes word) k node).
Proof.
  intros Hwf Hfin.
  destruct (collectCandidates_total a word Hwf) as [cands Hc].
  assert (Hres : exists result, findBestPrediction a word = Some result /\
            (result = None <-> cands = []) /\
            (forall best, result = Some best ->
               best ∈ cands /\ forall c, c ∈ cands -> at_least_as_good best c)).
  { unfold findBestPrediction. rewrite Hc. cbn [mbind option_bind].
    destruct cands as [|c0 cands'] eqn:Ec.
    - exists None. cbn. repeat split; congruence.
    - rewrite <- Ec. replace (Z.of_nat (length cands) =? 0) with false
        by (subst cands; cbn [length]; symmetry; apply Z.eqb_neq; lia).
      destruct (sort_Slice_head lessCandidate cands lessCandidate_StrictWeak)
        as (best & Hhead & Hin & Hbest); [congruence|].
      exists (Some best). rewrite Hhead. split; [reflexivity|]. split.
      + split; [discriminate|congruence].
      + intros ? [= <-]. split; [assumption|].
        intros c Hcin. apply lessCandidate_false, Hbest, Hcin. }
  destruct Hres as (result & Hfb & Hnone & Hbest).
  exists cands, result. split; [assumption|]. split; [assumption|].
  split; [intros c; apply collectCandidates_elem; assumption|].
  split; [assumption|]. rewrite Hnone. split.
  - intros -> k node Hk Hs.
    destruct Hs as [Hlen (cur & Hw & Hn & Hf)].
    destruct (index_lookup _ _ _ Hn) as [_ Hn'].
    pose proof (wf_window_payloads _ _ _ Hwf _ _ Hn') as Hps.
    pose proof (Hfin _ _ Hn' Hf) as Hpos.
    destruct (drop_take_nonempty (predictPayloads a) node) as [p Hp];
      [eapply wf_payload_window; eassumption|assumption|].
    assert (Hin : mkCandidate p k ∈ @nil PredictionCandidate).
    { apply (collectCandidates_elem a word [] (mkCandidate p k) Hc).
      eexists node, _. cbn. split; [lia|].
      split; [|split; [exact Hps|exact Hp]].
      split; [assumption|]. eauto. }
    apply elem_of_nil in Hin. assumption.
  - intros Hno. destruct cands as [|c cands']; [reflexivity|]. exfalso.
    assert (Hin : c ∈ c :: cands') by left.
    apply (collectCandidates_elem a word _ c Hc) in Hin
      as (node & ps & Hk & Hs & _). exact (Hno _ _ Hk Hs).
Qed.

(** C5 on the small lexicon, for the unknown word [qzb]. *)
Lemma findBestPrediction_spec_witness :
  wf_graph (predictNodes demo) (predictEdges demo) (predictPayloads demo) /\
  final_has_payload (predictNodes demo) /\
  exists candidates result,
    collectCandidates demo "qzb" = Some candidates /\
    findBestPrediction demo "qzb" = Some result /\
    (forall c, c ∈ candidates <->
       exists node ps, 1 <= SuffixLen c <= 5 /\
         suffix_ends_at demo (runes "qzb") (SuffixLen c) node /\
         payloadsOf (predictPayloads demo) node = Some ps /\ Info c ∈ ps) /\
    (forall best, result = Some best ->
       best ∈ candidates /\
       forall c, c ∈ candidates -> at_least_as_good best c) /\
    (result = None <->
       forall k node, 1 <= k <= 5 ->
         ~ suffix_ends_at demo (runes "qzb") k node).
Proof.
  pose (Hwf := wf_graphb_sound (predictNodes demo) (predictEdges demo)
                 (predictPayloads demo) eq_refl).
  pose (Hfin := final_has_payloadb_sound (predictNodes demo) eq_refl).
  exact (conj Hwf (conj Hfin (findBestPrediction_spec demo "qzb" Hwf Hfin))).
Defined.

(** ** Well-formed lexicons: the depth-first generation returns *)

Lemma in_range_spec lo hi x : in_range lo hi x = true <-> lo <= x <= hi.
Proof. unfold in_range. rewrite andb_true_iff, !Z.leb_le. tauto. Qed.

Lemma decreasingb_sound rank nodes edges :
  decreasingb rank nodes edges = true -> decreasing rank nodes edges.
Proof.
  unfold decreasingb, decreasing. rewrite andb_true_iff, !forallb_forall.
  intros [Hbound Hall]. split.
  - intros i Hi. apply Nat.ltb_lt, Hbound, in_seq. lia.
  - intros i n w e Hn Hw He.
    specialize (Hall (i, n)). cbn in Hall. rewrite Hw in Hall.
    rewrite forallb_forall in Hall.
    assert (Hin : In (i, n) (imap pair nodes)).
    { apply list_elem_of_In, elem_of_lookup_imap. eauto. }
    specialize (Hall Hin e ltac:(by apply list_elem_of_In)).
    apply Nat.ltb_lt in Hall. lia.
Qed.

Lemma wf_lexiconb_sound rank a :
  wf_lexiconb rank a = true -> wf_lexicon a.
Proof.
  unfold wf_lexiconb. rewrite !andb_true_iff, !forallb_forall.
  intros ((((((Hm & Hp) & Hd) & Hpools) & Hrules) & Hanch) & Hlem).
  split.
  - apply wf_graphb_sound, Hm.
  - apply wf_graphb_sound, Hp.
  - exists rank. apply decreasingb_sound, Hd.
  - intros m Hin%list_elem_of_In%Hpools.
    rewrite andb_true_iff, !in_range_spec in Hin. lia.
  - intros p Hin%list_elem_of_In%Hrules.
    rewrite andb_true_iff, in_range_spec, Z.leb_le in Hin. lia.
  - intros pID infos pInfo Hl Hin.
    specialize (Hanch (pID, infos)). cbn in Hanch.
    rewrite forallb_forall in Hanch.
    assert (Hx : In (pID, infos) (map_to_list (paradigms a)))
      by (apply list_elem_of_In, elem_of_map_to_list, Hl).
    specialize (Hanch Hx pInfo ltac:(by apply list_elem_of_In)).
    rewrite in_range_spec in Hanch. lia.
  - intros pID lemmaID Hl. specialize (Hlem (pID, lemmaID)). cbn in Hlem.
    assert (Hx : In (pID, lemmaID) (map_to_list (paradigmToLemmaID a)))
      by (apply list_elem_of_In, elem_of_map_to_list, Hl).
    specialize (Hlem Hx). rewrite in_range_spec in Hlem. lia.
Qed.

Lemma foldM_total {A B} (f : B -> A -> option B) l :
  (forall b x, x ∈ l -> is_Some (f b x)) -> forall b, is_Some (foldM f b l).
Proof.
  induction l as [|x l IH]; intros Hf b; cbn [foldM]; [eauto|].
  destruct (Hf b x ltac:(left)) as [b' ->]. cbn [mbind option_bind].
  apply IH. intros b0 y Hy. apply Hf. right. assumption.
Qed.

Section Generation.
Context `{GoRuntime} (a : MorphAnalyzer) (Hwf : wf_lexicon a).

Lemma findWord_total rank :
  decreasing rank (nodes a) (edges a) ->
  forall fuel prefix targetID i suffix results,
    0 <= i < Z.of_nat (length (nodes a)) ->
    (rank i < fuel)%nat ->
    is_Some (findWord a fuel prefix targetID i suffix results).
Proof.
  intros [_ Hdec]. induction fuel as [|fuel IH];
    intros prefix targetID i suffix results Hi Hrank; [lia|].
  cbn [findWord]. destruct (index_Some _ _ Hi) as (n & Hn & _). rewrite Hn.
  destruct (index_lookup _ _ _ Hn) as [_ Hn'].
  cbn [mbind option_bind].
  rewrite (wf_window_payloads _ _ _ (wf_main _ Hwf) _ _ Hn').
  destruct (wf_window_edges _ _ _ (wf_main _ Hwf) _ _ Hn') as [w Hw].
  rewrite Hw.
  destruct (FlatNode.IsFinal n); cbn [mbind option_bind];
    apply foldM_total; intros b e He; apply IH.
  all: try (apply (wf_edge_target _ _ _ (wf_main _ Hwf));
            eapply window_subseteq; eassumption).
  all: pose proof (Hdec _ _ _ _ Hn' Hw He) as Hlt;
    rewrite Z2Nat.id in Hlt by lia; lia.
Qed.

Lemma dfsGenerate_total nodeIndex prefix targetID results :
  0 <= nodeIndex < Z.of_nat (length (nodes a)) ->
  is_Some (dfsGenerate a nodeIndex prefix targetID results).
Proof.
  intros Hi. destruct (wf_acyclic _ Hwf) as [rank Hdec].
  apply (findWord_total rank Hdec); [assumption|].
  destruct Hdec as [Hbound _]. specialize (Hbound (Z.to_nat nodeIndex)).
  rewrite Z2Nat.id in Hbound by lia. apply Hbound. lia.
Qed.

Lemma generateAll_total pID infos results :
  paradigms a !! pID = Some infos ->
  is_Some (generateAll a pID infos results).
Proof.
  intros Hp. unfold generateAll. apply foldM_total.
  intros b pInfo Hin. apply dfsGenerate_total.
  eapply wf_anchors; eassumption.
Qed.

Lemma getFormsByParadigmID_total pID :
  is_Some (getFormsByParadigmID a pID).
Proof.
  unfold getFormsByParadigmID.
  destruct (paradigms a !! pID) as [infos|] eqn:Hp; [|eauto].
  destruct (generateAll_total pID infos ∅ Hp) as [m ->].
  cbn [mbind option_bind]. destruct (_ =? _); eauto.
Qed.

End Generation.

(** ** The predictor: the predicted parse *)

Lemma newParsed_keeps word lemma tagString :
  Word (newParsed word lemma tagString) = word /\
  Lemma_ (newParsed word lemma tagString) = lemma /\
  Tags (newParsed word lemma tagString) = tagString.
Proof.
  unfold newParsed.
  destruct (fold_dispatch_keeps (Split_comma tagString)
    (match Split_comma tagString with
     | [] => mkParsed word lemma tagString "" "" "" "" "" "" "" "" "" "" "" ∅
     | g0 :: _ =>
       if inMap g0 posTags
       then set_PartOfSpeech g0
              (mkParsed word lemma tagString "" "" "" "" "" "" "" "" "" "" "" ∅)
       else mkParsed word lemma tagString "" "" "" "" "" "" "" "" "" "" "" ∅
     end)) as (-> & -> & -> & _).
  destruct (Split_comma tagString) as [|g0 ?]; [easy|].
  destruct (inMap g0 posTags); easy.
Qed.

Lemma slice_lastn {A} (l : list A) k :
  0 <= k <= Z.of_nat (length l) ->
  slice l (Z.of_nat (length l) - k) (Z.of_nat (length l))
  = Some (lastn (Z.to_nat k) l).
Proof.
  intros Hk. unfold slice, lastn.
  destruct (Z.leb_spec 0 (Z.of_nat (length l) - k)); [|lia].
  destruct (Z.leb_spec (Z.of_nat (length l) - k) (Z.of_nat (length l)));
    [|lia].
  rewrite Z.leb_refl. cbn. f_equal.
  replace (Z.to_nat (Z.of_nat (length l) - k))
    with (length l - Z.to_nat k)%nat by lia.
  apply take_ge. rewrite length_drop. lia.
Qed.

Section Predicted.
Context `{GoRuntime} (a : MorphAnalyzer).

Lemma findBestPrediction_rule word best :
  findBestPrediction a word = Some (Some best) ->
  1 <= SuffixLen best <= 5 /\
  SuffixLen best <= Z.of_nat (length (runes word)) /\
  Info best ∈ predictPayloads a.
Proof.
  unfold findBestPrediction.
  destruct (collectCandidates a word) as [cands|] eqn:Hc; [|discriminate].
  cbn [mbind option_bind]. destruct (_ =? 0); [discriminate|].
  intros [= Hhead]. apply head_Some_elem_of in Hhead.
  rewrite (sort_Slice_perm _ lessCandidate cands) in Hhead.
  apply (collectCandidates_elem a word cands best Hc) in Hhead
    as (node & ps & Hk & [Hlen _] & Hps & Hin).
  repeat split; try lia. eapply window_subseteq; eassumption.
Qed.

Lemma predictLemma_total lowerWord best forms :
  wf_lexicon a ->
  findBestPrediction a lowerWord = Some (Some best) ->
  exists lemma, predictLemma a lowerWord best forms = Some lemma /\
    (unsafe_substitution a lowerWord best forms -> lemma = lowerWord).
Proof.
  intros Hwf (Hk & Hlen & Hin)%findBestPrediction_rule.
  destruct (wf_rules _ Hwf _ Hin) as [_ Hform].
  unfold predictLemma, unsafe_substitution.
  destruct (paradigmToLemmaID a !! _) as [lemmaID|] eqn:Hlid; [|eauto].
  destruct (Z.eqb_spec (Z.of_nat (length forms)) 0) as [Hz|Hnz];
    cbn [orb]; [eauto|].
  destruct (Z.leb_spec (Z.of_nat (length forms))
              (PredictInfo.FormIdx (Info best))) as [Hge|Hlt]; [eauto|].
  destruct (index_Some forms (PredictInfo.FormIdx (Info best)) ltac:(lia))
    as (tw & Htw & _). rewrite Htw. cbn [mbind option_bind].
  destruct (index_Some _ _ (wf_lemma_ids _ Hwf _ _ Hlid)) as (tl & Htl & _).
  rewrite Htl. cbn [mbind option_bind].
  destruct (Z.ltb_spec (Z.of_nat (length (runes tw))) (SuffixLen best))
    as [Hshort|Hlong]; [eauto|].
  rewrite slice_lastn by lia. cbn [mbind option_bind]. cbv zeta.
  set (commonSuffix := string_of_runes _).
  destruct (HasSuffix tw commonSuffix) eqn:Hsuf; cbn [negb]; [|eauto].
  destruct (HasPrefix tl (TrimSuffix tw commonSuffix)) eqn:Hpre;
    cbn [negb]; [|eauto].
  eexists. split; [reflexivity|].
  intros [->|[Hge|(tw' & Htw' & [Hs|[Hs|(lid' & tl' & Hl1 & Hl2 & Hl3)]])]].
  - cbn in Hnz. lia.
  - lia.
  - simplify_eq. lia.
  - simplify_eq. congruence.
  - simplify_eq. congruence.
Qed.

Lemma ParsePredicted_returns word best :
  wf_lexicon a ->
  findBestPrediction a (ToLower word) = Some (Some best) ->
  exists forms lemma tags,
    getFormsByParadigmID a (PredictInfo.ParadigmID (Info best)) = Some forms /\
    predictLemma a (ToLower word) best forms = Some lemma /\
    (unsafe_substitution a (ToLower word) best forms ->
     lemma = ToLower word) /\
    index (tagsPool a) (PredictInfo.TagsID (Info best)) = Some tags /\
    ParsePredicted a word = Some [newParsed word lemma tags].
Proof.
  intros Hwf Hbest.
  destruct (getFormsByParadigmID_total a Hwf
              (PredictInfo.ParadigmID (Info best))) as [forms Hforms].
  destruct (predictLemma_total _ best forms Hwf Hbest) as (lemma & Hl & Hu).
  pose proof (findBestPrediction_rule _ _ Hbest) as (_ & _ & Hin).
  destruct (wf_rules _ Hwf _ Hin) as [Htags _].
  destruct (index_Some _ _ Htags) as (tags & Ht & _).
  exists forms, lemma, tags. repeat split; try assumption.
  unfold ParsePredicted. cbv zeta. rewrite Hbest. cbn [mbind option_bind].
  rewrite Hforms. cbn [mbind option_bind]. rewrite Hl.
  cbn [mbind option_bind]. rewrite Ht. reflexivity.
Qed.

End Predicted.

(** C9.  On a well-formed lexicon, whenever [findBestPrediction] yields a
    winning rule, [ParsePredicted] returns exactly one parse and its tag
    string is [tagsPool[TagsID]] of that rule, whichever branch computes the
    lemma. *)
Theorem ParsePredicted_tags `{GoRuntime} (a : MorphAnalyzer) (word : string)
    (best : PredictionCandidate) :
  wf_lexicon a ->
  findBestPrediction a (ToLower word) = Some (Some best) ->
  exists p, ParsePredicted a word = Some [p] /\
    index (tagsPool a) (PredictInfo.TagsID (Info best)) = Some (Tags p).
Proof.
  intros Hwf Hbest.
  destruct (ParsePredicted_returns a word best Hwf Hbest)
    as (forms & lemma & tags & _ & _ & _ & Ht & Hp).
  eexists. split; [exact Hp|].
  destruct (newParsed_keeps word lemma tags) as (_ & _ & ->). exact Ht.
Qed.

(** C3, as amended.  On a well-formed lexicon, whenever
    [findBestPrediction] yields a winning rule but the analogical
    substitution is unsafe, [ParsePredicted] returns exactly one parse, for
    the input word, whose lemma is the lower-cased input word. *)
Theorem ParsePredicted_fallback `{GoRuntime} (a : MorphAnalyzer)
    (word : string) (best : PredictionCandidate) (forms : list string) :
  wf_lexicon a ->
  findBestPrediction a (ToLower word) = Some (Some best) ->
  getFormsByParadigmID a (PredictInfo.ParadigmID (Info best)) = Some forms ->
  unsafe_substitution a (ToLower word) best forms ->
  exists p, ParsePredicted a word = Some [p] /\
    Word p = word /\ Lemma_ p = ToLower word.
Proof.
  intros Hwf Hbest Hforms Hunsafe.
  destruct (ParsePredicted_returns a word best Hwf Hbest)
    as (forms' & lemma & tags & Hf & _ & Hu & _ & Hp).
  rewrite Hforms in Hf. injection Hf as <-.
  eexists. split; [exact Hp|].
  destruct (newParsed_keeps word lemma tags) as (-> & -> & _).
  split; [reflexivity|]. apply Hu, Hunsafe.
Qed.

(** The small lexicon is well formed; node [i] has height [3 - i]. *)
Lemma demo_wf : wf_lexicon demo.
Proof.
  apply (wf_lexiconb_sound (fun i => Z.to_nat (3 - i))).
  vm_compute. reflexivity.
Qed.

(** C9 on the small lexicon, for the unknown word [QZB]. *)
Lemma ParsePredicted_tags_witness :
  wf_lexicon demo /\
  findBestPrediction demo (ToLower "QZB") = Some (Some demo_rule) /\
  exists p, ParsePredicted demo "QZB" = Some [p] /\
    index (tagsPool demo) (PredictInfo.TagsID (Info demo_rule))
    = Some (Tags p).
Proof.
  split; [exact demo_wf|]. split; [vm_compute; reflexivity|].
  apply (ParsePredicted_tags demo "QZB" demo_rule demo_wf).
  vm_compute. reflexivity.
Defined.

Lemma demo_unsafe :
  unsafe_substitution demo (ToLower "QZB") demo_rule ["ab"; "abc"].
Proof.
  right. right. exists "abc". split; [reflexivity|].
  right. left. vm_compute. reflexivity.
Qed.

(** C3, as amended, on the small lexicon: the template word [abc] does not
    end with the suffix [zb] of [qzb]. *)
Lemma ParsePredicted_fallback_witness :
  wf_lexicon demo /\
  findBestPrediction demo (ToLower "QZB") = Some (Some demo_rule) /\
  getFormsByParadigmID demo (PredictInfo.ParadigmID (Info demo_rule))
  = Some ["ab"; "abc"] /\
  unsafe_substitution demo (ToLower "QZB") demo_rule ["ab"; "abc"] /\
  exists p, ParsePredicted demo "QZB" = Some [p] /\
    Word p = "QZB" /\ Lemma_ p = ToLower "QZB".
Proof.
  split; [exact demo_wf|]. split; [vm_compute; reflexivity|].
  split; [vm_compute; reflexivity|]. split; [exact demo_unsafe|].
  apply (ParsePredicted_fallback demo "QZB" demo_rule ["ab"; "abc"] demo_wf).
  - vm_compute. reflexivity.
  - vm_compute. reflexivity.
  - exact demo_unsafe.
Defined.

(** C3, as stated, fails on the word [QZB]: the fallback lemma is [qzb],
    not the input word. *)
Lemma ParsePredicted_fallback_counterexample :
  ~ (forall (rt : GoRuntime) (a : MorphAnalyzer) (word : string)
       (best : PredictionCandidate) (forms : list string),
       wf_lexicon a ->
       findBestPrediction a (ToLower word) = Some (Some best) ->
       getFormsByParadigmID a (PredictInfo.ParadigmID (Info best))
       = Some forms ->
       unsafe_substitution a (ToLower word) best forms ->
       exists p, ParsePredicted a word = Some [p] /\ Lemma_ p = word).
Proof.
  intros Hclaim.
  destruct (Hclaim refRuntime demo "QZB" demo_rule ["ab"; "abc"] demo_wf)
    as (p & Hp & Hlemma).
  - vm_compute. reflexivity.
  - vm_compute. reflexivity.
  - exact demo_unsafe.
  - assert (Hl : map Lemma_ <$> ParsePredicted demo "QZB" = Some ["qzb"])
      by (vm_compute; reflexivity).
    rewrite Hp in Hl. cbn in Hl. rewrite Hlemma in Hl. discriminate.
Qed.

(** ** Dictionary lookup and letter case *)

Lemma dispatch_set_Word w p g :
  dispatch (set_Word w p) g = set_Word w (dispatch p g).
Proof.
  unfold dispatch. cbn [PartOfSpeech set_Word].
  destruct (String.eqb g (PartOfSpeech p)); [reflexivity|].
  abstract_tests g; reflexivity.
Qed.

Lemma fold_dispatch_set_Word w toks p :
  fold_left dispatch toks (set_Word w p)
  = set_Word w (fold_left dispatch toks p).
Proof.
  revert p. induction toks as [|g toks IH]; intros p; [reflexivity|].
  cbn [fold_left]. rewrite dispatch_set_Word. apply IH.
Qed.

Lemma newParsed_set_Word w w' lemma tags :
  newParsed w lemma tags = set_Word w (newParsed w' lemma tags).
Proof.
  unfold newParsed. rewrite <- fold_dispatch_set_Word. f_equal.
  destruct (Split_comma tags) as [|g0 ?]; [reflexivity|].
  destruct (inMap g0 posTags); reflexivity.
Qed.

Lemma Parse_same_lower `{GoRuntime} (a : MorphAnalyzer) (w1 w2 : string) :
  ToLower w1 = ToLower w2 ->
  Parse a w1 = map (set_Word w1) <$> Parse a w2.
Proof.
  intros Hlow. unfold Parse. cbv zeta. rewrite Hlow.
  destruct (walk _ _ 0 _) as [[cur found]|]; [|reflexivity].
  cbn [mbind option_bind]. destruct found; cbn [negb]; [|reflexivity].
  destruct (index _ cur) as [node|]; [|reflexivity].
  cbn [mbind option_bind].
  destruct (FlatNode.IsFinal node); cbn [negb]; [|reflexivity].
  destruct (payloadsOf _ node) as [infos|]; [|reflexivity].
  cbn [mbind option_bind].
  induction infos as [|info infos IH]; [reflexivity|].
  cbn [mapM]. destruct (index (LemmaPool a) _) as [lemma|]; [|reflexivity].
  cbn [mbind option_bind].
  destruct (index (tagsPool a) _) as [tags|]; [|reflexivity].
  cbn [mbind option_bind]. rewrite IH. clear IH.
  destruct (mapM _ infos) as [ps|]; [|reflexivity].
  cbn. rewrite (newParsed_set_Word w1 w2). reflexivity.
Qed.

(** C4, as amended.  For a word whose lower-casing is stable
    ([lower(lower(w)) = lower(w)], [lower(upper(w)) = lower(w)]),
    [Parse(w)], [Parse(lower(w))] and [Parse(upper(w))] are the same list of
    parses up to the [Word] field, which carries the input verbatim. *)
Theorem Parse_case_insensitive `{GoRuntime} (a : MorphAnalyzer) (w : string) :
  ToLower (ToLower w) = ToLower w ->
  ToLower (ToUpper w) = ToLower w ->
  Parse a w = map (set_Word w) <$> Parse a (ToLower w) /\
  Parse a (ToUpper w) = map (set_Word (ToUpper w)) <$> Parse a (ToLower w).
Proof.
  intros Hll Hlu. split; apply Parse_same_lower; congruence.
Qed.

(** C4, as amended, on the small lexicon for the word [Ab]. *)
Lemma Parse_case_insensitive_witness :
  ToLower (ToLower "Ab") = ToLower "Ab" /\
  ToLower (ToUpper "Ab") = ToLower "Ab" /\
  Parse demo "Ab" = map (set_Word "Ab") <$> Parse demo (ToLower "Ab") /\
  Parse demo (ToUpper "Ab")
  = map (set_Word (ToUpper "Ab")) <$> Parse demo (ToLower "Ab").
Proof.
  split; [vm_compute; reflexivity|]. split; [vm_compute; reflexivity|].
  apply (Parse_case_insensitive demo "Ab"); vm_compute; reflexivity.
Defined.

(** C4, as stated, fails on the word [AB]: its parses carry the word [AB],
    those of [lower(AB)] the word [ab]. *)
Lemma Parse_case_counterexample :
  ~ (forall (rt : GoRuntime) (a : MorphAnalyzer) (w : string) r1 r2,
       Parse a w = Some r1 -> Parse a (ToLower w) = Some r2 -> r1 ≡ₚ r2).
Proof.
  intros Hclaim.
  destruct (Parse demo "AB") as [r1|] eqn:H1;
    [|vm_compute in H1; discriminate].
  destruct (Parse demo (ToLower "AB")) as [r2|] eqn:H2;
    [|vm_compute in H2; discriminate].
  pose proof (Hclaim refRuntime demo "AB" r1 r2 H1 H2) as Hperm.
  assert (E1 : map Word <$> Parse demo "AB" = Some ["AB"; "AB"])
    by (vm_compute; reflexivity).
  assert (E2 : map Word <$> Parse demo (ToLower "AB") = Some ["ab"; "ab"])
    by (vm_compute; reflexivity).
  rewrite H1 in E1. rewrite H2 in E2. cbn in E1, E2.
  injection E1 as E1. injection E2 as E2.
  apply (Permutation_map Word) in Hperm. rewrite E1, E2 in Hperm.
  assert (Hin : "AB" ∈ ["ab"; "ab"]) by (rewrite <- Hperm; left).
  rewrite !elem_of_cons in Hin. destruct Hin as [?|[?|?%elem_of_nil]];
    [discriminate|discriminate|assumption].
Qed.

(** ** The order of strings *)

Lemma String_compare_OT s t : String.compare s t = String_as_OT.compare s t.
Proof.
  revert t. induction s as [|c s IH]; intros [|d t]; cbn; try reflexivity.
  all: change (Ascii.compare c d) with (Ascii_as_OT.compare c d);
    destruct (Ascii_as_OT.compare c d); auto.
Qed.

Lemma String_ltb_lt s t : String.ltb s t = true <-> String_as_OT.lt s t.
Proof.
  unfold String.ltb, String_as_OT.lt. rewrite String_compare_OT.
  destruct (String_as_OT.compare s t); split; congruence.
Qed.

Lemma String_ltb_irrefl s : String.ltb s s = false.
Proof.
  destruct (String.ltb s s) eqn:E; [|reflexivity].
  apply String_ltb_lt in E. exfalso. revert E. apply irreflexivity, _.
Qed.

Lemma String_ltb_trans s t u :
  String.ltb s t = true -> String.ltb t u = true -> String.ltb s u = true.
Proof.
  rewrite !String_ltb_lt. apply transitivity.
Qed.

Lemma String_ltb_total s t :
  s <> t -> String.ltb s t = true \/ String.ltb t s = true.
Proof.
  intros Hne. rewrite !String_ltb_lt.
  destruct (String_as_OT.compare_spec s t) as [Heq|Hlt|Hgt]; auto.
  contradiction.
Qed.

Lemma String_ltb_StrictWeak : StrictWeak String.ltb.
Proof.
  split.
  - intros x y Hxy. destruct (String.ltb y x) eqn:Hyx; [|reflexivity].
    pose proof (String_ltb_trans _ _ _ Hxy Hyx) as Hxx.
    rewrite String_ltb_irrefl in Hxx. discriminate.
  - intros x y z Hyx Hzy. destruct (String.ltb z x) eqn:Hzx; [|reflexivity].
    destruct (decide (x = y)) as [->|Hne]; [congruence|].
    destruct (String_ltb_total x y Hne) as [Hxy|Hyx']; [|congruence].
    rewrite (String_ltb_trans _ _ _ Hzx Hxy) in Hzy. discriminate.
Qed.

Lemma StrictWeak_on {A B} (f : A -> B) (less : B -> B -> bool) :
  StrictWeak less -> StrictWeak (fun x y => less (f x) (f y)).
Proof. intros [Ha Ht]. split; eauto. Qed.

Lemma lessWord_StrictWeak : StrictWeak lessWord.
Proof. apply (StrictWeak_on Word), String_ltb_StrictWeak. Qed.

(** A slice sorted by a key without repetition is strictly ascending. *)
Lemma sorted_strict {A} (key : A -> string) (l : list A) :
  StronglySorted (fun x y => String.ltb (key y) (key x) = false) l ->
  NoDup (map key l) ->
  StronglySorted (fun x y => String.ltb (key x) (key y) = true) l.
Proof.
  induction 1 as [|x l Hs IH Hall]; intros Hnd; [constructor|].
  cbn in Hnd. apply NoDup_cons in Hnd as [Hx Hnd].
  constructor; [auto|]. rewrite List.Forall_forall in *. intros y Hy.
  specialize (Hall y Hy).
  destruct (String_ltb_total (key x) (key y)) as [?|Hyx];
    [|assumption|congruence].
  intros Heq. apply Hx. rewrite Heq. apply list_elem_of_In, in_map, Hy.
Qed.

(** ** Paradigm expansion *)

Lemma foldM_ind {A B} (Q : B -> Prop) (f : B -> A -> option B) l :
  (forall b x b', x ∈ l -> f b x = Some b' -> Q b -> Q b') ->
  forall b r, foldM f b l = Some r -> Q b -> Q r.
Proof.
  induction l as [|x l IH]; intros Hstep b r; cbn [foldM].
  - intros [= <-]. auto.
  - destruct (f b x) as [b'|] eqn:Hf; [|discriminate].
    cbn [mbind option_bind]. intros Hr Hb.
    apply (IH (fun b0 y b1 Hy => Hstep b0 y b1 (list_elem_of_further _ _ _ Hy))
             b' r Hr).
    apply (Hstep b x b'); [left|assumption..].
Qed.

(** What the step at one element establishes, and the later steps keep,
    holds at the end. *)
Lemma foldM_reach {A B} (Q : B -> Prop) (f : B -> A -> option B) l x :
  x ∈ l ->
  (forall b b', f b x = Some b' -> Q b') ->
  (forall b y b', f b y = Some b' -> Q b -> Q b') ->
  forall b r, foldM f b l = Some r -> Q r.
Proof.
  intros Hx Hhit Hkeep. induction l as [|y l IH]; intros b r;
    [apply elem_of_nil in Hx; contradiction|].
  cbn [foldM]. destruct (f b y) as [b'|] eqn:Hf; [|discriminate].
  cbn [mbind option_bind]. intros Hr.
  apply elem_of_cons in Hx as [->|Hx].
  - apply (foldM_ind Q f l (fun b0 z b1 _ => Hkeep b0 z b1) b' r Hr).
    apply (Hhit b b' Hf).
  - apply (IH Hx b' r Hr).
Qed.

Lemma emitForms_lookup form targetID infos results k v :
  emitForms form targetID infos results !! k = Some v ->
  results !! k = Some v \/
  (k = form /\ exists info, info ∈ infos /\
     MorphInfo.ParadigmID info = targetID /\ MorphInfo.TagsID info = v).
Proof.
  unfold emitForms. revert results.
  induction infos as [|info infos IH]; intros results; cbn [fold_left];
    [auto|].
  intros [Hl|(-> & info' & Hin & Hp & Ht)]%IH.
  - destruct (Z.eqb_spec (MorphInfo.ParadigmID info) targetID) as [Hp|Hp];
      [|auto].
    apply lookup_insert_Some in Hl as [[<- <-]|[_ Hl]]; [|auto].
    right. split; [reflexivity|]. exists info. split; [left|auto].
  - right. split; [reflexivity|]. exists info'. split; [right|]; auto.
Qed.

Lemma emitForms_mono form targetID infos results k :
  is_Some (results !! k) ->
  is_Some (emitForms form targetID infos results !! k).
Proof.
  unfold emitForms. revert results.
  induction infos as [|info infos IH]; intros results Hk; cbn [fold_left];
    [assumption|].
  apply IH. destruct (_ =? _); [|assumption].
  rewrite lookup_insert_is_Some'. auto.
Qed.

Lemma emitForms_hit form targetID infos results info :
  info ∈ infos -> MorphInfo.ParadigmID info = targetID ->
  is_Some (emitForms form targetID infos results !! form).
Proof.
  unfold emitForms. revert results.
  induction infos as [|info' infos IH]; intros results Hin Hp;
    [apply elem_of_nil in Hin; contradiction|].
  cbn [fold_left]. apply elem_of_cons in Hin as [<-|Hin]; [|auto].
  apply Z.eqb_eq in Hp as ->.
  apply (emitForms_mono form targetID infos). rewrite lookup_insert_eq. eauto.
Qed.

Section Expansion.
Context `{GoRuntime} (a : MorphAnalyzer).

Lemma findWord_mono fuel : forall prefix targetID i suffix results r k,
  findWord a fuel prefix targetID i suffix results = Some r ->
  is_Some (results !! k) -> is_Some (r !! k).
Proof.
  induction fuel as [|fuel IH]; intros prefix targetID i suffix results r k;
    [discriminate|].
  cbn [findWord]. destruct (index (nodes a) i) as [n|]; [|discriminate].
  cbn [mbind option_bind].
  destruct (FlatNode.IsFinal n).
  - destruct (payloadsOf (payloads a) n) as [infos|]; [|discriminate].
    cbn [mbind option_bind].
    destruct (window (edges a) _ _) as [out|]; [|discriminate].
    cbn [mbind option_bind]. intros Hr Hk.
    apply (foldM_ind (fun b => is_Some (b !! k)) _ out
             (fun b e b' _ Hf => IH _ _ _ _ b b' k Hf) _ r Hr).
    apply emitForms_mono, Hk.
  - cbn [mbind option_bind].
    destruct (window (edges a) _ _) as [out|]; [|discriminate].
    cbn [mbind option_bind]. intros Hr Hk.
    apply (foldM_ind (fun b => is_Some (b !! k)) _ out
             (fun b e b' _ Hf => IH _ _ _ _ b b' k Hf) _ r Hr Hk).
Qed.

Lemma findWord_values fuel : forall prefix targetID i suffix results r,
  findWord a fuel prefix targetID i suffix results = Some r ->
  forall results0,
    from_payloads a results0 results -> from_payloads a results0 r.
Proof.
  induction fuel as [|fuel IH]; intros prefix targetID i suffix results r;
    [discriminate|].
  cbn [findWord]. destruct (index (nodes a) i) as [n|]; [|discriminate].
  cbn [mbind option_bind].
  destruct (FlatNode.IsFinal n).
  - destruct (payloadsOf (payloads a) n) as [infos|] eqn:Hp; [|discriminate].
    cbn [mbind option_bind].
    destruct (window (edges a) _ _) as [out|]; [|discriminate].
    cbn [mbind option_bind]. intros Hr results0 H0.
    apply (foldM_ind (from_payloads a results0) _ out
             (fun b e b' _ Hf => IH _ _ _ _ b b' Hf results0) _ r Hr).
    intros k v [Hl|(_ & info & Hin & _ & Ht)]%emitForms_lookup; [auto|].
    right. exists info. split; [|assumption].
    eapply window_subseteq; eassumption.
  - cbn [mbind option_bind].
    destruct (window (edges a) _ _) as [out|]; [|discriminate].
    cbn [mbind option_bind]. intros Hr results0 H0.
    apply (foldM_ind (from_payloads a results0) _ out
             (fun b e b' _ Hf => IH _ _ _ _ b b' Hf results0) _ r Hr H0).
Qed.

(** The generation emits the form of every final node below the start node
    that carries the target paradigm. *)
Lemma findWord_reach rest : forall fuel prefix targetID i suffix results r
    cur node infos info,
  findWord a fuel prefix targetID i suffix results = Some r ->
  walk (nodes a) (edges a) i rest = Some (cur, true) ->
  index (nodes a) cur = Some node ->
  FlatNode.IsFinal node = true ->
  payloadsOf (payloads a) node = Some infos ->
  info ∈ infos -> MorphInfo.ParadigmID info = targetID ->
  is_Some (r !! string_of_runes (prefix ++ suffix ++ rest)).
Proof.
  induction rest as [|c rest IH];
    intros fuel prefix targetID i suffix results r cur node infos info
      Hfw Hwalk Hnode Hfin Hps Hin Hpid.
  - cbn [walk] in Hwalk. injection Hwalk as <-.
    destruct fuel as [|fuel]; [discriminate|]. cbn [findWord] in Hfw.
    rewrite Hnode in Hfw. cbn [mbind option_bind] in Hfw.
    rewrite Hfin, Hps in Hfw. cbn [mbind option_bind] in Hfw.
    destruct (window (edges a) _ _) as [out|]; [|discriminate].
    cbn [mbind option_bind] in Hfw. rewrite app_nil_r.
    apply (foldM_ind (fun b => is_Some (b !! _)) _ out
             (fun b e b' _ Hf => findWord_mono _ _ _ _ _ b b' _ Hf) _ r Hfw).
    eapply emitForms_hit; eassumption.
  - cbn [walk] in Hwalk.
    destruct (findChildGeneral i c (nodes a) (edges a)) as [[child found]|]
      eqn:Hfc; [|discriminate].
    cbn [mbind option_bind] in Hwalk. destruct found; [|discriminate].
    destruct (findChildGeneral_found _ _ _ _ _ _ Hfc eq_refl)
      as (n & w & e & Hn & Hw & He & Hc & Hid).
    destruct fuel as [|fuel]; [discriminate|]. cbn [findWord] in Hfw.
    rewrite Hn in Hfw. cbn [mbind option_bind] in Hfw.
    destruct (if FlatNode.IsFinal n then _ else _) as [results'|];
      [|discriminate].
    cbn [mbind option_bind] in Hfw. rewrite Hw in Hfw.
    cbn [mbind option_bind] in Hfw.
    refine (foldM_reach
              (fun b => is_Some (b !! string_of_runes
                                        (prefix ++ suffix ++ c :: rest)))
              _ w e He _ _ _ r Hfw).
    + intros b b' Hf. rewrite Hid, Hc in Hf.
      replace (prefix ++ suffix ++ c :: rest)
        with (prefix ++ (suffix ++ [c]) ++ rest)
        by (rewrite <- (app_assoc suffix); reflexivity).
      eapply IH; eassumption.
    + intros b y b' Hf. eapply findWord_mono, Hf.
Qed.

End Expansion.

(** A loop that only adds keys: the keys at the end are the keys at the
    start and those that the steps add. *)
Lemma foldM_dom {A V} (f : gmap string V -> A -> option (gmap string V))
    (D : A -> string -> Prop) :
  (forall m x m', f m x = Some m' ->
     forall k, is_Some (m' !! k) <-> is_Some (m !! k) \/ D x k) ->
  forall l m r, foldM f m l = Some r ->
    forall k, is_Some (r !! k) <->
      is_Some (m !! k) \/ exists x, x ∈ l /\ D x k.
Proof.
  intros Hstep. induction l as [|x l IH]; intros m r; cbn [foldM].
  - intros [= <-] k. split; [auto|].
    intros [?|(? & Hx%elem_of_nil & _)]; [assumption|contradiction].
  - destruct (f m x) as [m'|] eqn:Hf; [|discriminate].
    cbn [mbind option_bind]. intros Hr k.
    rewrite (IH m' r Hr k), (Hstep m x m' Hf k). split.
    + intros [[?|?]|(y & Hy & HD)]; [auto|right..].
      * exists x. split; [left|assumption].
      * exists y. split; [right|]; assumption.
    + intros [?|(y & Hy & HD)]; [auto|].
      apply elem_of_cons in Hy as [->|Hy]; [auto|]. right. eauto.
Qed.

Section Inflection.
Context `{GoRuntime} (a : MorphAnalyzer).

Lemma addForm_dom lemma m entry m' :
  addForm a lemma m entry = Some m' ->
  forall k, is_Some (m' !! k) <-> is_Some (m !! k) \/ k = entry.1.
Proof.
  destruct entry as [form tagsID]. unfold addForm. cbn [fst].
  destruct (m !! form) as [p|] eqn:Hm.
  - intros [= <-] k. split; [auto|]. intros [?| ->]; [assumption|eauto].
  - destruct (index (tagsPool a) tagsID) as [tags|]; [|discriminate].
    cbn [mbind option_bind]. intros [= <-] k.
    rewrite lookup_insert_is_Some'. split; intros [?|?]; auto.
Qed.

Lemma addForm_keyed lemma m entry m' :
  addForm a lemma m entry = Some m' -> keyed m -> keyed m'.
Proof.
  destruct entry as [form tagsID]. unfold addForm.
  destruct (m !! form) as [p|] eqn:Hm; [intros [= <-]; auto|].
  destruct (index (tagsPool a) tagsID) as [tags|]; [|discriminate].
  cbn [mbind option_bind]. intros [= <-] Hk k p.
  intros [[<- <-]|[_ Hl]]%lookup_insert_Some; [|auto].
  apply newParsed_keeps.
Qed.

Lemma elem_of_map_range {K V} `{Countable K} (m : gmap K V) k v :
  (k, v) ∈ map_range m <-> m !! k = Some v.
Proof. rewrite (map_range_perm K V m). apply elem_of_map_to_list. Qed.

Lemma addStem_dom pID lemma m pInfo m' :
  addStem a pID lemma m pInfo = Some m' ->
  forall k, is_Some (m' !! k) <->
    is_Some (m !! k) \/
    exists generatedForms,
      dfsGenerate a (ParadigmInfo.NodeID pInfo)
        (runes (ParadigmInfo.Stem pInfo)) pID ∅ = Some generatedForms /\
      is_Some (generatedForms !! k).
Proof.
  unfold addStem. destruct (dfsGenerate a _ _ pID ∅) as [gen|];
    [|discriminate].
  cbn [mbind option_bind]. intros Hf k.
  rewrite (foldM_dom (addForm a lemma) (fun e k => k = e.1)
             (addForm_dom lemma) _ _ _ Hf k).
  split; (intros [?|Hr]; [auto|right]).
  - destruct Hr as ([form t] & Hin%elem_of_map_range & ->).
    exists gen. split; [reflexivity|]. cbn. eauto.
  - destruct Hr as (gen' & [= <-] & [t Ht]).
    exists (k, t). split; [apply elem_of_map_range, Ht|reflexivity].
Qed.

Lemma addStem_keyed pID lemma m pInfo m' :
  addStem a pID lemma m pInfo = Some m' -> keyed m -> keyed m'.
Proof.
  unfold addStem. destruct (dfsGenerate a _ _ pID ∅) as [gen|];
    [|discriminate].
  cbn [mbind option_bind].
  apply foldM_ind. intros b x b' _. apply addForm_keyed.
Qed.

Lemma addParadigm_dom m entry m' :
  addParadigm a m entry = Some m' ->
  forall k, is_Some (m' !! k) <->
    is_Some (m !! k) \/ generates a entry.1 k.
Proof.
  destruct entry as [pID lemma]. unfold addParadigm, generates. cbn [fst].
  destruct (paradigms a !! pID) as [stems|].
  - intros Hf k.
    rewrite (foldM_dom (addStem a pID lemma) _ (addStem_dom pID lemma)
               _ _ _ Hf k).
    split; (intros [?|Hr]; [auto|right]).
    + destruct Hr as (pInfo & Hin & gen & Hg & Hk). eauto 10.
    + destruct Hr as (stems' & pInfo & gen & [= <-] & Hin & Hg & Hk). eauto.
  - intros [= <-] k. split; [auto|].
    intros [?|(? & ? & ? & [=] & _)]. assumption.
Qed.

Lemma addParadigm_keyed m entry m' :
  addParadigm a m entry = Some m' -> keyed m -> keyed m'.
Proof.
  destruct entry as [pID lemma]. unfold addParadigm.
  destruct (paradigms a !! pID) as [stems|]; [|intros [= <-]; auto].
  apply foldM_ind. intros b x b' _. apply addStem_keyed.
Qed.

(** What [Inflect] does for a word of the dictionary. *)
Lemma Inflect_inv word r :
  Inflect a word = Some r -> Parse a word <> Some [] ->
  exists toProcess finalResults,
    paradigmsToProcess a word = Some toProcess /\
    foldM (addParadigm a) ∅ (map_range toProcess) = Some finalResults /\
    r = sort_Slice lessWord (map snd (map_range finalResults)).
Proof.
  unfold Inflect.
  destruct (Parse a word) as [[|p0 ps]|]; [congruence| |discriminate].
  cbn [mbind option_bind length]. intros Hi _.
  replace (Z.of_nat (S (length ps)) =? 0) with false in Hi
    by (symmetry; apply Z.eqb_neq; lia).
  destruct (paradigmsToProcess a word) as [toProcess|]; [|discriminate].
  cbn [mbind option_bind] in Hi.
  destruct (foldM _ ∅ _) as [fr|] eqn:Hfr; [|discriminate].
  cbn [mbind option_bind] in Hi. exists toProcess, fr.
  split; [reflexivity|]. split; [exact Hfr|].
  destruct (Z.eqb_spec (Z.of_nat (size fr)) 0) as [Hz|Hnz];
    injection Hi as <-; [|reflexivity].
  assert (Hfr0 : fr = ∅) by (apply map_size_empty_inv; lia).
  assert (Hnil : map snd (map_range fr) = []).
  { apply Permutation_nil_r. rewrite (map_range_perm _ _ fr), Hfr0.
    rewrite map_to_list_empty. reflexivity. }
  rewrite Hnil. symmetry. apply Permutation_nil_r, sort_Slice_perm.
Qed.

Lemma Inflect_words (r : list Parsed) toProcess finalResults :
  foldM (addParadigm a) ∅ (map_range toProcess) = Some finalResults ->
  r = sort_Slice lessWord (map snd (map_range finalResults)) ->
  map Word r ≡ₚ map fst (map_to_list finalResults).
Proof.
  intros Hfr ->.
  assert (Hk : keyed finalResults).
  { apply (foldM_ind keyed _ _
             (fun b x b' _ => addParadigm_keyed b x b') _ _ Hfr).
    intros form p. rewrite lookup_empty. discriminate. }
  rewrite (sort_Slice_perm _ lessWord), (map_range_perm _ _ finalResults).
  rewrite map_map.
  assert (E : map (fun x => Word x.2) (map_to_list finalResults)
              = map fst (map_to_list finalResults)).
  { apply map_ext_in.
    intros [form p] Hin%list_elem_of_In%elem_of_map_to_list. apply Hk, Hin. }
  rewrite E. reflexivity.
Qed.

End Inflection.

Lemma elem_of_map_fst_to_list {V} (m : gmap string V) k :
  k ∈ map fst (map_to_list m) <-> is_Some (m !! k).
Proof.
  rewrite list_elem_of_In, in_map_iff. split.
  - intros ([k' v] & <- & Hin%list_elem_of_In%elem_of_map_to_list). eauto.
  - intros [v Hv]. exists (k, v). split; [reflexivity|].
    apply list_elem_of_In, elem_of_map_to_list, Hv.
Qed.

(** ** Well-formed lexicons: the queries return *)

Lemma walk_app nodes edges l1 l2 : forall i,
  walk nodes edges i (l1 ++ l2)
  = match walk nodes edges i l1 with
    | Some (c, true) => walk nodes edges c l2
    | other => other
    end.
Proof.
  induction l1 as [|c l1 IH]; intros i; [reflexivity|].
  cbn [walk app].
  destruct (findChildGeneral i c nodes edges) as [[child found]|];
    [|reflexivity].
  cbn [mbind option_bind]. destruct found; [apply IH|reflexivity].
Qed.

Section Total.
Context `{GoRuntime} (a : MorphAnalyzer) (Hwf : wf_lexicon a).

Lemma root_in_range : 0 <= 0 < Z.of_nat (length (nodes a)).
Proof. pose proof (wf_root _ _ _ (wf_main _ Hwf)). lia. Qed.

Lemma payload_entry_total word (infos : list MorphInfo.t) :
  infos ⊆ payloads a ->
  exists ps,
    mapM (fun info =>
            lemma ← index (LemmaPool a) (MorphInfo.LemmaID info);
            tags ← index (tagsPool a) (MorphInfo.TagsID info);
            Some (newParsed word lemma tags)) infos = Some ps /\
    length ps = length infos.
Proof.
  intros Hsub.
  destruct (mapM_is_Some_2
    (fun info =>
       lemma ← index (LemmaPool a) (MorphInfo.LemmaID info);
       tags ← index (tagsPool a) (MorphInfo.TagsID info);
       Some (newParsed word lemma tags)) infos) as [ps Hps].
  - apply Forall_forall. intros info Hin. cbn.
    destruct (wf_pools _ Hwf info (Hsub _ Hin)) as [Hl Ht].
    destruct (index_Some _ _ Hl) as (? & -> & _).
    destruct (index_Some _ _ Ht) as (? & -> & _). cbn. eauto.
  - exists ps. split; [assumption|]. symmetry. eapply length_mapM, Hps.
Qed.

Lemma Parse_total word : is_Some (Parse a word).
Proof.
  unfold Parse. cbv zeta.
  destruct (walk_total _ _ _ (wf_main _ Hwf) (runes (ToLower word)) 0
              root_in_range) as (cur & found & -> & Hcur).
  cbn [mbind option_bind]. destruct found; cbn [negb]; [|eauto].
  destruct (index_Some _ _ Hcur) as (node & Hnode & _). rewrite Hnode.
  cbn [mbind option_bind].
  destruct (FlatNode.IsFinal node); cbn [negb]; [|eauto].
  destruct (index_lookup _ _ _ Hnode) as [_ Hnode'].
  pose proof (wf_window_payloads _ _ _ (wf_main _ Hwf) _ _ Hnode') as Hps.
  rewrite Hps. cbn [mbind option_bind].
  destruct (payload_entry_total word _ (window_subseteq _ _ _ _ Hps))
    as (ps & -> & _). eauto.
Qed.

Lemma paradigmsToProcess_total word :
  is_Some (paradigmsToProcess a word).
Proof.
  unfold paradigmsToProcess. cbv zeta.
  destruct (walk_total _ _ _ (wf_main _ Hwf) (runes (ToLower word)) 0
              root_in_range) as (cur & found & -> & Hcur).
  cbn [mbind option_bind]. destruct found; [|eauto].
  destruct (index_Some _ _ Hcur) as (node & Hnode & _). rewrite Hnode.
  cbn [mbind option_bind].
  destruct (index_lookup _ _ _ Hnode) as [_ Hnode'].
  pose proof (wf_window_payloads _ _ _ (wf_main _ Hwf) _ _ Hnode') as Hps.
  rewrite Hps. cbn [mbind option_bind]. apply foldM_total.
  intros m info Hin.
  destruct (wf_pools _ Hwf info (window_subseteq _ _ _ _ Hps _ Hin))
    as [Hl _].
  destruct (index_Some _ _ Hl) as (? & -> & _). cbn. eauto.
Qed.

Lemma dfsGenerate_values nodeIndex prefix targetID results r :
  dfsGenerate a nodeIndex prefix targetID results = Some r ->
  from_payloads a results r.
Proof.
  intros Hd. apply (findWord_values a _ _ _ _ _ _ _ Hd). intros k v. auto.
Qed.

Lemma generateAll_values pID infos results r :
  generateAll a pID infos results = Some r -> from_payloads a results r.
Proof.
  unfold generateAll. intros Hf.
  apply (foldM_ind (from_payloads a results) _ _
           (fun b x b' _ Hd Hb => findWord_values a _ _ _ _ _ _ _ Hd _ Hb)
           _ _ Hf).
  intros k v. auto.
Qed.

Lemma generated_tags_in_range (gen : gmap string Z) form tagsID :
  from_payloads a ∅ gen -> (form, tagsID) ∈ map_range gen ->
  exists tags, index (tagsPool a) tagsID = Some tags.
Proof.
  intros Hfrom Hin%elem_of_map_range.
  destruct (Hfrom _ _ Hin) as [Hl|(info & Hinfo & <-)].
  { rewrite lookup_empty in Hl. discriminate. }
  destruct (wf_pools _ Hwf info Hinfo) as [_ Ht].
  destruct (index_Some _ _ Ht) as (tags & -> & _). eauto.
Qed.

Lemma addParadigm_total m entry : is_Some (addParadigm a m entry).
Proof.
  destruct entry as [pID lemma]. unfold addParadigm.
  destruct (paradigms a !! pID) as [stems|] eqn:Hp; [|eauto].
  apply foldM_total. intros m' pInfo Hin. unfold addStem.
  destruct (dfsGenerate_total a Hwf (ParadigmInfo.NodeID pInfo)
              (runes (ParadigmInfo.Stem pInfo)) pID ∅) as [gen Hgen].
  { eapply wf_anchors; eassumption. }
  rewrite Hgen. cbn [mbind option_bind]. apply foldM_total.
  intros m'' [form tagsID] Hin'. unfold addForm.
  destruct (m'' !! form); [eauto|].
  destruct (generated_tags_in_range gen form tagsID
              (dfsGenerate_values _ _ _ _ _ Hgen) Hin') as [tags ->].
  cbn. eauto.
Qed.

Lemma Inflect_total word : is_Some (Inflect a word).
Proof.
  unfold Inflect. destruct (Parse_total word) as [ps ->].
  cbn [mbind option_bind]. destruct (_ =? 0); [eauto|].
  destruct (paradigmsToProcess_total word) as [tp ->].
  cbn [mbind option_bind].
  destruct (foldM_total (addParadigm a) (map_range tp)
              (fun m x _ => addParadigm_total m x) ∅) as [fr ->].
  cbn [mbind option_bind]. destruct (_ =? 0); eauto.
Qed.

End Total.

(** C1, as amended.  On a well-formed lexicon, for a word of the
    dictionary, [Inflect] returns every surface form that some paradigm at
    the terminal node generates, and returns it once: a form that two
    paradigms generate is not repeated per paradigm, the emitted pairs of all
    paradigms and stems being deduplicated in one map keyed by surface
    form. *)
Theorem Inflect_forms_once `{GoRuntime} (a : MorphAnalyzer) (word : string) :
  wf_lexicon a -> Parse a word <> Some [] ->
  exists r toProcess,
    Inflect a word = Some r /\
    paradigmsToProcess a word = Some toProcess /\
    NoDup (map Word r) /\
    forall form, form ∈ map Word r <->
      exists pID, is_Some (toProcess !! pID) /\ generates a pID form.
Proof.
  intros Hwf Hp. destruct (Inflect_total a Hwf word) as [r Hi].
  destruct (Inflect_inv a word r Hi Hp) as (toProcess & fr & Ht & Hfr & Hr).
  pose proof (Inflect_words a r toProcess fr Hfr Hr) as Hperm.
  exists r, toProcess. split; [assumption|]. split; [assumption|]. split.
  - rewrite Hperm. apply (NoDup_fst_map_to_list fr).
  - intros form. rewrite Hperm, elem_of_map_fst_to_list.
    rewrite (foldM_dom (addParadigm a) (fun e k => generates a e.1 k)
               (addParadigm_dom a) _ _ _ Hfr form).
    rewrite lookup_empty. split.
    + intros [[? [=]]|([pID lemma] & Hin%elem_of_map_range & Hg)].
      exists pID. split; [eauto|exact Hg].
    + intros (pID & [lemma Hl] & Hg). right. exists (pID, lemma).
      split; [apply elem_of_map_range, Hl|exact Hg].
Qed.

(** C1, as amended, on the small lexicon: [ab] has paradigms 1 and 2, and
    both generate [ab]. *)
Lemma Inflect_forms_once_witness :
  wf_lexicon demo /\ Parse demo "ab" <> Some [] /\
  exists r toProcess,
    Inflect demo "ab" = Some r /\
    paradigmsToProcess demo "ab" = Some toProcess /\
    NoDup (map Word r) /\
    forall form, form ∈ map Word r <->
      exists pID, is_Some (toProcess !! pID) /\ generates demo pID form.
Proof.
  assert (Hp : Parse demo "ab" <> Some [])
    by (vm_compute; discriminate).
  split; [exact demo_wf|]. split; [exact Hp|].
  exact (Inflect_forms_once demo "ab" demo_wf Hp).
Defined.

(** C1, as stated, fails on the small lexicon: paradigm 1, with lemma [ab],
    generates the form [ab] with tags 0, and so does paradigm 2; the result
    for [ab] has one parse with that surface form, that of paradigm 2. *)
Lemma Inflect_per_paradigm_counterexample :
  ~ (forall (rt : GoRuntime) (a : MorphAnalyzer) (word : string) r toProcess
       pID lemma stems pInfo generatedForms form tagsID tags,
       Inflect a word = Some r ->
       paradigmsToProcess a word = Some toProcess ->
       toProcess !! pID = Some lemma ->
       paradigms a !! pID = Some stems -> pInfo ∈ stems ->
       dfsGenerate a (ParadigmInfo.NodeID pInfo)
         (runes (ParadigmInfo.Stem pInfo)) pID ∅ = Some generatedForms ->
       generatedForms !! form = Some tagsID ->
       index (tagsPool a) tagsID = Some tags ->
       newParsed form lemma tags ∈ r).
Proof.
  intros Hclaim.
  destruct (Inflect demo "ab") as [r|] eqn:Hi;
    [|vm_compute in Hi; discriminate].
  destruct (paradigmsToProcess demo "ab") as [tp|] eqn:Ht;
    [|vm_compute in Ht; discriminate].
  destruct (dfsGenerate demo 1 (runes "a") 1 ∅) as [gen|] eqn:Hg;
    [|vm_compute in Hg; discriminate].
  assert (Hin : newParsed "ab" "ab" "Существительное,Именительный" ∈ r).
  { apply (Hclaim refRuntime demo "ab" r tp 1 "ab" [ParadigmInfo.mk "a" 1]
             (ParadigmInfo.mk "a" 1) gen "ab" 0 _ Hi Ht).
    - assert (E : paradigmsToProcess demo "ab" ≫= (.!! 1) = Some "ab")
        by (vm_compute; reflexivity).
      rewrite Ht in E. exact E.
    - vm_compute. reflexivity.
    - left.
    - exact Hg.
    - assert (E : dfsGenerate demo 1 (runes "a") 1 ∅ ≫= (.!! "ab") = Some 0)
        by (vm_compute; reflexivity).
      rewrite Hg in E. exact E.
    - reflexivity. }
  assert (Hw : map (fun p => (Word p, Lemma_ p)) <$> Inflect demo "ab"
               = Some [("ab", "abc"); ("abc", "ab")])
    by (vm_compute; reflexivity).
  rewrite Hi in Hw. cbn in Hw. injection Hw as Hw.
  apply (list_elem_of_fmap_2 (fun p => (Word p, Lemma_ p))) in Hin.
  change (fmap (M:=list) (fun p => (Word p, Lemma_ p)) r)
    with (map (fun p => (Word p, Lemma_ p)) r) in Hin.
  rewrite Hw in Hin.
  destruct (newParsed_keeps "ab" "ab" "Существительное,Именительный")
    as (Ew & El & _).
  rewrite Ew, El in Hin. rewrite !elem_of_cons in Hin.
  destruct Hin as [[=]|[[=]|Hin%elem_of_nil]]. contradiction.
Qed.

Section Sorted.
Context `{GoRuntime} (a : MorphAnalyzer).

Lemma Inflect_strictly_sorted word r :
  Inflect a word = Some r ->
  StronglySorted (fun x y => String.ltb (Word x) (Word y) = true) r /\
  NoDup (map Word r).
Proof.
  intros Hi.
  assert (Hcase : Parse a word = Some [] \/ Parse a word <> Some []).
  { destruct (Parse a word) as [[|? ?]|]; [left; reflexivity|right..];
      discriminate. }
  destruct Hcase as [Hp|Hp].
  { unfold Inflect in Hi. rewrite Hp in Hi. cbn in Hi.
    injection Hi as <-. split; constructor. }
  destruct (Inflect_inv a word r Hi Hp) as (tp & fr & _ & Hfr & Hr).
  assert (Hnd : NoDup (map Word r)).
  { rewrite (Inflect_words a r tp fr Hfr Hr).
    apply (NoDup_fst_map_to_list fr). }
  split; [|exact Hnd]. apply sorted_strict; [|exact Hnd].
  rewrite Hr. apply (sort_Slice_sorted _ lessWord), lessWord_StrictWeak.
Qed.

Lemma stem_covers_generates word :
  wf_lexicon a -> stem_covers a word ->
  exists ps toProcess pID form,
    Parse a word = Some ps /\ ps <> [] /\
    paradigmsToProcess a word = Some toProcess /\
    is_Some (toProcess !! pID) /\ generates a pID form.
Proof.
  intros Hwf (cur & node & infos & info & stems & pInfo & rest & Hwalk & Hnode
              & Hfin & Hps & Hin & Hstems & HpInfo & Hrunes & Hstem).
  pose proof (window_subseteq _ _ _ _ Hps) as Hsub.
  destruct (payload_entry_total a Hwf word infos Hsub) as (ps & Hmap & Hlen).
  destruct (paradigmsToProcess_total a Hwf word) as [tp Htp].
  exists ps, tp, (MorphInfo.ParadigmID info),
    (string_of_runes (runes (ParadigmInfo.Stem pInfo) ++ [] ++ rest)).
  split; [|split; [|split; [exact Htp|split]]].
  - unfold Parse. cbv zeta. rewrite Hwalk. cbn [mbind option_bind negb].
    rewrite Hnode. cbn [mbind option_bind]. rewrite Hfin. cbn [negb].
    rewrite Hps. cbn [mbind option_bind]. exact Hmap.
  - intros ->. destruct infos; [apply elem_of_nil in Hin; contradiction|].
    discriminate.
  - unfold paradigmsToProcess in Htp. cbv zeta in Htp. rewrite Hwalk in Htp.
    cbn [mbind option_bind] in Htp. rewrite Hnode in Htp.
    cbn [mbind option_bind] in Htp. rewrite Hps in Htp.
    cbn [mbind option_bind] in Htp.
    refine (foldM_reach
              (fun m => is_Some (m !! MorphInfo.ParadigmID info))
              _ infos info Hin _ _ _ tp Htp).
    + intros b b'. destruct (index (LemmaPool a) _); [|discriminate].
      cbn. intros [= <-]. rewrite lookup_insert_eq. eauto.
    + intros b y b'. destruct (index (LemmaPool a) _); [|discriminate].
      cbn. intros [= <-] Hb. rewrite lookup_insert_is_Some'. auto.
  - destruct (dfsGenerate_total a Hwf (ParadigmInfo.NodeID pInfo)
                (runes (ParadigmInfo.Stem pInfo)) (MorphInfo.ParadigmID info)
                ∅) as [gen Hgen].
    { eapply wf_anchors; eassumption. }
    exists stems, pInfo, gen. repeat split; try assumption.
    rewrite Hrunes, walk_app, Hstem in Hwalk.
    exact (findWord_reach a rest _ _ _ _ _ _ _ _ _ _ info Hgen Hwalk Hnode
             Hfin Hps Hin eq_refl).
Qed.

End Sorted.

(** C8, as amended.  Whatever [Inflect] returns is sorted strictly ascending
    by surface form, and no two of its elements share a surface form.  On a
    well-formed lexicon, for a word of the dictionary one of whose paradigms
    has a stem that is a leading substring of the word, spelled from the
    root to its anchor node, [Inflect] returns a non-empty list. *)
Theorem Inflect_sorted `{GoRuntime} (a : MorphAnalyzer) (word : string) :
  (forall r, Inflect a word = Some r ->
     StronglySorted (fun x y => String.ltb (Word x) (Word y) = true) r /\
     NoDup (map Word r)) /\
  (wf_lexicon a -> stem_covers a word ->
   exists r, Inflect a word = Some r /\ r <> []).
Proof.
  split; [apply Inflect_strictly_sorted|].
  intros Hwf Hcov.
  destruct (stem_covers_generates a word Hwf Hcov)
    as (ps & tp & pID & form & Hp & Hne & Htp & HpID & Hgen).
  destruct (Inflect_total a Hwf word) as [r Hr]. exists r.
  split; [exact Hr|].
  assert (Hp' : Parse a word <> Some []) by (rewrite Hp; congruence).
  destruct (Inflect_inv a word r Hr Hp') as (tp' & fr & Htp' & Hfr & Hsort).
  rewrite Htp in Htp'. injection Htp' as <-.
  assert (Hform : is_Some (fr !! form)).
  { rewrite (foldM_dom (addParadigm a) (fun e k => generates a e.1 k)
               (addParadigm_dom a) _ _ _ Hfr form).
    right. destruct HpID as [lemma Hl]. exists (pID, lemma).
    split; [apply elem_of_map_range, Hl|exact Hgen]. }
  apply elem_of_map_fst_to_list in Hform.
  rewrite <- (Inflect_words a r tp fr Hfr Hsort) in Hform.
  intros ->. apply elem_of_nil in Hform. exact Hform.
Qed.

Lemma demo_covers : stem_covers demo "ab".
Proof.
  exists 2, (FlatNode.mk 0 2 2 1 true),
    [MorphInfo.mk 0 0 1; MorphInfo.mk 1 1 2], (MorphInfo.mk 0 0 1),
    [ParadigmInfo.mk "a" 1], (ParadigmInfo.mk "a" 1), [98].
  repeat split; try (vm_compute; reflexivity). left. left.
Qed.

(** C8, as amended, on the small lexicon, for the word [ab]. *)
Lemma Inflect_sorted_witness :
  wf_lexicon demo /\ stem_covers demo "ab" /\
  exists r, Inflect demo "ab" = Some r /\ r <> [] /\
    StronglySorted (fun x y => String.ltb (Word x) (Word y) = true) r /\
    NoDup (map Word r).
Proof.
  split; [exact demo_wf|]. split; [exact demo_covers|].
  destruct (proj2 (Inflect_sorted demo "ab") demo_wf demo_covers)
    as (r & Hr & Hne).
  exists r. split; [exact Hr|]. split; [exact Hne|].
  exact (proj1 (Inflect_sorted demo "ab") r Hr).
Defined.

Lemma sorted_windowsb_sound nodes edges :
  sorted_windowsb nodes edges = true -> sorted_windows nodes edges.
Proof.
  unfold sorted_windowsb. rewrite forallb_forall.
  intros Hall i n w Hi Hw.
  specialize (Hall n ltac:(apply list_elem_of_In, list_elem_of_lookup; eauto)).
  rewrite Hw in Hall. apply bool_decide_eq_true in Hall. exact Hall.
Qed.

Lemma strayStem_wf : wf_lexicon strayStem.
Proof.
  apply (wf_lexiconb_sound (fun i => Z.to_nat (3 - i))).
  vm_compute. reflexivity.
Qed.

(** C8, as stated, fails on a well-formed lexicon with sorted edge windows
    and a payload at every final node: the word [ab] is in the dictionary,
    the only stem of its paradigm generates no form of the paradigm, and
    [Inflect] returns nothing. *)
Lemma Inflect_nonempty_counterexample :
  ~ (forall (rt : GoRuntime) (a : MorphAnalyzer) (word : string)
       (ps : list Parsed),
       wf_lexicon a -> sorted_windows (nodes a) (edges a) ->
       final_has_payload (nodes a) ->
       Parse a word = Some ps -> ps <> [] ->
       exists r, Inflect a word = Some r /\ r <> []).
Proof.
  intros Hclaim.
  destruct (Parse strayStem "ab") as [ps|] eqn:Hp;
    [|vm_compute in Hp; discriminate].
  destruct (Hclaim refRuntime strayStem "ab" ps) as (r & Hr & Hne).
  - exact strayStem_wf.
  - apply sorted_windowsb_sound. vm_compute. reflexivity.
  - apply final_has_payloadb_sound. vm_compute. reflexivity.
  - exact Hp.
  - intros ->.
    assert (E : length <$> Parse strayStem "ab" = Some 1%nat)
      by (vm_compute; reflexivity).
    rewrite Hp in E. discriminate.
  - assert (E : Inflect strayStem "ab" = Some []) by (vm_compute; reflexivity).
    rewrite Hr in E. congruence.
Qed.

(** ** The batch pipeline *)

Section Batch.
Context `{GoRuntime} (a : MorphAnalyzer) (Hwf : wf_lexicon a).

Lemma findBestPrediction_total word : is_Some (findBestPrediction a word).
Proof.
  unfold findBestPrediction.
  destruct (collectCandidates_total a word (wf_predict _ Hwf)) as [cands ->].
  cbn [mbind option_bind]. destruct (_ =? 0); eauto.
Qed.

Lemma ParsePredicted_total word : is_Some (ParsePredicted a word).
Proof.
  destruct (findBestPrediction_total (ToLower word)) as [[best|] Hbest].
  - destruct (ParsePredicted_returns a word best Hwf Hbest)
      as (? & ? & ? & _ & _ & _ & _ & ->). eauto.
  - unfold ParsePredicted. cbv zeta. rewrite Hbest. cbn. eauto.
Qed.

Lemma Predict_total word lemma : is_Some (Predict a word lemma).
Proof.
  unfold Predict. cbv zeta.
  destruct (findBestPrediction_total (ToLower word)) as [[best|] Hbest];
    rewrite Hbest; cbn [mbind option_bind]; [|eauto].
  destruct (findBestPrediction_rule a _ _ Hbest) as (Hk & Hlen & Hin).
  destruct (wf_rules _ Hwf _ Hin) as [_ Hform].
  destruct (getFormsByParadigmID_total a Hwf
              (PredictInfo.ParadigmID (Info best))) as [forms ->].
  cbn [mbind option_bind].
  destruct (Z.eqb_spec (Z.of_nat (length forms)) 0); cbn [orb]; [eauto|].
  destruct (Z.leb_spec (Z.of_nat (length forms))
              (PredictInfo.FormIdx (Info best))); [eauto|].
  destruct (index_Some forms (PredictInfo.FormIdx (Info best)) ltac:(lia))
    as (tw & -> & _). cbn [mbind option_bind].
  destruct (_ <? SuffixLen best); [eauto|].
  rewrite slice_lastn by lia. cbn [mbind option_bind].
  destruct (HasSuffix _ _); cbn [negb]; [|eauto].
  assert (Hgen : exists gen,
            generateAll a (PredictInfo.ParadigmID (Info best))
              (default [] (paradigms a !! PredictInfo.ParadigmID (Info best)))
              ∅ = Some gen).
  { destruct (paradigms a !! _) as [stems|] eqn:Hst; cbn [default].
    - apply (generateAll_total a Hwf _ _ _ Hst).
    - cbn. eauto. }
  destruct Hgen as [gen Hgen]. rewrite Hgen. cbn [mbind option_bind].
  destruct (foldM_total
    (fun results '(dictForm, tagsID) =>
       if HasPrefix dictForm
            (TrimSuffix tw (string_of_runes
               (lastn (Z.to_nat (SuffixLen best)) (runes (ToLower word)))))
       then
         tags ← index (tagsPool a) tagsID;
         Some (results ++
                 [newParsed
                    (String.append
                       (TrimSuffix (ToLower word)
                          (string_of_runes
                             (lastn (Z.to_nat (SuffixLen best))
                                (runes (ToLower word)))))
                       (TrimPrefix dictForm
                          (TrimSuffix tw
                             (string_of_runes
                                (lastn (Z.to_nat (SuffixLen best))
                                   (runes (ToLower word)))))))
                    lemma tags])
       else Some results) (map_range gen)) with (b := @nil Parsed)
    as [results Hres].
  { intros b [dictForm tagsID] Hin'. destruct (HasPrefix _ _); [|eauto].
    destruct (generated_tags_in_range a Hwf gen dictForm tagsID
                (generateAll_values a _ _ _ _ Hgen) Hin') as [tags ->].
    cbn. eauto. }
  rewrite Hres. cbn [mbind option_bind]. destruct (_ =? 0); eauto.
Qed.

Lemma Analyze_total word :
  exists forms, Analyze a word = Some (analyzedParses a word, forms).
Proof.
  unfold Analyze, analyzedParses.
  destruct (Parse_total a Hwf word) as [[|p ps] ->]; cbn [mbind option_bind].
  - change (0 <? Z.of_nat (length (@nil Parsed))) with false. cbv iota.
    destruct (ParsePredicted_total word) as [[|p0 pp] ->];
      cbn [mbind option_bind default]; [eauto|].
    destruct (Predict_total word (Lemma_ p0)) as [fs ->]. cbn. eauto.
  - replace (0 <? Z.of_nat (length (p :: ps))) with true
      by (symmetry; apply Z.ltb_lt; cbn [length]; lia).
    destruct (Inflect_total a Hwf word) as [fs ->]. cbn. eauto.
Qed.

Lemma parseChunk_spec chunk :
  parseChunk a chunk = Some (concat (map (analyzedParses a) chunk)).
Proof.
  unfold parseChunk.
  enough (Hgen : forall acc,
            foldM (fun parsedChunk word =>
                     '(parses, _) ← Analyze a word;
                     Some (parsedChunk ++ parses)) acc chunk
            = Some (acc ++ concat (map (analyzedParses a) chunk)))
    by apply (Hgen []).
  induction chunk as [|w chunk IH]; intros acc; cbn [foldM map concat].
  - rewrite app_nil_r. reflexivity.
  - destruct (Analyze_total w) as [fs ->]. cbn [mbind option_bind].
    rewrite IH, <- app_assoc. reflexivity.
Qed.

End Batch.

Lemma chunksOf_concat {A} (n : nat) : (0 < n)%nat ->
  forall fuel (l : list A), (length l <= fuel)%nat ->
    concat (chunksOf fuel n l) = l.
Proof.
  intros Hn. induction fuel as [|fuel IH]; intros l Hl.
  - destruct l; [reflexivity|cbn in Hl; lia].
  - destruct l as [|x l]; [reflexivity|].
    cbn [chunksOf concat]. rewrite IH.
    + apply take_drop.
    + rewrite length_drop. cbn [length] in *. lia.
Qed.

Lemma concat_Permutation {A} (l l' : list (list A)) :
  l ≡ₚ l' -> concat l ≡ₚ concat l'.
Proof.
  induction 1 as [|x l l' _ IH|x y l|l1 l2 l3 _ IH1 _ IH2]; cbn [concat].
  - reflexivity.
  - rewrite IH. reflexivity.
  - rewrite !app_assoc. rewrite (Permutation_app_comm y x). reflexivity.
  - etransitivity; eassumption.
Qed.

Lemma concat_map_concat {A B} (g : A -> list B) (cs : list (list A)) :
  concat (map (fun c => concat (map g c)) cs) = concat (map g (concat cs)).
Proof.
  induction cs as [|c cs IH]; [reflexivity|].
  cbn [map concat]. rewrite map_app, concat_app, IH. reflexivity.
Qed.

(** C2, as amended.  On a well-formed lexicon [ParseList] returns, and what
    it returns is, as a multiset, the parses that [Analyze] reports for each
    word in turn: those of [Parse] when the word is in the dictionary, else
    those of [ParsePredicted]. *)
Theorem ParseList_content `{GoRuntime} (a : MorphAnalyzer)
    (words : list string) :
  wf_lexicon a ->
  exists r, ParseList a words = Some r /\
    r ≡ₚ concat (map (analyzedParses a) words).
Proof.
  intros Hwf. unfold ParseList.
  set (chunks := chunksOf (length words) chunkSize words).
  assert (Hm : mapM (parseChunk a) chunks
               = Some (map (fun c => concat (map (analyzedParses a) c))
                         chunks)).
  { apply mapM_Some_2. induction chunks as [|c cs IH]; constructor;
      [apply parseChunk_spec, Hwf|apply IH]. }
  rewrite Hm. cbn [mbind option_bind]. eexists. split; [reflexivity|].
  rewrite (sort_Slice_perm _ lessWord).
  rewrite (concat_Permutation _ _ (arrival_perm _ _)).
  rewrite concat_map_concat. subst chunks.
  rewrite (chunksOf_concat chunkSize ltac:(unfold chunkSize; lia)
             (length words) words (Nat.le_refl _)).
  reflexivity.
Qed.

(** C2, as amended, on the small lexicon. *)
Lemma ParseList_content_witness :
  wf_lexicon demo /\
  exists r, ParseList demo ["ab"; "xb"; "q"] = Some r /\
    r ≡ₚ concat (map (analyzedParses demo) ["ab"; "xb"; "q"]).
Proof.
  split; [exact demo_wf|].
  exact (ParseList_content demo ["ab"; "xb"; "q"] demo_wf).
Defined.

(** C2, as stated, fails on the small lexicon for the unknown word [xb]:
    [Parse] finds nothing, while [ParseList] returns the predicted parse. *)
Lemma ParseList_Parse_counterexample :
  ~ (forall (rt : GoRuntime) (a : MorphAnalyzer) (words : list string) r,
       ParseList a words = Some r ->
       exists rs, mapM (Parse a) words = Some rs /\ r ≡ₚ concat rs).
Proof.
  intros Hclaim.
  destruct (ParseList demo ["xb"]) as [r|] eqn:Hr;
    [|vm_compute in Hr; discriminate].
  destruct (Hclaim refRuntime demo ["xb"] r Hr) as (rs & Hrs & Hperm).
  assert (E1 : mapM (Parse demo) ["xb"] = Some [[]])
    by (vm_compute; reflexivity).
  rewrite E1 in Hrs. injection Hrs as <-. cbn in Hperm.
  apply Permutation_nil_r in Hperm. subst r.
  assert (E2 : length <$> ParseList demo ["xb"] = Some 1%nat)
    by (vm_compute; reflexivity).
  rewrite Hr in E2. discriminate.
Qed.

(** ** The loader *)

Lemma wrap64s_small x : - 2 ^ 63 <= x < 2 ^ 63 -> wrap64s x = x.
Proof. intros Hx. unfold wrap64s. rewrite Z.mod_small; lia. Qed.

Lemma length_records {T} (view : list byte -> T) size n b :
  length (records view size n b) = n.
Proof.
  revert b. induction n as [|n IH]; intros b; cbn [records length];
    [reflexivity|]. rewrite IH. reflexivity.
Qed.

Lemma region_Ok {T} (view : list byte -> T) size file offset count :
  0 < size -> Z.of_nat (length file) < 2 ^ 63 ->
  inside (Z.of_nat (length file)) (offset, count, size) ->
  exists l, region view size file offset count = Ok l /\
    length l = Z.to_nat count.
Proof.
  intros Hsize Hlen (Ho & Hc & Hb). cbn [fst snd] in Ho, Hc, Hb.
  unfold region. assert (0 <= count * size) by nia.
  rewrite (wrap64s_small (count * size)) by lia.
  rewrite (wrap64s_small (offset + count * size)) by lia.
  unfold slice.
  destruct (Z.leb_spec 0 offset); [|lia].
  destruct (Z.leb_spec offset (offset + count * size)); [|lia].
  destruct (Z.leb_spec (offset + count * size) (Z.of_nat (length file)));
    [|lia].
  cbn [andb]. eexists. split; [reflexivity|].
  unfold bytesToSlice. rewrite length_take, length_drop.
  replace (Z.to_nat (offset + count * size - offset)
             `min` (length file - Z.to_nat offset))%nat
    with (Z.to_nat (count * size)) by lia.
  rewrite Z2Nat.id by lia.
  destruct (Z.eqb_spec (count * size) 0) as [Hz|Hnz].
  - cbn [length]. nia.
  - rewrite length_records, Z.div_mul by lia. reflexivity.
Qed.

(** C7, as amended.  [loadInternal] has no check of the region lengths and
    no layout error: for a file with a valid magic whose complex block
    decodes and whose six windows [offset, offset + count * sizeof) lie
    inside the file, it constructs the analyzer, each view holding [count]
    records, whatever the extent of the regions in the file. *)
Theorem loadInternal_no_layout_check
    (decodeComplex : list byte -> LoadError + ComplexData.t)
    (file : list byte) (complexData : ComplexData.t) :
  let h := readHeader (take (Z.to_nat sizeofHeader) file) in
  sizeofHeader <= Z.of_nat (length file) < 2 ^ 63 ->
  string_of_list_byte (Magic h) = "DAW7" ->
  (exists block,
     slice file (ComplexDataOffset h)
       (wrap64s (ComplexDataOffset h + ComplexDataLength h)) = Some block /\
     decodeComplex block = inr complexData) ->
  Forall (inside (Z.of_nat (length file))) (regionTable h) ->
  exists a, loadInternal decodeComplex file = Ok a /\
    LemmaPool a = ComplexData.LemmaPool complexData /\
    tagsPool a = ComplexData.TagsPool complexData /\
    [length (nodes a); length (edges a); length (payloads a);
     length (predictNodes a); length (predictEdges a);
     length (predictPayloads a)]
    = (fun r => Z.to_nat r.1.2) <$> regionTable h.
Proof.
  intros h [Hlo Hhi] Hmagic (block & Hblock & Hdec) Hin.
  unfold loadInternal. fold h.
  destruct (Z.ltb_spec (Z.of_nat (length file)) sizeofHeader); [lia|].
  rewrite Hmagic. change (negb (String.eqb "DAW7" "DAW7")) with false.
  cbv iota zeta. rewrite Hblock, Hdec.
  unfold regionTable in Hin.
  repeat match goal with
         | Hf : Forall _ (_ :: _) |- _ =>
           apply Forall_cons in Hf as [? Hf]
         end.
  destruct (region_Ok viewFlatNode sizeofFlatNode file (NodesOffset h)
              (NodesCount h)) as (l1 & -> & E1);
    [reflexivity|lia|assumption|].
  destruct (region_Ok viewFlatEdge sizeofFlatEdge file (EdgesOffset h)
              (EdgesCount h)) as (l2 & -> & E2);
    [reflexivity|lia|assumption|].
  destruct (region_Ok viewMorphInfo sizeofMorphInfo file (PayloadsOffset h)
              (PayloadsCount h)) as (l3 & -> & E3);
    [reflexivity|lia|assumption|].
  destruct (region_Ok viewFlatNode sizeofFlatNode file (PredictNodesOffset h)
              (PredictNodesCount h)) as (l4 & -> & E4);
    [reflexivity|lia|assumption|].
  destruct (region_Ok viewFlatEdge sizeofFlatEdge file (PredictEdgesOffset h)
              (PredictEdgesCount h)) as (l5 & -> & E5);
    [reflexivity|lia|assumption|].
  destruct (region_Ok viewPredictInfo sizeofPredictInfo file
              (PredictPayloadsOffset h) (PredictPayloadsCount h))
    as (l6 & -> & E6); [reflexivity|lia|assumption|].
  eexists. split; [reflexivity|]. cbn. rewrite E1, E2, E3, E4, E5, E6. auto.
Qed.

Lemma demoFile_inside :
  Forall (inside (Z.of_nat (length demoFile)))
    (regionTable (readHeader (take (Z.to_nat sizeofHeader) demoFile))).
Proof.
  vm_compute. repeat constructor; discriminate.
Qed.

(** C7, as amended, on the file built around the block that the sample
    decoder accepts: its node region is followed by four stray bytes. *)
Lemma loadInternal_no_layout_check_witness :
  exists a, loadInternal sampleDecoder (corruptFile sampleBlock) = Ok a /\
    LemmaPool a = [] /\ tagsPool a = [] /\
    [length (nodes a); length (edges a); length (payloads a);
     length (predictNodes a); length (predictEdges a);
     length (predictPayloads a)] = [1; 0; 0; 1; 0; 1]%nat.
Proof.
  refine (loadInternal_no_layout_check sampleDecoder (corruptFile sampleBlock)
            emptyComplex _ _ _ _).
  - vm_compute. split; [discriminate|reflexivity].
  - vm_compute. reflexivity.
  - exists sampleBlock. split; vm_compute; reflexivity.
  - vm_compute. repeat constructor; discriminate.
Defined.

Lemma length_le_bytes n z : length (le_bytes n z) = n.
Proof.
  revert z. induction n as [|n IH]; intros z; [reflexivity|].
  cbn [le_bytes length]. rewrite IH. reflexivity.
Qed.

Lemma byteVal_of_N z :
  0 <= z < 256 ->
  byteVal (default x00%byte (Byte.of_N (Z.to_N z))) = z.
Proof.
  intros Hz. unfold byteVal.
  destruct (Byte.of_N (Z.to_N z)) as [b|] eqn:Hb.
  - change (Z.of_N (Byte.to_N b) = z). rewrite (Byte.to_of_N _ Hb). lia.
  - apply Byte.of_N_None_iff in Hb. lia.
Qed.

Lemma le_unsigned_le_bytes n z :
  0 <= z -> le_unsigned (le_bytes n z) = z mod 256 ^ Z.of_nat n.
Proof.
  revert z. induction n as [|n IH]; intros z Hz.
  - cbn. rewrite Z.mod_1_r. reflexivity.
  - cbn [le_bytes le_unsigned foldr]. fold (le_unsigned (le_bytes n (z / 256))).
    rewrite IH by (apply Z.div_pos; lia).
    rewrite byteVal_of_N by (apply Z.mod_pos_bound; lia).
    rewrite Nat2Z.inj_succ, Z.pow_succ_r by lia.
    rewrite Z.rem_mul_r by lia. reflexivity.
Qed.

Lemma le_int64_le_bytes z :
  0 <= z < 2 ^ 63 -> le_int64 (le_bytes 8 z) = z.
Proof.
  intros Hz. unfold le_int64. rewrite le_unsigned_le_bytes by lia.
  change (256 ^ Z.of_nat 8) with (2 ^ 64).
  rewrite Z.mod_small by lia. apply wrap64s_small. lia.
Qed.

Lemma bytesAt_take (b : list byte) m lo n :
  (lo + n <= m)%nat -> bytesAt (take m b) lo n = bytesAt b lo n.
Proof.
  intros Hm. unfold bytesAt.
  rewrite take_drop_commute, take_take, Nat.min_l by lia.
  rewrite <- take_drop_commute. reflexivity.
Qed.

Lemma bytesAt_app_l (l1 l2 : list byte) lo n :
  (lo + n <= length l1)%nat -> bytesAt (l1 ++ l2) lo n = bytesAt l1 lo n.
Proof.
  intros Hl. unfold bytesAt.
  rewrite drop_app_le, take_app_le by (rewrite ?length_drop; lia).
  reflexivity.
Qed.

Lemma bytesAt_app_r (l1 l2 : list byte) lo n :
  (length l1 <= lo)%nat ->
  bytesAt (l1 ++ l2) lo n = bytesAt l2 (lo - length l1) n.
Proof.
  intros Hl. unfold bytesAt. rewrite drop_app_ge by lia. reflexivity.
Qed.

Lemma bytesAt_here (l1 l2 : list byte) n :
  length l1 = n -> bytesAt (l1 ++ l2) 0 n = l1.
Proof.
  intros Hl. unfold bytesAt. rewrite drop_0.
  apply take_app_length'. symmetry. exact Hl.
Qed.

Lemma length_corruptPrefix n : length (corruptPrefix n) = 172%nat.
Proof.
  unfold corruptPrefix. rewrite !length_app, !length_le_bytes. reflexivity.
Qed.

(** One field of the header of [corruptFile]. *)
Ltac header_field :=
  unfold corruptPrefix;
  repeat (rewrite bytesAt_app_r
            by (rewrite ?length_le_bytes; cbn [length]; lia);
          rewrite ?length_le_bytes; cbn [length Nat.sub]);
  rewrite bytesAt_here by (rewrite ?length_le_bytes; reflexivity).

Lemma corruptFile_header block :
  Z.of_nat (length block) < 2 ^ 63 ->
  readHeader (take (Z.to_nat sizeofHeader) (corruptFile block))
  = corruptHeader (Z.of_nat (length block)).
Proof.
  intros Hlen. unfold readHeader, corruptHeader, corruptFile.
  change (Z.to_nat sizeofHeader) with 120%nat. cbv zeta.
  set (n := Z.of_nat (length block)) in *.
  pose proof (length_corruptPrefix n) as HP.
  f_equal;
    (rewrite bytesAt_take by (cbn; lia));
    (rewrite bytesAt_app_l by (rewrite HP; cbn; lia));
    cbn [Nat.add Nat.mul]; header_field;
    try reflexivity; apply le_int64_le_bytes; lia.
Qed.

Ltac in_file Hfile :=
  unfold inside; rewrite Hfile; cbn [fst snd];
  unfold sizeofFlatNode, sizeofFlatEdge, sizeofMorphInfo, sizeofPredictInfo;
  lia.

Lemma corruptFile_loads
    (decodeComplex : list byte -> LoadError + ComplexData.t)
    (block : list byte) (complexData : ComplexData.t) :
  Z.of_nat (length block) < 2 ^ 32 ->
  decodeComplex block = inr complexData ->
  exists a, loadInternal decodeComplex (corruptFile block) = Ok a.
Proof.
  intros Hlen Hdec.
  assert (Hfile : Z.of_nat (length (corruptFile block))
                  = 172 + Z.of_nat (length block)).
  { unfold corruptFile. rewrite length_app, length_corruptPrefix. lia. }
  unfold loadInternal.
  rewrite corruptFile_header by lia. rewrite Hfile.
  destruct (Z.ltb_spec (172 + Z.of_nat (length block)) sizeofHeader) as [Hlt|_];
    [unfold sizeofHeader in Hlt; lia|].
  cbv zeta. unfold corruptHeader.
  cbn [Magic ComplexDataOffset ComplexDataLength NodesOffset NodesCount
       EdgesOffset EdgesCount PayloadsOffset PayloadsCount PredictNodesOffset
       PredictNodesCount PredictEdgesOffset PredictEdgesCount
       PredictPayloadsOffset PredictPayloadsCount].
  change (negb (String.eqb (string_of_list_byte [x44; x41; x57; x37]%byte)
                  "DAW7")) with false. cbv iota.
  assert (Hblock : slice (corruptFile block) 172
                     (wrap64s (172 + Z.of_nat (length block))) = Some block).
  { rewrite wrap64s_small by lia. unfold slice. rewrite Hfile.
    destruct (Z.leb_spec 172 (172 + Z.of_nat (length block))); [|lia].
    rewrite Z.leb_refl. cbn [Z.leb andb].
    replace (172 + Z.of_nat (length block) - 172)
      with (Z.of_nat (length block)) by lia.
    rewrite Nat2Z.id. unfold corruptFile.
    rewrite drop_app_length' by (rewrite length_corruptPrefix; reflexivity).
    rewrite firstn_all. reflexivity. }
  rewrite Hblock, Hdec.
  destruct (region_Ok viewFlatNode sizeofFlatNode (corruptFile block) 120 1)
    as (l1 & -> & _);
    [reflexivity|rewrite Hfile; lia|in_file Hfile|].
  destruct (region_Ok viewFlatEdge sizeofFlatEdge (corruptFile block) 140 0)
    as (l2 & -> & _);
    [reflexivity|rewrite Hfile; lia|in_file Hfile|].
  destruct (region_Ok viewMorphInfo sizeofMorphInfo (corruptFile block) 140 0)
    as (l3 & -> & _);
    [reflexivity|rewrite Hfile; lia|in_file Hfile|].
  destruct (region_Ok viewFlatNode sizeofFlatNode (corruptFile block) 140 1)
    as (l4 & -> & _);
    [reflexivity|rewrite Hfile; lia|in_file Hfile|].
  destruct (region_Ok viewFlatEdge sizeofFlatEdge (corruptFile block) 156 0)
    as (l5 & -> & _);
    [reflexivity|rewrite Hfile; lia|in_file Hfile|].
  destruct (region_Ok viewPredictInfo sizeofPredictInfo (corruptFile block)
              156 1) as (l6 & -> & _);
    [reflexivity|rewrite Hfile; lia|in_file Hfile|].
  eexists. reflexivity.
Qed.

(** C7, as stated, fails with every decoder of the complex block, the one
    of the program included, as soon as the decoder accepts one block: in
    the file built around that block the node region spans 20 bytes, its
    count of 1 times the record size is 16, and the analyzer is
    constructed. *)
Lemma loadInternal_corrupt_counterexample :
  ~ (exists (decodeComplex : list byte -> LoadError + ComplexData.t)
       (block : list byte) (complexData : ComplexData.t),
       decodeComplex block = inr complexData /\
       Z.of_nat (length block) < 2 ^ 32 /\
       forall file : list byte,
         let h := readHeader (take (Z.to_nat sizeofHeader) file) in
         sizeofHeader <= Z.of_nat (length file) ->
         string_of_list_byte (Magic h) = "DAW7" ->
         (exists r, r ∈ regionTable h /\
            regionLength (Z.of_nat (length file)) h r.1.1 <> r.1.2 * r.2) ->
         exists e, loadInternal decodeComplex file = Err e).
Proof.
  intros (decodeComplex & block & complexData & Hdec & Hlen & Hclaim).
  assert (Hfile : Z.of_nat (length (corruptFile block))
                  = 172 + Z.of_nat (length block)).
  { unfold corruptFile. rewrite length_app, length_corruptPrefix. lia. }
  destruct (corruptFile_loads decodeComplex block complexData Hlen Hdec)
    as [a Ha].
  specialize (Hclaim (corruptFile block)). cbv zeta in Hclaim.
  rewrite corruptFile_header, Hfile in Hclaim by lia.
  destruct Hclaim as [e He].
  - unfold sizeofHeader. lia.
  - reflexivity.
  - exists (120, 1, sizeofFlatNode). split; [left|].
    unfold regionLength. cbn [fst snd].
    assert (E : filter (fun o => 120 < o)
                  ((fun r : Z * Z * Z => r.1.1)
                     <$> regionTable
                           (corruptHeader (Z.of_nat (length block))))
                = [140; 140; 140; 156; 156])
      by (vm_compute; reflexivity).
    cbv zeta. rewrite E. cbn [foldr]. unfold sizeofFlatNode. lia.
  - rewrite Ha in He. discriminate.
Qed.

(** * Further properties of the code *)

(** ** The graph: the edges found and the paths spelled *)

(** X1.  [findChildGeneral] never invents an edge: when it reports a child,
    the edge window of the node holds an edge with the character that leads
    to this child, whether or not the window is sorted; when it reports
    none, the child index returned is 0. *)
Theorem findChildGeneral_sound (nodeIndex : Z) (char : rune)
    (nodes : list FlatNode.t) (edges : list FlatEdge.t) (c : Z) (b : bool) :
  findChildGeneral nodeIndex char nodes edges = Some (c, b) ->
  if b
  then exists n w e,
      index nodes nodeIndex = Some n /\
      window edges (FlatNode.EdgesIdx n) (FlatNode.EdgesLen n) = Some w /\
      e ∈ w /\ FlatEdge.Char e = char /\ FlatEdge.NodeID e = c
  else c = 0.
Proof.
  intros Hf. destruct b.
  - exact (findChildGeneral_found nodes edges nodeIndex char c true Hf
             eq_refl).
  - unfold findChildGeneral in Hf.
    destruct (index nodes nodeIndex) as [n|]; [|discriminate].
    cbn [mbind option_bind] in Hf.
    destruct (FlatNode.EdgesLen n =? 0); [congruence|].
    destruct (window edges _ _) as [w|]; [|discriminate].
    cbn [mbind option_bind] in Hf. cbv zeta in Hf.
    destruct (w !! _) as [e|]; [|congruence].
    destruct (_ && _); congruence.
Qed.

(** X1 at node 1 of the small lexicon, on the character [b]. *)
Lemma findChildGeneral_sound_witness :
  findChildGeneral 1 98 (nodes demo) (edges demo) = Some (2, true) /\
  exists n w e,
    index (nodes demo) 1 = Some n /\
    window (edges demo) (FlatNode.EdgesIdx n) (FlatNode.EdgesLen n) = Some w /\
    e ∈ w /\ FlatEdge.Char e = 98 /\ FlatEdge.NodeID e = 2.
Proof.
  split; [reflexivity|].
  exact (findChildGeneral_sound 1 98 (nodes demo) (edges demo) 2 true
           eq_refl).
Defined.

(** X2.  The walk over a concatenation is the walk over the first part
    followed, from the node reached, by the walk over the second part: a
    word is spelled from a node exactly when its leading part is spelled to
    some node and the rest is spelled from there. *)
Theorem walk_concat (nodes : list FlatNode.t) (edges : list FlatEdge.t)
    (i c : Z) (l1 l2 : list rune) :
  walk nodes edges i (l1 ++ l2) = Some (c, true) <->
  exists m, walk nodes edges i l1 = Some (m, true) /\
    walk nodes edges m l2 = Some (c, true).
Proof.
  rewrite walk_app. split.
  - destruct (walk nodes edges i l1) as [[m [|]]|]; [eauto|discriminate..].
  - intros (m & -> & Hm). exact Hm.
Qed.

(** A successful walk follows a path of edges. *)
Lemma walk_path a cs : forall i j,
  walk (nodes a) (edges a) i cs = Some (j, true) -> path a i cs j.
Proof.
  induction cs as [|ch cs IH]; intros i j Hw; cbn [walk] in Hw.
  - injection Hw as <-. constructor.
  - destruct (findChildGeneral i ch (nodes a) (edges a)) as [[c b]|] eqn:Hf;
      [|discriminate].
    cbn [mbind option_bind] in Hw. destruct b; [|discriminate].
    destruct (findChildGeneral_found _ _ _ _ _ _ Hf eq_refl)
      as (n & w & e & Hn & Hw' & He & <- & <-).
    econstructor; eauto.
Qed.

(** In a sorted window the binary search finds every edge. *)
Lemma findChildGeneral_finds nodes edges i n w e :
  index nodes i = Some n ->
  window edges (FlatNode.EdgesIdx n) (FlatNode.EdgesLen n) = Some w ->
  StronglySorted (fun e1 e2 => FlatEdge.Char e1 < FlatEdge.Char e2) w ->
  e ∈ w ->
  findChildGeneral i (FlatEdge.Char e) nodes edges
  = Some (FlatEdge.NodeID e, true).
Proof.
  intros Hn Hw Hs He. unfold findChildGeneral.
  rewrite Hn. cbn [mbind option_bind].
  destruct (Z.eqb_spec (FlatNode.EdgesLen n) 0) as [E|E].
  - exfalso. unfold window in Hw. apply slice_Some in Hw as (Hb & _ & ->).
    rewrite E, Z.add_0_r in Hb.
    assert (Hnil : wrap32 (FlatNode.EdgesIdx n) - FlatNode.EdgesIdx n <= 0).
    { unfold wrap32.
      pose proof (Z.mod_le (FlatNode.EdgesIdx n) (2 ^ 32) ltac:(lia)
                    ltac:(lia)). lia. }
    rewrite E, Z.add_0_r in He.
    replace (Z.to_nat _) with 0%nat in He by lia.
    rewrite take_0 in He. apply elem_of_nil in He. exact He.
  - rewrite Hw. cbn [mbind option_bind]. cbv zeta.
    destruct (Search_finds w (FlatEdge.Char e) e Hs He eq_refl)
      as ([_ Hr] & ->).
    apply Z.ltb_lt in Hr as ->. rewrite Z.eqb_refl. reflexivity.
Qed.

(** With sorted windows, every path of edges is walked. *)
Lemma path_walk a i cs j :
  sorted_windows (nodes a) (edges a) ->
  path a i cs j -> walk (nodes a) (edges a) i cs = Some (j, true).
Proof.
  intros Hs. induction 1 as [i|i n w e cs j Hn Hw He _ IH];
    [reflexivity|].
  cbn [walk]. apply index_lookup in Hn as Hn'. destruct Hn' as [_ Hl].
  rewrite (findChildGeneral_finds _ _ i n w e Hn Hw (Hs _ _ _ Hl Hw) He).
  cbn [mbind option_bind]. exact IH.
Qed.

(** ** The depth-first generation, by paths *)

Section Paths.
Variable a : MorphAnalyzer.

Lemma findWord_sound fuel : forall prefix targetID i suffix results r,
  findWord a fuel prefix targetID i suffix results = Some r ->
  forall k v, r !! k = Some v ->
    results !! k = Some v \/
    exists cs j, path a i cs j /\ emits a targetID j v /\
      k = string_of_runes (prefix ++ suffix ++ cs).
Proof.
  induction fuel as [|fuel IH]; intros prefix targetID i suffix results r;
    [discriminate|].
  cbn [findWord]. destruct (index (nodes a) i) as [n|] eqn:Hn; [|discriminate].
  cbn [mbind option_bind].
  set (Q := fun b : gmap string Z =>
         forall k v, b !! k = Some v ->
           results !! k = Some v \/
           exists cs j, path a i cs j /\ emits a targetID j v /\
             k = string_of_runes (prefix ++ suffix ++ cs)).
  assert (Hstep : forall out,
    window (edges a) (FlatNode.EdgesIdx n) (FlatNode.EdgesLen n) = Some out ->
    forall b e b', e ∈ out ->
      findWord a fuel prefix targetID (FlatEdge.NodeID e)
        (suffix ++ [FlatEdge.Char e]) b = Some b' -> Q b -> Q b').
  { intros out Hout b e b' He Hf Hb k v Hk.
    destruct (IH _ _ _ _ _ _ Hf k v Hk) as [Hl|(cs & j & Hp & Hem & ->)];
      [auto|].
    right. exists (FlatEdge.Char e :: cs), j. split; [|split; [exact Hem|]].
    - econstructor; eassumption.
    - rewrite <- (app_assoc suffix). reflexivity. }
  destruct (FlatNode.IsFinal n) eqn:Hfin.
  - destruct (payloadsOf (payloads a) n) as [infos|] eqn:Hp; [|discriminate].
    cbn [mbind option_bind].
    destruct (window (edges a) _ _) as [out|] eqn:Hout; [|discriminate].
    cbn [mbind option_bind]. intros Hr.
    apply (foldM_ind Q _ out (Hstep out eq_refl) _ r Hr).
    intros k v [Hl|(-> & info & Hin & Hpid & Ht)]%emitForms_lookup; [auto|].
    right. exists [], i. split; [constructor|]. split.
    + exists n, infos, info. repeat split; assumption.
    + rewrite app_nil_r. reflexivity.
  - cbn [mbind option_bind].
    destruct (window (edges a) _ _) as [out|] eqn:Hout; [|discriminate].
    cbn [mbind option_bind]. intros Hr.
    apply (foldM_ind Q _ out (Hstep out eq_refl) _ r Hr).
    intros k v Hk. auto.
Qed.

Lemma findWord_complete targetID i cs j v :
  path a i cs j -> emits a targetID j v ->
  forall fuel prefix suffix results r,
    findWord a fuel prefix targetID i suffix results = Some r ->
    is_Some (r !! string_of_runes (prefix ++ suffix ++ cs)).
Proof.
  intros Hpath (node & infos & info & Hnode & Hfin & Hps & Hin & Hpid & _).
  induction Hpath as [i|i n w e cs j Hn Hw He _ IH];
    intros fuel prefix suffix results r Hfw;
    (destruct fuel as [|fuel]; [discriminate|]); cbn [findWord] in Hfw.
  - rewrite Hnode in Hfw. cbn [mbind option_bind] in Hfw.
    rewrite Hfin, Hps in Hfw. cbn [mbind option_bind] in Hfw.
    destruct (window (edges a) _ _) as [out|]; [|discriminate].
    cbn [mbind option_bind] in Hfw. rewrite app_nil_r.
    apply (foldM_ind (fun b => is_Some (b !! _)) _ out
             (fun b e b' _ Hf => findWord_mono _ _ _ _ _ _ b b' _ Hf) _ r Hfw).
    eapply emitForms_hit; eassumption.
  - rewrite Hn in Hfw. cbn [mbind option_bind] in Hfw.
    destruct (if FlatNode.IsFinal n then _ else _) as [results'|];
      [|discriminate].
    cbn [mbind option_bind] in Hfw. rewrite Hw in Hfw.
    cbn [mbind option_bind] in Hfw.
    refine (foldM_reach
              (fun b => is_Some (b !! string_of_runes
                                        (prefix ++ suffix
                                         ++ FlatEdge.Char e :: cs)))
              _ w e He _ _ _ r Hfw).
    + intros b b' Hf.
      replace (prefix ++ suffix ++ FlatEdge.Char e :: cs)
        with (prefix ++ (suffix ++ [FlatEdge.Char e]) ++ cs)
        by (rewrite <- (app_assoc suffix); reflexivity).
      eapply IH; [assumption|exact Hf].
    + intros b y b' Hf. eapply findWord_mono, Hf.
Qed.

End Paths.

Lemma dfsGenerate_keys (a : MorphAnalyzer) nodeIndex prefix targetID
    (results r : gmap string Z) :
  dfsGenerate a nodeIndex prefix targetID results = Some r ->
  forall k, is_Some (r !! k) <->
    is_Some (results !! k) \/
    exists cs j v, path a nodeIndex cs j /\ emits a targetID j v /\
      k = string_of_runes (prefix ++ cs).
Proof.
  unfold dfsGenerate. intros Hr k.
  pose proof (findWord_sound a _ _ _ _ _ _ _ Hr) as Hsound.
  cbn [app] in Hsound. split.
  - intros [v Hv]. destruct (Hsound k v Hv) as [Hl|(cs & j & Hp & He & ->)];
      [left; eauto|right; eauto 6].
  - intros [Hk|(cs & j & v & Hp & He & ->)].
    + eapply findWord_mono; eassumption.
    + exact (findWord_complete a _ _ _ _ _ Hp He _ _ _ _ _ Hr).
Qed.

(** X3.  [dfsGenerate] adds to the result map exactly the forms spelled by
    the prefix and a path of edges from the start node to a final node that
    has a payload entry of the target paradigm; the entries that were in the
    map stay; and every tag index recorded under a key is one that was there
    before or the [TagsID] of such a payload entry at the end of a path that
    spells the key. *)
Theorem dfsGenerate_exact (a : MorphAnalyzer) (nodeIndex : Z)
    (prefix : list rune) (targetID : Z) (results r : gmap string Z) :
  dfsGenerate a nodeIndex prefix targetID results = Some r ->
  (forall k, is_Some (r !! k) <->
     is_Some (results !! k) \/
     exists cs j v, path a nodeIndex cs j /\ emits a targetID j v /\
       k = string_of_runes (prefix ++ cs)) /\
  (forall k v, r !! k = Some v ->
     results !! k = Some v \/
     exists cs j, path a nodeIndex cs j /\ emits a targetID j v /\
       k = string_of_runes (prefix ++ cs)).
Proof.
  intros Hr. split; [exact (dfsGenerate_keys a _ _ _ _ _ Hr)|].
  exact (findWord_sound a _ _ _ _ _ _ _ Hr).
Qed.

(** X3 on the small lexicon: the forms of paradigm 1 from the anchor of the
    stem [a]. *)
Lemma dfsGenerate_exact_witness :
  exists r, dfsGenerate demo 1 [97] 1 ∅ = Some r /\
    (forall k, is_Some (r !! k) <->
       is_Some ((∅ : gmap string Z) !! k) \/
       exists cs j v, path demo 1 cs j /\ emits demo 1 j v /\
         k = string_of_runes ([97] ++ cs)) /\
    (forall k v, r !! k = Some v ->
       (∅ : gmap string Z) !! k = Some v \/
       exists cs j, path demo 1 cs j /\ emits demo 1 j v /\
         k = string_of_runes ([97] ++ cs)).
Proof.
  destruct (dfsGenerate demo 1 [97] 1 ∅) as [r|] eqn:Hr;
    [|vm_compute in Hr; discriminate].
  exists r. split; [reflexivity|].
  exact (dfsGenerate_exact demo 1 [97] 1 ∅ r Hr).
Defined.

(** ** The forms of a paradigm *)

Lemma generateAll_keys (a : MorphAnalyzer) pID infos
    (results r : gmap string Z) :
  generateAll a pID infos results = Some r ->
  forall k, is_Some (r !! k) <->
    is_Some (results !! k) \/
    exists pInfo cs j v, pInfo ∈ infos /\
      path a (ParadigmInfo.NodeID pInfo) cs j /\ emits a pID j v /\
      k = string_of_runes (runes (ParadigmInfo.Stem pInfo) ++ cs).
Proof.
  intros Hr k. unfold generateAll in Hr.
  rewrite (foldM_dom _
             (fun pInfo k =>
                exists cs j v,
                  path a (ParadigmInfo.NodeID pInfo) cs j /\
                  emits a pID j v /\
                  k = string_of_runes (runes (ParadigmInfo.Stem pInfo) ++ cs))
             (fun m x m' Hd => dfsGenerate_keys a _ _ _ m m' Hd)
             infos results r Hr k).
  split; (intros [Hl|Hx]; [left; exact Hl|right]).
  - destruct Hx as (pInfo & Hin & cs & j & v & Hx). eauto 8.
  - destruct Hx as (pInfo & cs & j & v & Hin & Hx). eauto 8.
Qed.

(** X4.  The form list of [getFormsByParadigmID] is sorted strictly
    ascending, so it has no duplicates, and it holds exactly the forms that
    the paradigm spells from its stems (none for a paradigm that is not in
    the table). *)
Theorem getFormsByParadigmID_exact `{GoRuntime} (a : MorphAnalyzer) (pID : Z)
    (forms : list string) :
  getFormsByParadigmID a pID = Some forms ->
  StronglySorted (fun x y => String.ltb x y = true) forms /\
  NoDup forms /\
  (forall form, form ∈ forms <-> spells a pID form).
Proof.
  unfold getFormsByParadigmID.
  destruct (paradigms a !! pID) as [stems|] eqn:Hst.
  - destruct (generateAll a pID stems ∅) as [m|] eqn:Hm; [|discriminate].
    cbn [mbind option_bind]. intros Hf.
    assert (Hperm : forms ≡ₚ map fst (map_to_list m)).
    { destruct (Z.eqb_spec (Z.of_nat (size m)) 0) as [Hz|Hnz];
        injection Hf as <-.
      - assert (Hm0 : m = ∅) by (apply map_size_empty_inv; lia).
        rewrite Hm0, map_to_list_empty. reflexivity.
      - rewrite (sort_Slice_perm _ String.ltb), (map_range_perm _ _ m).
        reflexivity. }
    assert (Hnd : NoDup forms).
    { rewrite Hperm. apply (NoDup_fst_map_to_list m). }
    split; [|split; [exact Hnd|]].
    + apply (sorted_strict id); [|rewrite map_id; exact Hnd].
      destruct (Z.of_nat (size m) =? 0); injection Hf as <-; [constructor|].
      apply (sort_Slice_sorted _ String.ltb), String_ltb_StrictWeak.
    + intros form. rewrite Hperm, elem_of_map_fst_to_list.
      rewrite (generateAll_keys a _ _ _ _ Hm form), lookup_empty.
      split.
      * intros [[? [=]]|(pInfo & cs & j & v & Hin & Hp & He & ->)].
        exists stems, pInfo, cs, j, v. auto.
      * intros (stems' & pInfo & cs & j & v & Hst' & Hin & Hp & He & ->).
        right. rewrite Hst in Hst'. injection Hst' as <-. eauto 8.
  - intros [= <-]. split; [constructor|]. split; [constructor|].
    intros form. split.
    + intros []%elem_of_nil.
    + intros (stems & ? & ? & ? & ? & Hst' & _). rewrite Hst in Hst'.
      discriminate.
Qed.

(** X4 on the small lexicon, for paradigm 1. *)
Lemma getFormsByParadigmID_exact_witness :
  getFormsByParadigmID demo 1 = Some ["ab"; "abc"] /\
  StronglySorted (fun x y => String.ltb x y = true) ["ab"; "abc"] /\
  NoDup ["ab"; "abc"] /\
  (forall form, form ∈ ["ab"; "abc"] <-> spells demo 1 form).
Proof.
  split; [vm_compute; reflexivity|].
  apply (getFormsByParadigmID_exact demo 1 ["ab"; "abc"]).
  vm_compute. reflexivity.
Defined.

(** ** Inflection: where a record comes from *)

Section Records.
Context `{GoRuntime} (a : MorphAnalyzer).

Lemma addParadigm_built (toProcess : gmap Z string) m entry m' :
  entry ∈ map_range toProcess ->
  addParadigm a m entry = Some m' ->
  (forall k p, m !! k = Some p ->
     exists pID lemma, toProcess !! pID = Some lemma /\
       built_from a pID lemma p) ->
  forall k p, m' !! k = Some p ->
    exists pID lemma, toProcess !! pID = Some lemma /\ built_from a pID lemma p.
Proof.
  destruct entry as [pID lemma]. intros Hl%elem_of_map_range.
  unfold addParadigm.
  destruct (paradigms a !! pID) as [stems|] eqn:Hst;
    [|intros [= <-]; auto].
  intros Hfold.
  set (Q := fun m : gmap string Parsed =>
         forall k p, m !! k = Some p ->
           exists pID lemma, toProcess !! pID = Some lemma /\
             built_from a pID lemma p).
  refine (foldM_ind Q _ stems _ m m' Hfold).
  clear m m' Hfold. intros m pInfo m' HpInfo Hstem Hm.
  unfold addStem in Hstem.
  destruct (dfsGenerate a _ _ pID ∅) as [gen|] eqn:Hgen; [|discriminate].
  cbn [mbind option_bind] in Hstem.
  refine (foldM_ind Q _ (map_range gen) _ m m' Hstem Hm).
  clear m m' Hstem Hm. intros m [form tagsID] m' Hin%elem_of_map_range.
  unfold addForm. destruct (m !! form) as [q|] eqn:Hq; [intros [= <-]; auto|].
  destruct (index (tagsPool a) tagsID) as [tags|] eqn:Htags; [|discriminate].
  cbn [mbind option_bind]. intros [= <-] Hm k p.
  destruct (decide (k = form)) as [->|Hne].
  - rewrite lookup_insert_eq. intros [= <-].
    exists pID, lemma. split; [exact Hl|].
    destruct (newParsed_keeps form lemma tags) as (Hw & _ & _).
    exists stems, pInfo, gen, tagsID, tags. rewrite Hw. auto 7.
  - rewrite lookup_insert_ne by congruence. apply Hm.
Qed.

End Records.

(** X5.  Every record that [Inflect] returns is built from one paradigm of
    the word: the paradigm is among those of the terminal node of the word,
    one of its stems generates the form of the record, and the record is
    [newParsed] of that form, the lemma kept for the paradigm and the tag
    string generated with the form. *)
Theorem Inflect_records `{GoRuntime} (a : MorphAnalyzer) (word : string)
    (r : list Parsed) (p : Parsed) :
  Inflect a word = Some r -> p ∈ r ->
  exists toProcess pID lemma,
    paradigmsToProcess a word = Some toProcess /\
    toProcess !! pID = Some lemma /\
    built_from a pID lemma p.
Proof.
  intros Hi Hp.
  assert (Hparse : Parse a word <> Some []).
  { intros Hnil. unfold Inflect in Hi. rewrite Hnil in Hi. cbn in Hi.
    injection Hi as <-. apply elem_of_nil in Hp. exact Hp. }
  destruct (Inflect_inv a word r Hi Hparse) as (tp & fr & Htp & Hfr & ->).
  exists tp.
  rewrite (sort_Slice_perm _ lessWord) in Hp.
  apply list_elem_of_fmap in Hp as ([k p'] & -> & Hin%elem_of_map_range).
  cbn [snd].
  enough (Hall : forall k p, fr !! k = Some p ->
            exists pID lemma, tp !! pID = Some lemma /\
              built_from a pID lemma p).
  { destruct (Hall k p' Hin) as (pID & lemma & Hl & Hb). eauto. }
  refine (foldM_ind
            (fun m : gmap string Parsed =>
               forall k p, m !! k = Some p ->
                 exists pID lemma, tp !! pID = Some lemma /\
                   built_from a pID lemma p)
            _ (map_range tp)
            (fun b x b' Hx Hf => addParadigm_built a tp b x b' Hx Hf)
            ∅ fr Hfr _).
  intros k0 p0. rewrite lookup_empty. discriminate.
Qed.

(** X5 on the small lexicon: the record of the form [abc] among the forms
    of [ab]. *)
Lemma Inflect_records_witness :
  exists r p,
    Inflect demo "ab" = Some r /\ p ∈ r /\
    exists toProcess pID lemma,
      paradigmsToProcess demo "ab" = Some toProcess /\
      toProcess !! pID = Some lemma /\
      built_from demo pID lemma p.
Proof.
  destruct (Inflect demo "ab") as [r|] eqn:Hr;
    [|vm_compute in Hr; discriminate].
  destruct (last r) as [p|] eqn:Hp.
  - exists r, p. split; [reflexivity|].
    assert (Hin : p ∈ r).
    { apply last_Some in Hp as [l' ->]. apply elem_of_app. right.
      apply list_elem_of_singleton. reflexivity. }
    split; [exact Hin|].
    exact (Inflect_records demo "ab" r p Hr Hin).
  - exfalso. apply last_None in Hp. subst r.
    assert (E : length <$> Inflect demo "ab" = Some 2%nat)
      by (vm_compute; reflexivity).
    rewrite Hr in E. discriminate.
Defined.

(** ** Letter case and the word itself *)

Lemma Parse_lower_runtimes (rt1 rt2 : GoRuntime) (a : MorphAnalyzer)
    (w1 w2 : string) :
  @ToLower rt1 w1 = @ToLower rt2 w2 ->
  @Parse rt1 a w1 = map (set_Word w1) <$> @Parse rt2 a w2.
Proof.
  intros Hlow. unfold Parse. cbv zeta. rewrite Hlow.
  destruct (walk _ _ 0 _) as [[cur found]|]; [|reflexivity].
  cbn [mbind option_bind]. destruct found; cbn [negb]; [|reflexivity].
  destruct (index _ cur) as [node|]; [|reflexivity].
  cbn [mbind option_bind].
  destruct (FlatNode.IsFinal node); cbn [negb]; [|reflexivity].
  destruct (payloadsOf _ node) as [infos|]; [|reflexivity].
  cbn [mbind option_bind].
  induction infos as [|info infos IH]; [reflexivity|].
  cbn [mapM]. destruct (index (LemmaPool a) _) as [lemma|]; [|reflexivity].
  cbn [mbind option_bind].
  destruct (index (tagsPool a) _) as [tags|]; [|reflexivity].
  cbn [mbind option_bind]. rewrite IH. clear IH.
  destruct (mapM _ infos) as [ps|]; [|reflexivity].
  cbn. rewrite (newParsed_set_Word w1 w2). reflexivity.
Qed.

(** The surface forms of one call of [Inflect]. *)
Lemma Inflect_form_set `{GoRuntime} (a : MorphAnalyzer) (word : string)
    (r : list Parsed) :
  Inflect a word = Some r ->
  forall form, form ∈ map Word r <->
    Parse a word <> Some [] /\
    exists tp pID, paradigmsToProcess a word = Some tp /\
      is_Some (tp !! pID) /\ generates a pID form.
Proof.
  intros Hi form.
  assert (Hcase : Parse a word = Some [] \/ Parse a word <> Some []).
  { destruct (Parse a word) as [[|? ?]|]; [left; reflexivity|right..];
      discriminate. }
  destruct Hcase as [Hp|Hp].
  { unfold Inflect in Hi. rewrite Hp in Hi. cbn in Hi. injection Hi as <-.
    split; [intros []%elem_of_nil|intros [Hne _]; contradiction]. }
  destruct (Inflect_inv a word r Hi Hp) as (tp & fr & Htp & Hfr & Hr).
  rewrite (Inflect_words a r tp fr Hfr Hr), elem_of_map_fst_to_list.
  rewrite (foldM_dom (addParadigm a) (fun e k => generates a e.1 k)
             (addParadigm_dom a) _ _ _ Hfr form).
  rewrite lookup_empty. split.
  - intros [[? [=]]|([pID lemma] & Hin%elem_of_map_range & Hg)].
    split; [exact Hp|]. exists tp, pID. eauto.
  - intros (_ & tp' & pID & Htp' & [lemma Hl] & Hg).
    rewrite Htp in Htp'. injection Htp' as <-.
    right. exists (pID, lemma).
    split; [apply elem_of_map_range, Hl|exact Hg].
Qed.

Lemma StronglySorted_map_Word (r : list Parsed) :
  StronglySorted (fun x y => String.ltb (Word x) (Word y) = true) r ->
  StronglySorted (fun x y => String.ltb x y = true) (map Word r).
Proof.
  induction 1 as [|p r _ IH Hall]; cbn [map]; constructor; [exact IH|].
  rewrite List.Forall_forall in Hall. apply List.Forall_forall.
  intros w (q & <- & Hq)%in_map_iff. exact (Hall q Hq).
Qed.

(** X6.  The surface forms of [Inflect] depend on the word only through its
    lower-case form, and on nothing that the run time leaves open: two
    calls, under any two orders of map iteration and any two sorts, on words
    with the same lower-case form return the same surface forms in the same
    order.  (The records under the forms may differ.) *)
Theorem Inflect_lower_forms (rt1 rt2 : GoRuntime) (a : MorphAnalyzer)
    (w1 w2 : string) (r1 r2 : list Parsed) :
  @ToLower rt1 w1 = @ToLower rt2 w2 ->
  @Inflect rt1 a w1 = Some r1 -> @Inflect rt2 a w2 = Some r2 ->
  map Word r1 = map Word r2.
Proof.
  intros Hlow H1 H2.
  destruct (@Inflect_strictly_sorted rt1 a w1 r1 H1) as [Hs1 Hnd1].
  destruct (@Inflect_strictly_sorted rt2 a w2 r2 H2) as [Hs2 Hnd2].
  apply (StronglySorted_unique_strong
           (fun x y : string => String.ltb x y = true)).
  - intros x y _ _ Hxy Hyx.
    destruct String_ltb_StrictWeak as [Hasym _].
    rewrite (Hasym x y Hxy) in Hyx. discriminate.
  - apply StronglySorted_map_Word, Hs1.
  - apply StronglySorted_map_Word, Hs2.
  - apply NoDup_Permutation; [exact Hnd1|exact Hnd2|].
    intros form.
    rewrite (@Inflect_form_set rt1 a w1 r1 H1 form),
      (@Inflect_form_set rt2 a w2 r2 H2 form).
    assert (Htp : @paradigmsToProcess rt1 a w1 = @paradigmsToProcess rt2 a w2)
      by (unfold paradigmsToProcess; rewrite Hlow; reflexivity).
    assert (Hp : @Parse rt1 a w1 <> Some [] <-> @Parse rt2 a w2 <> Some []).
    { rewrite (Parse_lower_runtimes rt1 rt2 a w1 w2 Hlow).
      destruct (@Parse rt2 a w2) as [[|p ps]|]; cbn; split; congruence. }
    rewrite Htp, Hp. reflexivity.
Qed.

(** X6 on the small lexicon: [Ab] under the reference run time and [aB]
    under the one that visits maps in the opposite order. *)
Lemma Inflect_lower_forms_witness :
  exists r1 r2,
    @Inflect refRuntime demo "Ab" = Some r1 /\
    @Inflect revRuntime demo "aB" = Some r2 /\
    r1 <> r2 /\ map Word r1 = map Word r2.
Proof.
  destruct (@Inflect refRuntime demo "Ab") as [r1|] eqn:H1;
    [|vm_compute in H1; discriminate].
  destruct (@Inflect revRuntime demo "aB") as [r2|] eqn:H2;
    [|vm_compute in H2; discriminate].
  exists r1, r2. split; [reflexivity|]. split; [reflexivity|]. split.
  - intros ->.
    assert (E : (map Lemma_ <$> @Inflect refRuntime demo "Ab")
                <> (map Lemma_ <$> @Inflect revRuntime demo "aB"))
      by (vm_compute; discriminate).
    apply E. rewrite H1, H2. reflexivity.
  - exact (Inflect_lower_forms refRuntime revRuntime demo "Ab" "aB" r1 r2
             eq_refl H1 H2).
Defined.

Section Own.
Context `{GoRuntime} (a : MorphAnalyzer) (Hwf : wf_lexicon a).

Lemma Inflect_has_form word toProcess pID form :
  Parse a word <> Some [] ->
  paradigmsToProcess a word = Some toProcess ->
  is_Some (toProcess !! pID) -> generates a pID form ->
  exists r p, Inflect a word = Some r /\ p ∈ r /\ Word p = form.
Proof.
  intros Hp Htp [lemma Hl] Hg.
  destruct (Inflect_total a Hwf word) as [r Hi].
  destruct (Inflect_inv a word r Hi Hp) as (tp & fr & Ht & Hfr & Hr).
  rewrite Htp in Ht. injection Ht as <-.
  pose proof (Inflect_words a r toProcess fr Hfr Hr) as Hperm.
  assert (Hin : form ∈ map Word r).
  { rewrite Hperm, elem_of_map_fst_to_list.
    rewrite (foldM_dom (addParadigm a) (fun e k => generates a e.1 k)
               (addParadigm_dom a) _ _ _ Hfr form).
    right. exists (pID, lemma). split; [apply elem_of_map_range, Hl|exact Hg]. }
  apply list_elem_of_fmap in Hin as (p & -> & Hin). eauto.
Qed.

Lemma stem_covers_own word :
  stem_covers a word ->
  exists toProcess pID,
    Parse a word <> Some [] /\
    paradigmsToProcess a word = Some toProcess /\
    is_Some (toProcess !! pID) /\
    generates a pID (string_of_runes (runes (ToLower word))).
Proof.
  intros (cur & node & infos & info & stems & pInfo & rest & Hwalk & Hnode
          & Hfin & Hps & Hin & Hstems & HpInfo & Hrunes & Hstem).
  pose proof (window_subseteq _ _ _ _ Hps) as Hsub.
  destruct (payload_entry_total a Hwf word infos Hsub) as (ps & Hmap & Hlen).
  destruct (paradigmsToProcess_total a Hwf word) as [tp Htp].
  exists tp, (MorphInfo.ParadigmID info).
  split; [|split; [exact Htp|split]].
  - unfold Parse. cbv zeta. rewrite Hwalk. cbn [mbind option_bind negb].
    rewrite Hnode. cbn [mbind option_bind]. rewrite Hfin. cbn [negb].
    rewrite Hps. cbn [mbind option_bind]. rewrite Hmap. intros [= ->].
    destruct infos; [apply elem_of_nil in Hin; contradiction|].
    discriminate.
  - unfold paradigmsToProcess in Htp. cbv zeta in Htp. rewrite Hwalk in Htp.
    cbn [mbind option_bind] in Htp. rewrite Hnode in Htp.
    cbn [mbind option_bind] in Htp. rewrite Hps in Htp.
    cbn [mbind option_bind] in Htp.
    refine (foldM_reach
              (fun m => is_Some (m !! MorphInfo.ParadigmID info))
              _ infos info Hin _ _ _ tp Htp).
    + intros b b'. destruct (index (LemmaPool a) _); [|discriminate].
      cbn. intros [= <-]. rewrite lookup_insert_eq. eauto.
    + intros b y b'. destruct (index (LemmaPool a) _); [|discriminate].
      cbn. intros [= <-] Hb. rewrite lookup_insert_is_Some'. auto.
  - destruct (dfsGenerate_total a Hwf (ParadigmInfo.NodeID pInfo)
                (runes (ParadigmInfo.Stem pInfo)) (MorphInfo.ParadigmID info)
                ∅) as [gen Hgen].
    { eapply wf_anchors; eassumption. }
    exists stems, pInfo, gen. repeat split; try assumption.
    rewrite Hrunes. rewrite Hrunes, walk_app, Hstem in Hwalk.
    exact (findWord_reach a rest _ _ _ _ [] _ _ _ _ _ info Hgen Hwalk Hnode
             Hfin Hps Hin eq_refl).
Qed.

End Own.

(** X7.  A dictionary word is among its own inflected forms: on a
    well-formed lexicon, when a stem of one of the paradigms of the word
    covers it and the lower-case word is valid UTF-8 (decoding and encoding
    it gives it back), [Inflect] returns a record whose [Word] is the
    lower-case word. *)
Theorem Inflect_contains_word `{GoRuntime} (a : MorphAnalyzer)
    (word : string) :
  wf_lexicon a -> stem_covers a word ->
  string_of_runes (runes (ToLower word)) = ToLower word ->
  exists r p, Inflect a word = Some r /\ p ∈ r /\ Word p = ToLower word.
Proof.
  intros Hwf Hc Hvalid.
  destruct (stem_covers_own a Hwf word Hc)
    as (tp & pID & Hp & Htp & Hl & Hg).
  rewrite Hvalid in Hg.
  exact (Inflect_has_form a Hwf word tp pID _ Hp Htp Hl Hg).
Qed.

(** X7 on the small lexicon, for the word [AB]. *)
Lemma Inflect_contains_word_witness :
  wf_lexicon demo /\ stem_covers demo "AB" /\
  string_of_runes (runes (ToLower "AB")) = ToLower "AB" /\
  exists r p, Inflect demo "AB" = Some r /\ p ∈ r /\ Word p = ToLower "AB".
Proof.
  assert (Hc : stem_covers demo "AB").
  { exists 2, (FlatNode.mk 0 2 2 1 true),
      [MorphInfo.mk 0 0 1; MorphInfo.mk 1 1 2], (MorphInfo.mk 0 0 1),
      [ParadigmInfo.mk "a" 1], (ParadigmInfo.mk "a" 1), [98].
    repeat split; try reflexivity; apply list_elem_of_In; left; reflexivity. }
  split; [exact demo_wf|]. split; [exact Hc|]. split; [reflexivity|].
  exact (Inflect_contains_word demo "AB" demo_wf Hc eq_refl).
Defined.

(** ** Dictionary lookup: what [Parse] returns and what it accepts *)

Lemma mapM_Forall2 {A B} (f : A -> option B) (P : A -> B -> Prop) l k :
  (forall x y, x ∈ l -> f x = Some y -> P x y) ->
  mapM f l = Some k -> Forall2 P l k.
Proof.
  intros HP Hm. apply mapM_Some_1 in Hm.
  induction Hm as [|x y l k Hxy _ IH]; constructor.
  - apply HP; [left|exact Hxy].
  - apply IH. intros x' y' Hin. apply HP. right. exact Hin.
Qed.

(** X8.  [Parse] returns one record per payload entry of the node at which
    the lower-case word ends, in the order of the entries: each record
    carries the word as given, the lemma at [LemmaID] and the tag string at
    [TagsID] of its entry.  It returns records only when the word is spelled
    from the root to a final node. *)
Theorem Parse_records `{GoRuntime} (a : MorphAnalyzer) (word : string)
    (ps : list Parsed) :
  Parse a word = Some ps ->
  exists infos,
    infos ⊆ payloads a /\
    Forall2 (fun info p =>
               Word p = word /\
               index (LemmaPool a) (MorphInfo.LemmaID info)
               = Some (Lemma_ p) /\
               index (tagsPool a) (MorphInfo.TagsID info) = Some (Tags p))
      infos ps /\
    (ps <> [] ->
     exists cur node,
       walk (nodes a) (edges a) 0 (runes (ToLower word)) = Some (cur, true) /\
       index (nodes a) cur = Some node /\ FlatNode.IsFinal node = true /\
       payloadsOf (payloads a) node = Some infos).
Proof.
  unfold Parse. cbv zeta.
  destruct (walk (nodes a) (edges a) 0 (runes (ToLower word)))
    as [[cur found]|] eqn:Hw; [|discriminate].
  cbn [mbind option_bind].
  destruct found; cbn [negb];
    [|(intros [= <-]; exists []; split; [intros x []%elem_of_nil|];
      split; [constructor|]; intros []; reflexivity)].
  destruct (index (nodes a) cur) as [node|] eqn:Hn; [|discriminate].
  cbn [mbind option_bind].
  destruct (FlatNode.IsFinal node) eqn:Hfin; cbn [negb];
    [|(intros [= <-]; exists []; split; [intros x []%elem_of_nil|];
      split; [constructor|]; intros []; reflexivity)].
  destruct (payloadsOf (payloads a) node) as [infos|] eqn:Hp; [|discriminate].
  cbn [mbind option_bind]. intros Hm. exists infos.
  split; [exact (window_subseteq _ _ _ _ Hp)|]. split.
  - refine (mapM_Forall2 _ _ infos ps _ Hm). intros info p _.
    destruct (index (LemmaPool a) _) as [lemma|]; [|discriminate].
    destruct (index (tagsPool a) _) as [tags|]; [|discriminate].
    cbn. intros [= <-].
    destruct (newParsed_keeps word lemma tags) as (-> & -> & ->). auto.
  - intros _. exists cur, node. auto.
Qed.

(** X8 on the small lexicon: the two parses of [AB]. *)
Lemma Parse_records_witness :
  exists ps,
    Parse demo "AB" = Some ps /\
    exists infos,
      infos ⊆ payloads demo /\
      Forall2 (fun info p =>
                 Word p = "AB" /\
                 index (LemmaPool demo) (MorphInfo.LemmaID info)
                 = Some (Lemma_ p) /\
                 index (tagsPool demo) (MorphInfo.TagsID info)
                 = Some (Tags p))
        infos ps /\
      (ps <> [] ->
       exists cur node,
         walk (nodes demo) (edges demo) 0 (runes (ToLower "AB"))
         = Some (cur, true) /\
         index (nodes demo) cur = Some node /\
         FlatNode.IsFinal node = true /\
         payloadsOf (payloads demo) node = Some infos).
Proof.
  destruct (Parse demo "AB") as [ps|] eqn:Hp;
    [|vm_compute in Hp; discriminate].
  exists ps. split; [reflexivity|].
  exact (Parse_records demo "AB" ps Hp).
Defined.

(** A word whose lower-case runes are walked from the root to a final node
    gets a record for every payload entry of that node. *)
Lemma Parse_at `{GoRuntime} (a : MorphAnalyzer) (word : string)
    (j : Z) (node : FlatNode.t) (infos : list MorphInfo.t)
    (info : MorphInfo.t) :
  wf_lexicon a ->
  walk (nodes a) (edges a) 0 (runes (ToLower word)) = Some (j, true) ->
  index (nodes a) j = Some node -> FlatNode.IsFinal node = true ->
  payloadsOf (payloads a) node = Some infos -> info ∈ infos ->
  exists ps p,
    Parse a word = Some ps /\ p ∈ ps /\ Word p = word /\
    index (LemmaPool a) (MorphInfo.LemmaID info) = Some (Lemma_ p) /\
    index (tagsPool a) (MorphInfo.TagsID info) = Some (Tags p).
Proof.
  intros Hwf Hw Hn Hfin Hp Hin.
  destruct (payload_entry_total a Hwf word infos (window_subseteq _ _ _ _ Hp))
    as (ps & Hps & _).
  assert (Hall : Forall2 (fun info p =>
                   Word p = word /\
                   index (LemmaPool a) (MorphInfo.LemmaID info)
                   = Some (Lemma_ p) /\
                   index (tagsPool a) (MorphInfo.TagsID info)
                   = Some (Tags p)) infos ps).
  { refine (mapM_Forall2 _ _ infos ps _ Hps). intros info' p _.
    destruct (index (LemmaPool a) _) as [lemma|]; [|discriminate].
    destruct (index (tagsPool a) _) as [tags|]; [|discriminate].
    cbn. intros [= <-].
    destruct (newParsed_keeps word lemma tags) as (-> & -> & ->). auto. }
  apply list_elem_of_lookup in Hin as [i Hi].
  destruct (Forall2_lookup_l _ _ _ _ _ Hall Hi) as (p & Hpi & Hw' & Hl & Ht).
  exists ps, p. split; [|split; [apply list_elem_of_lookup; eauto|auto]].
  unfold Parse. cbv zeta. rewrite Hw. cbn [mbind option_bind negb].
  rewrite Hn. cbn [mbind option_bind]. rewrite Hfin, Hp.
  cbn [negb mbind option_bind]. exact Hps.
Qed.

(** X9.  With sorted edge windows [Parse] accepts every path: on a
    well-formed lexicon, when the runes of the lower-case word label a path
    of edges from the root to a final node, [Parse] returns, for every
    payload entry of that node, a record with the word as given and the
    lemma and tag string of the entry. *)
Theorem Parse_accepts `{GoRuntime} (a : MorphAnalyzer) (word : string)
    (j : Z) (node : FlatNode.t) (infos : list MorphInfo.t)
    (info : MorphInfo.t) :
  wf_lexicon a -> sorted_windows (nodes a) (edges a) ->
  path a 0 (runes (ToLower word)) j ->
  index (nodes a) j = Some node -> FlatNode.IsFinal node = true ->
  payloadsOf (payloads a) node = Some infos -> info ∈ infos ->
  exists ps p,
    Parse a word = Some ps /\ p ∈ ps /\ Word p = word /\
    index (LemmaPool a) (MorphInfo.LemmaID info) = Some (Lemma_ p) /\
    index (tagsPool a) (MorphInfo.TagsID info) = Some (Tags p).
Proof.
  intros Hwf Hs Hpath Hn Hfin Hp Hin.
  apply (Parse_at a word j node infos info Hwf); try assumption.
  apply path_walk; assumption.
Qed.

Lemma demo_sorted : sorted_windows (nodes demo) (edges demo).
Proof. apply sorted_windowsb_sound. vm_compute. reflexivity. Qed.

(** X9 on the small lexicon: the word [AB] and the second payload entry of
    its node. *)
Lemma Parse_accepts_witness :
  wf_lexicon demo /\ sorted_windows (nodes demo) (edges demo) /\
  path demo 0 (runes (ToLower "AB")) 2 /\
  exists ps p,
    Parse demo "AB" = Some ps /\ p ∈ ps /\ Word p = "AB" /\
    index (LemmaPool demo) 1 = Some (Lemma_ p) /\
    index (tagsPool demo) 1 = Some (Tags p).
Proof.
  assert (Hpath : path demo 0 (runes (ToLower "AB")) 2).
  { refine (path_cons demo 0 (FlatNode.mk 0 0 0 1 false) [FlatEdge.mk 97 1]
              (FlatEdge.mk 97 1) [98] 2 eq_refl eq_refl _ _);
      [apply list_elem_of_In; left; reflexivity|].
    refine (path_cons demo 1 (FlatNode.mk 0 1 0 1 false) [FlatEdge.mk 98 2]
              (FlatEdge.mk 98 2) [] 2 eq_refl eq_refl _ (path_nil demo 2)).
    apply list_elem_of_In. left. reflexivity. }
  split; [exact demo_wf|]. split; [exact demo_sorted|]. split; [exact Hpath|].
  refine (Parse_accepts demo "AB" 2 (FlatNode.mk 0 2 2 1 true)
            [MorphInfo.mk 0 0 1; MorphInfo.mk 1 1 2] (MorphInfo.mk 1 1 2)
            demo_wf demo_sorted Hpath eq_refl eq_refl eq_refl _).
  apply list_elem_of_In. right. left. reflexivity.
Defined.

(** ** The predictor *)

(** X10.  A word without characters gets no prediction, on any lexicon: no
    suffix length fits, no array is read, and [ParsePredicted] and [Predict]
    return nothing. *)
Theorem predictor_empty_word `{GoRuntime} (a : MorphAnalyzer)
    (word : string) :
  runes (ToLower word) = [] ->
  findBestPrediction a (ToLower word) = Some None /\
  ParsePredicted a word = Some [] /\
  forall lemma, Predict a word lemma = Some [].
Proof.
  intros Hr.
  assert (Hb : findBestPrediction a (ToLower word) = Some None).
  { unfold findBestPrediction, collectCandidates. cbv zeta. rewrite Hr.
    reflexivity. }
  split; [exact Hb|]. split.
  - unfold ParsePredicted. cbv zeta. rewrite Hb. reflexivity.
  - intros lemma. unfold Predict. cbv zeta. rewrite Hb. reflexivity.
Qed.

(** X10 on the small lexicon, for the empty word. *)
Lemma predictor_empty_word_witness :
  runes (ToLower "") = [] /\
  findBestPrediction demo (ToLower "") = Some None /\
  ParsePredicted demo "" = Some [] /\
  forall lemma, Predict demo "" lemma = Some [].
Proof.
  split; [reflexivity|].
  apply (predictor_empty_word demo ""). reflexivity.
Defined.

(** X11.  The proportional substitution of [ParsePredicted]: when the best
    rule has a lemma in the table, its template form exists, has at least
    [SuffixLen] characters and ends with the suffix of the word, and the
    template lemma starts with the rest of the template form, then the
    predicted lemma is the word without the suffix followed by the template
    lemma without that rest; the record carries the word as given and the
    tag string of the rule. *)
Theorem ParsePredicted_substitution `{GoRuntime} (a : MorphAnalyzer)
    (word : string) (best : PredictionCandidate) (forms : list string)
    (templateWord templateLemma tags : string) (lemmaID : Z) :
  let lowerWord := ToLower word in
  let commonSuffix :=
    string_of_runes (lastn (Z.to_nat (SuffixLen best)) (runes lowerWord)) in
  findBestPrediction a lowerWord = Some (Some best) ->
  getFormsByParadigmID a (PredictInfo.ParadigmID (Info best)) = Some forms ->
  index forms (PredictInfo.FormIdx (Info best)) = Some templateWord ->
  paradigmToLemmaID a !! PredictInfo.ParadigmID (Info best) = Some lemmaID ->
  index (LemmaPool a) lemmaID = Some templateLemma ->
  index (tagsPool a) (PredictInfo.TagsID (Info best)) = Some tags ->
  SuffixLen best <= Z.of_nat (length (runes templateWord)) ->
  HasSuffix templateWord commonSuffix = true ->
  HasPrefix templateLemma (TrimSuffix templateWord commonSuffix) = true ->
  ParsePredicted a word
  = Some [newParsed word
            (String.append (TrimSuffix lowerWord commonSuffix)
               (TrimPrefix templateLemma
                  (TrimSuffix templateWord commonSuffix)))
            tags].
Proof.
  intros lowerWord commonSuffix Hbest Hforms Htw Hid Hlemma Htags Hlen Hsuf
    Hpre.
  destruct (findBestPrediction_rule a _ _ Hbest) as (Hk & Hkl & _).
  apply index_lookup in Htw as Hrange. destruct Hrange as [Hrange _].
  unfold ParsePredicted. cbv zeta. fold lowerWord. rewrite Hbest.
  cbn [mbind option_bind]. rewrite Hforms. cbn [mbind option_bind].
  unfold predictLemma. rewrite Hid.
  replace (Z.of_nat (length forms) =? 0) with false
    by (symmetry; apply Z.eqb_neq; lia).
  replace (Z.of_nat (length forms) <=? PredictInfo.FormIdx (Info best))
    with false by (symmetry; apply Z.leb_gt; lia).
  cbn [orb]. rewrite Htw. cbn [mbind option_bind]. rewrite Hlemma.
  cbn [mbind option_bind].
  replace (Z.of_nat (length (runes templateWord)) <? SuffixLen best)
    with false by (symmetry; apply Z.ltb_ge; lia).
  rewrite slice_lastn by (fold lowerWord; lia). cbn [mbind option_bind].
  fold commonSuffix. rewrite Hsuf. cbn [negb]. rewrite Hpre. cbn [negb].
  cbn [mbind option_bind]. rewrite Htags. reflexivity.
Qed.

(** X11 on the small lexicon: [Xb] follows the template [ab] of lemma
    [abc], and gets the lemma [xbc]. *)
Lemma ParsePredicted_substitution_witness :
  let best := mkCandidate (PredictInfo.mk 9 2 0 1) 1 in
  let commonSuffix :=
    string_of_runes (lastn (Z.to_nat (SuffixLen best))
                       (runes (ToLower "Xb"))) in
  let lemma :=
    String.append (TrimSuffix (ToLower "Xb") commonSuffix)
      (TrimPrefix "abc" (TrimSuffix "ab" commonSuffix)) in
  findBestPrediction demo (ToLower "Xb") = Some (Some best) /\
  getFormsByParadigmID demo 2 = Some ["ab"] /\
  lemma = "xbc" /\
  ParsePredicted demo "Xb" = Some [newParsed "Xb" lemma "Глагол"].
Proof.
  intros best commonSuffix lemma.
  assert (Hbest : findBestPrediction demo (ToLower "Xb") = Some (Some best))
    by (vm_compute; reflexivity).
  assert (Hforms : getFormsByParadigmID demo 2 = Some ["ab"])
    by (vm_compute; reflexivity).
  split; [exact Hbest|]. split; [exact Hforms|].
  split; [vm_compute; reflexivity|].
  refine (ParsePredicted_substitution demo "Xb" best ["ab"] "ab" "abc"
            "Глагол" 1 Hbest Hforms eq_refl eq_refl eq_refl eq_refl _ _ _).
  - vm_compute. discriminate.
  - vm_compute. reflexivity.
  - vm_compute. reflexivity.
Defined.

(** ** The predicted forms *)

Lemma substring_all s : String.substring 0 (String.length s) s = s.
Proof.
  induction s as [|c s IH]; [reflexivity|].
  cbn [String.length substring]. rewrite IH. reflexivity.
Qed.

Lemma HasPrefix_split d p :
  HasPrefix d p = true -> d = String.append p (TrimPrefix d p).
Proof.
  unfold TrimPrefix. intros Hp. rewrite Hp. unfold HasPrefix in Hp.
  revert d Hp. induction p as [|c p IH]; intros d Hp.
  - cbn. rewrite Nat.sub_0_r, substring_all. reflexivity.
  - destruct d as [|c' d]; [discriminate|]. cbn in Hp.
    destruct (ascii_dec c c') as [->|]; [|discriminate].
    cbn [String.length Nat.sub substring].
    change (String c' d
            = String c' (String.append p
                           (substring (String.length p)
                              (String.length d - String.length p) d))).
    f_equal. apply IH, Hp.
Qed.

Lemma append_inj_l x e1 e2 :
  String.append x e1 = String.append x e2 -> e1 = e2.
Proof.
  induction x as [|c x IH]; cbn; [auto|]. intros [= Hx]. auto.
Qed.

Lemma newWord_inj (inputPrefix dictPrefix d d' : string) :
  HasPrefix d dictPrefix = true -> HasPrefix d' dictPrefix = true ->
  String.append inputPrefix (TrimPrefix d dictPrefix)
  = String.append inputPrefix (TrimPrefix d' dictPrefix) ->
  d = d'.
Proof.
  intros Hd Hd' He%append_inj_l.
  rewrite (HasPrefix_split d dictPrefix Hd),
    (HasPrefix_split d' dictPrefix Hd'), He. reflexivity.
Qed.

(** The loop of [Predict] over the generated forms: the new forms are
    pairwise distinct, and each comes from a generated form with the
    template prefix. *)
Lemma Predict_loop (a : MorphAnalyzer) (lemma inputPrefix dictPrefix : string)
    (l : list (string * Z)) : forall acc r,
  foldM (fun results '(dictForm, tagsID) =>
           if HasPrefix dictForm dictPrefix then
             tags ← index (tagsPool a) tagsID;
             let ending := TrimPrefix dictForm dictPrefix in
             let newForm := String.append inputPrefix ending in
             Some (results ++ [newParsed newForm lemma tags])
           else Some results) acc l = Some r ->
  NoDup (map fst l) -> NoDup (map Word acc) ->
  (forall p d t, p ∈ acc -> (d, t) ∈ l -> HasPrefix d dictPrefix = true ->
     Word p <> String.append inputPrefix (TrimPrefix d dictPrefix)) ->
  NoDup (map Word r) /\
  forall p, p ∈ r ->
    p ∈ acc \/
    exists d t, (d, t) ∈ l /\ HasPrefix d dictPrefix = true /\
      Word p = String.append inputPrefix (TrimPrefix d dictPrefix) /\
      Lemma_ p = lemma.
Proof.
  induction l as [|[d t] l IH]; intros acc r Hf Hnd Hacc Hfresh.
  - injection Hf as <-. auto.
  - cbn [foldM] in Hf. change (NoDup (d :: map fst l)) in Hnd.
    apply NoDup_cons in Hnd as [Hd Hnd].
    destruct (HasPrefix d dictPrefix) eqn:Hk.
    + destruct (index (tagsPool a) t) as [tags|]; [|discriminate].
      cbn [mbind option_bind] in Hf. cbv zeta in Hf.
      set (w := String.append inputPrefix (TrimPrefix d dictPrefix)) in *.
      destruct (newParsed_keeps w lemma tags) as (Hw & Hl & _).
      destruct (IH _ r Hf Hnd) as [Hr Hall].
      * rewrite map_app. cbn [map]. rewrite Hw. apply NoDup_app.
        split; [exact Hacc|]. split; [|apply NoDup_singleton].
        intros w' (p & Hwp & Hp)%list_elem_of_fmap Hwd%list_elem_of_singleton.
        apply (Hfresh p d t Hp); [left|exact Hk|]. subst w. congruence.
      * intros p d' t' [Hp| ->%list_elem_of_singleton]%elem_of_app Hin Hk'.
        -- apply (Hfresh p d' t' Hp); [right; exact Hin|exact Hk'].
        -- rewrite Hw. subst w. intros He.
           apply newWord_inj in He; [|assumption..].
           subst d'. apply Hd, list_elem_of_fmap. exists (d, t'). auto.
      * split; [exact Hr|]. intros p Hp.
        destruct (Hall p Hp)
          as [[Hin| ->%list_elem_of_singleton]%elem_of_app
             |(d' & t' & Hin & Hx)].
        -- left. exact Hin.
        -- right. exists d, t. split; [left|auto].
        -- right. exists d', t'. split; [right; exact Hin|exact Hx].
    + cbn [mbind option_bind] in Hf.
      destruct (IH _ r Hf Hnd Hacc) as [Hr Hall].
      * intros p d' t' Hp Hin. apply (Hfresh p d' t' Hp). right. exact Hin.
      * split; [exact Hr|]. intros p Hp.
        destruct (Hall p Hp) as [Hin|(d' & t' & Hin & Hx)]; [auto|].
        right. exists d', t'. split; [right; exact Hin|exact Hx].
Qed.

(** Why [Predict] returns what it returns: nothing, or the sorted records
    of its loop over the forms generated for the template paradigm. *)
Lemma Predict_inv `{GoRuntime} (a : MorphAnalyzer) (word lemma : string)
    (r : list Parsed) :
  Predict a word lemma = Some r ->
  r = [] \/
  exists best forms tw gen results,
    let commonSuffix :=
      string_of_runes (lastn (Z.to_nat (SuffixLen best))
                         (runes (ToLower word))) in
    findBestPrediction a (ToLower word) = Some (Some best) /\
    getFormsByParadigmID a (PredictInfo.ParadigmID (Info best))
    = Some forms /\
    index forms (PredictInfo.FormIdx (Info best)) = Some tw /\
    generateAll a (PredictInfo.ParadigmID (Info best))
      (default [] (paradigms a !! PredictInfo.ParadigmID (Info best))) ∅
    = Some gen /\
    foldM (fun results '(dictForm, tagsID) =>
             if HasPrefix dictForm (TrimSuffix tw commonSuffix) then
               tags ← index (tagsPool a) tagsID;
               let ending :=
                 TrimPrefix dictForm (TrimSuffix tw commonSuffix) in
               let newForm :=
                 String.append (TrimSuffix (ToLower word) commonSuffix)
                   ending in
               Some (results ++ [newParsed newForm lemma tags])
             else Some results) [] (map_range gen) = Some results /\
    r = sort_Slice lessWord results.
Proof.
  unfold Predict. cbv zeta.
  destruct (findBestPrediction a (ToLower word)) as [[best|]|] eqn:Hbest;
    [|intros [= <-]; left; reflexivity|discriminate].
  cbn [mbind option_bind].
  destruct (getFormsByParadigmID a _) as [forms|] eqn:Hforms; [|discriminate].
  cbn [mbind option_bind].
  destruct (_ || _); [intros [= <-]; left; reflexivity|].
  destruct (index forms _) as [tw|] eqn:Htw; [|discriminate].
  cbn [mbind option_bind].
  destruct (_ <? SuffixLen best); [intros [= <-]; left; reflexivity|].
  destruct (slice _ _ _) as [tail|] eqn:Htail; [|discriminate].
  cbn [mbind option_bind].
  destruct (findBestPrediction_rule a _ _ Hbest) as (Hk & Hkl & _).
  rewrite slice_lastn in Htail by lia. injection Htail as <-.
  destruct (HasSuffix tw _); cbn [negb]; [|intros [= <-]; left; reflexivity].
  destruct (generateAll a _ _ ∅) as [gen|] eqn:Hgen; [|discriminate].
  cbn [mbind option_bind].
  destruct (foldM _ [] (map_range gen)) as [results|] eqn:Hres;
    [|discriminate].
  cbn [mbind option_bind].
  destruct (Z.of_nat (length results) =? 0);
    [intros [= <-]; left; reflexivity|].
  intros [= <-]. right. exists best, forms, tw, gen, results. cbv zeta.
  do 3 (split; [solve [reflexivity|assumption]|]).
  split; [exact Hgen|]. split; [exact Hres|reflexivity].
Qed.

(** The forms of [Predict] are pairwise distinct and sorted strictly
    ascending. *)
Lemma Predict_strict `{GoRuntime} (a : MorphAnalyzer) (word lemma : string)
    (r : list Parsed) :
  Predict a word lemma = Some r ->
  StronglySorted (fun x y => String.ltb (Word x) (Word y) = true) r /\
  NoDup (map Word r).
Proof.
  intros [->|(best & forms & tw & gen & results & Hinv)]%Predict_inv;
    [split; constructor|].
  cbv zeta in Hinv. destruct Hinv as (_ & _ & _ & _ & Hres & ->).
  destruct (Predict_loop a lemma _ _ (map_range gen) [] results Hres)
    as [Hnd _].
  { rewrite (map_range_perm _ _ gen). apply (NoDup_fst_map_to_list gen). }
  { constructor. }
  { intros p d t []%elem_of_nil. }
  assert (Hnd' : NoDup (map Word (sort_Slice lessWord results)))
    by (rewrite (sort_Slice_perm _ lessWord); exact Hnd).
  split; [|exact Hnd'].
  apply sorted_strict; [|exact Hnd'].
  apply (sort_Slice_sorted _ lessWord), lessWord_StrictWeak.
Qed.



(** ** Inflection: the lemmas of the forms *)

Lemma paradigmsToProcess_lemma `{GoRuntime} (a : MorphAnalyzer)
    (word : string) toProcess pID lemma :
  paradigmsToProcess a word = Some toProcess ->
  toProcess !! pID = Some lemma ->
  exists cur node infos info,
    walk (nodes a) (edges a) 0 (runes (ToLower word)) = Some (cur, true) /\
    index (nodes a) cur = Some node /\
    payloadsOf (payloads a) node = Some infos /\ info ∈ infos /\
    MorphInfo.ParadigmID info = pID /\
    index (LemmaPool a) (MorphInfo.LemmaID info) = Some lemma.
Proof.
  unfold paradigmsToProcess. cbv zeta.
  destruct (walk _ _ _ _) as [[cur found]|]; [|discriminate].
  cbn [mbind option_bind].
  destruct found; [|intros [= <-]; rewrite lookup_empty; discriminate].
  destruct (index (nodes a) cur) as [node|] eqn:Hn; [|discriminate].
  cbn [mbind option_bind].
  destruct (payloadsOf (payloads a) node) as [infos|] eqn:Hps;
    [|discriminate].
  cbn [mbind option_bind]. intros Hf Hl.
  exists cur, node, infos.
  enough (Hinfo : exists info, info ∈ infos /\
            MorphInfo.ParadigmID info = pID /\
            index (LemmaPool a) (MorphInfo.LemmaID info) = Some lemma).
  { destruct Hinfo as (info & ? & ? & ?). exists info.
    do 5 (split; [solve [reflexivity|assumption]|]). assumption. }
  revert pID lemma Hl.
  refine (foldM_ind
            (fun m : gmap Z string =>
               forall pID lemma, m !! pID = Some lemma ->
                 exists info, info ∈ infos /\
                   MorphInfo.ParadigmID info = pID /\
                   index (LemmaPool a) (MorphInfo.LemmaID info) = Some lemma)
            _ infos _ ∅ toProcess Hf _).
  - intros m info m' Hin Hstep Hm pID lemma.
    destruct (index (LemmaPool a) (MorphInfo.LemmaID info)) as [l|] eqn:Hl;
      [|discriminate].
    cbn in Hstep. injection Hstep as <-.
    destruct (decide (MorphInfo.ParadigmID info = pID)) as [<-|Hne].
    + rewrite lookup_insert_eq. intros [= <-]. eauto.
    + rewrite lookup_insert_ne by exact Hne. apply Hm.
  - intros pID lemma. rewrite lookup_empty. discriminate.
Qed.

(** X13.  The lemma of every record of [Inflect] is the lemma of one of the
    parses that [Parse] gives for the word. *)
Theorem Inflect_lemmas `{GoRuntime} (a : MorphAnalyzer) (word : string)
    (r : list Parsed) (p : Parsed) :
  Inflect a word = Some r -> p ∈ r ->
  exists ps q, Parse a word = Some ps /\ q ∈ ps /\ Lemma_ p = Lemma_ q.
Proof.
  intros Hi Hp.
  assert (Hparse : Parse a word <> Some []).
  { intros Hnil. unfold Inflect in Hi. rewrite Hnil in Hi. cbn in Hi.
    injection Hi as <-. apply elem_of_nil in Hp. exact Hp. }
  destruct (Inflect_inv a word r Hi Hparse) as (tp & fr & Htp & Hfr & ->).
  rewrite (sort_Slice_perm _ lessWord) in Hp.
  apply list_elem_of_fmap in Hp as ([k p'] & -> & Hin%elem_of_map_range).
  cbn [snd].
  assert (Hall : forall k p, fr !! k = Some p ->
            exists pID lemma, tp !! pID = Some lemma /\
              built_from a pID lemma p).
  { refine (foldM_ind
              (fun m : gmap string Parsed =>
                 forall k p, m !! k = Some p ->
                   exists pID lemma, tp !! pID = Some lemma /\
                     built_from a pID lemma p)
              _ (map_range tp)
              (fun b x b' Hx Hf => addParadigm_built a tp b x b' Hx Hf)
              ∅ fr Hfr _).
    intros k0 p0. rewrite lookup_empty. discriminate. }
  destruct (Hall k p' Hin)
    as (pID & lemma & Hl & _ & _ & _ & _ & tags & _ & _ & _ & _ & _ & Hp').
  assert (Hlem : Lemma_ p' = lemma).
  { rewrite Hp'. apply newParsed_keeps. }
  destruct (paradigmsToProcess_lemma a word tp pID lemma Htp Hl)
    as (cur & node & infos & info & Hw & Hn & Hps & Hinfo & _ & Hlm).
  destruct (Parse a word) as [ps|] eqn:HP;
    [|unfold Inflect in Hi; rewrite HP in Hi; discriminate].
  exists ps. unfold Parse in HP. cbv zeta in HP. rewrite Hw in HP.
  cbn [mbind option_bind negb] in HP. rewrite Hn in HP.
  cbn [mbind option_bind] in HP.
  destruct (FlatNode.IsFinal node); cbn [negb] in HP; [|congruence].
  rewrite Hps in HP. cbn [mbind option_bind] in HP.
  assert (HF : Forall2 (fun info q =>
                  index (LemmaPool a) (MorphInfo.LemmaID info)
                  = Some (Lemma_ q)) infos ps).
  { refine (mapM_Forall2 _ _ infos ps _ HP). intros info' q _.
    destruct (index (LemmaPool a) (MorphInfo.LemmaID info')) as [l|];
      [|discriminate].
    destruct (index (tagsPool a) (MorphInfo.TagsID info')) as [t|];
      [|discriminate].
    cbn. intros [= <-].
    destruct (newParsed_keeps word l t) as (_ & -> & _). reflexivity. }
  apply list_elem_of_lookup in Hinfo as [i Hi'].
  destruct (Forall2_lookup_l _ _ _ _ _ HF Hi') as (q & Hq & Hql).
  exists q. split; [reflexivity|]. split; [apply list_elem_of_lookup; eauto|].
  congruence.
Qed.

(** X13 on the small lexicon, for the last form of [ab]. *)
Lemma Inflect_lemmas_witness :
  exists r p,
    Inflect demo "ab" = Some r /\ p ∈ r /\
    exists ps q, Parse demo "ab" = Some ps /\ q ∈ ps /\ Lemma_ p = Lemma_ q.
Proof.
  destruct (Inflect demo "ab") as [r|] eqn:Hr;
    [|vm_compute in Hr; discriminate].
  destruct (last r) as [p|] eqn:Hp.
  - exists r, p. split; [reflexivity|].
    assert (Hin : p ∈ r).
    { apply last_Some in Hp as [l' ->]. apply elem_of_app. right.
      apply list_elem_of_singleton. reflexivity. }
    split; [exact Hin|].
    exact (Inflect_lemmas demo "ab" r p Hr Hin).
  - exfalso. apply last_None in Hp. subst r.
    assert (E : length <$> Inflect demo "ab" = Some 2%nat)
      by (vm_compute; reflexivity).
    rewrite Hr in E. discriminate.
Defined.

(** ** The predicted forms contain the word *)

Lemma substring_split s : forall n m,
  (n + m = String.length s)%nat ->
  String.append (substring 0 n s) (substring n m s) = s.
Proof.
  induction s as [|c s IH]; intros n m Hnm.
  - cbn in Hnm. destruct n, m; try discriminate. reflexivity.
  - destruct n as [|n].
    + cbn [Nat.add] in Hnm. subst m.
      exact (substring_all (String c s)).
    + cbn [substring]. cbn [String.length] in Hnm.
      change (String c (String.append (substring 0 n s) (substring n m s))
              = String c s).
      f_equal. apply IH. lia.
Qed.

Lemma HasSuffix_split s x :
  HasSuffix s x = true -> String.append (TrimSuffix s x) x = s.
Proof.
  unfold TrimSuffix. intros Hs. rewrite Hs. unfold HasSuffix in Hs.
  apply andb_true_iff in Hs as [Hlen%Nat.leb_le Heq%String.eqb_eq].
  rewrite <- Heq at 2. apply substring_split. lia.
Qed.

Lemma HasPrefix_append p e : HasPrefix (String.append p e) p = true.
Proof.
  unfold HasPrefix. induction p as [|c p IH]; [destruct e; reflexivity|].
  change (String.prefix (String c p) (String c (String.append p e)) = true).
  cbn [String.prefix]. destruct (ascii_dec c c); [exact IH|contradiction].
Qed.

Lemma TrimPrefix_append p e : TrimPrefix (String.append p e) p = e.
Proof.
  apply (append_inj_l p). symmetry.
  apply HasPrefix_split, HasPrefix_append.
Qed.

(** X14.  An unknown word is among its own predicted forms: when [Predict]
    returns records and the lower-case word ends with the suffix that the
    best rule matched (it does when it is valid UTF-8), one of the records
    carries the lower-case word. *)
Theorem Predict_contains_word `{GoRuntime} (a : MorphAnalyzer)
    (word lemma : string) (best : PredictionCandidate) (r : list Parsed) :
  findBestPrediction a (ToLower word) = Some (Some best) ->
  HasSuffix (ToLower word)
    (string_of_runes (lastn (Z.to_nat (SuffixLen best))
                        (runes (ToLower word)))) = true ->
  Predict a word lemma = Some r -> r <> [] ->
  exists p, p ∈ r /\ Word p = ToLower word /\ Lemma_ p = lemma.
Proof.
  intros Hbest Hsuf Hp Hne.
  pose proof Hp as Hp'. unfold Predict in Hp'. cbv zeta in Hp'.
  rewrite Hbest in Hp'. cbn [mbind option_bind] in Hp'.
  set (cs := string_of_runes (lastn (Z.to_nat (SuffixLen best))
                                (runes (ToLower word)))) in *.
  destruct (getFormsByParadigmID a _) as [forms|] eqn:Hforms; [|discriminate].
  cbn [mbind option_bind] in Hp'.
  destruct (_ || _); [congruence|].
  destruct (index forms _) as [tw|] eqn:Htw; [|discriminate].
  cbn [mbind option_bind] in Hp'.
  destruct (_ <? SuffixLen best); [congruence|].
  destruct (findBestPrediction_rule a _ _ Hbest) as (Hk & Hkl & _).
  rewrite slice_lastn in Hp' by lia. cbn [mbind option_bind] in Hp'.
  fold cs in Hp'.
  destruct (HasSuffix tw cs) eqn:Htwsuf; cbn [negb] in Hp'; [|congruence].
  destruct (generateAll a _ _ ∅) as [gen|] eqn:Hgen; [|discriminate].
  cbn [mbind option_bind] in Hp'.
  destruct (foldM _ [] (map_range gen)) as [results|] eqn:Hres;
    [|discriminate].
  cbn [mbind option_bind] in Hp'.
  assert (Hr : r ≡ₚ results).
  { destruct (Z.of_nat (length results) =? 0); [congruence|].
    injection Hp' as <-. apply (sort_Slice_perm _ lessWord). }
  (* the template word is one of the generated forms *)
  assert (Hkey : is_Some (gen !! tw)).
  { apply index_lookup in Htw as [_ Htw%list_elem_of_lookup_2].
    unfold getFormsByParadigmID in Hforms.
    destruct (paradigms a !! PredictInfo.ParadigmID (Info best))
      as [stems|] eqn:Hst;
      [|injection Hforms as <-; apply elem_of_nil in Htw; contradiction].
    change (generateAll a (PredictInfo.ParadigmID (Info best)) stems ∅
            = Some gen) in Hgen.
    rewrite Hgen in Hforms.
    cbn [mbind option_bind] in Hforms.
    destruct (Z.of_nat (size gen) =? 0);
      [injection Hforms as <-; apply elem_of_nil in Htw; contradiction|].
    injection Hforms as <-.
    rewrite (sort_Slice_perm _ String.ltb), (map_range_perm _ _ gen) in Htw.
    apply elem_of_map_fst_to_list, Htw. }
  destruct Hkey as [tagsID Hkey%elem_of_map_range].
  assert (Hnew : String.append (TrimSuffix (ToLower word) cs)
                   (TrimPrefix tw (TrimSuffix tw cs)) = ToLower word).
  { rewrite <- (HasSuffix_split tw cs Htwsuf) at 1.
    rewrite TrimPrefix_append. apply HasSuffix_split, Hsuf. }
  assert (Hpre : HasPrefix tw (TrimSuffix tw cs) = true).
  { rewrite <- (HasSuffix_split tw cs Htwsuf) at 1. apply HasPrefix_append. }
  enough (Hex : exists p, p ∈ results /\ Word p = ToLower word /\
                  Lemma_ p = lemma).
  { destruct Hex as (p & Hin & Hw). exists p. rewrite Hr. auto. }
  refine (foldM_reach
            (fun results : list Parsed =>
               exists p, p ∈ results /\ Word p = ToLower word /\
                 Lemma_ p = lemma)
            _ (map_range gen) (tw, tagsID) Hkey _ _ [] results Hres).
  - intros b b'. cbv beta iota. rewrite Hpre.
    destruct (index (tagsPool a) tagsID) as [tags|]; [|discriminate].
    cbn [mbind option_bind]. cbv zeta. intros [= <-].
    eexists. split; [apply elem_of_app; right; apply list_elem_of_singleton;
                     reflexivity|].
    rewrite Hnew. destruct (newParsed_keeps (ToLower word) lemma tags)
      as (-> & -> & _). auto.
  - intros b [d t] b'. cbv beta iota.
    destruct (HasPrefix d _); [|intros [= <-]; auto].
    destruct (index (tagsPool a) t) as [tags|]; [|discriminate].
    cbn [mbind option_bind]. cbv zeta. intros [= <-] (p & Hin & Hw).
    exists p. split; [apply elem_of_app; left; exact Hin|exact Hw].
Qed.

(** X14 on the small lexicon, for the unknown word [Xb]. *)
Lemma Predict_contains_word_witness :
  exists r,
    Predict demo "Xb" "xbc" = Some r /\ r <> [] /\
    exists p, p ∈ r /\ Word p = ToLower "Xb" /\ Lemma_ p = "xbc".
Proof.
  destruct (Predict demo "Xb" "xbc") as [r|] eqn:Hr;
    [|vm_compute in Hr; discriminate].
  assert (Hne : r <> []).
  { intros ->. assert (E : length <$> Predict demo "Xb" "xbc" = Some 1%nat)
      by (vm_compute; reflexivity).
    rewrite Hr in E. discriminate. }
  exists r. split; [reflexivity|]. split; [exact Hne|].
  refine (Predict_contains_word demo "Xb" "xbc"
            (mkCandidate (PredictInfo.mk 9 2 0 1) 1) r _ _ Hr Hne).
  - vm_compute. reflexivity.
  - vm_compute. reflexivity.
Defined.

(** ** [Analyze] and the batch pipeline *)

Lemma Parse_words `{GoRuntime} (a : MorphAnalyzer) (word : string)
    (ps : list Parsed) :
  Parse a word = Some ps -> Forall (fun p => Word p = word) ps.
Proof.
  unfold Parse. cbv zeta.
  destruct (walk _ _ _ _) as [[cur found]|]; [|discriminate].
  cbn [mbind option_bind].
  destruct found; cbn [negb]; [|intros [= <-]; constructor].
  destruct (index (nodes a) cur) as [node|]; [|discriminate].
  cbn [mbind option_bind].
  destruct (FlatNode.IsFinal node); cbn [negb]; [|intros [= <-]; constructor].
  destruct (payloadsOf (payloads a) node) as [infos|]; [|discriminate].
  cbn [mbind option_bind]. intros Hm%mapM_Some_1.
  induction Hm as [|info p infos ps Hp _ IH]; constructor; [|exact IH].
  destruct (index (LemmaPool a) _) as [lemma|]; [|discriminate].
  destruct (index (tagsPool a) _) as [tags|]; [|discriminate].
  cbn in Hp. injection Hp as <-. apply newParsed_keeps.
Qed.

Lemma ParsePredicted_words `{GoRuntime} (a : MorphAnalyzer) (word : string)
    (ps : list Parsed) :
  ParsePredicted a word = Some ps ->
  (length ps <= 1)%nat /\ Forall (fun p => Word p = word) ps.
Proof.
  unfold ParsePredicted. cbv zeta.
  destruct (findBestPrediction a _) as [[best|]|]; [| |discriminate].
  - cbn [mbind option_bind].
    destruct (getFormsByParadigmID a _) as [forms|]; [|discriminate].
    cbn [mbind option_bind].
    destruct (predictLemma a _ best forms) as [lemma|]; [|discriminate].
    cbn [mbind option_bind].
    destruct (index (tagsPool a) _) as [tags|]; [|discriminate].
    cbn [mbind option_bind]. intros [= <-]. split; [reflexivity|].
    constructor; [apply newParsed_keeps|constructor].
  - intros [= <-]. split; [cbn; lia|constructor].
Qed.

(** What [Analyze] returns on a well-formed lexicon, by the branch taken. *)
Lemma Analyze_inv `{GoRuntime} (a : MorphAnalyzer) (word : string) :
  wf_lexicon a ->
  exists parses forms,
    Analyze a word = Some (parses, forms) /\
    ((parses <> [] /\ Parse a word = Some parses /\
      Inflect a word = Some forms) \/
     (Parse a word = Some [] /\ ParsePredicted a word = Some parses /\
      match parses with
      | [] => forms = []
      | p0 :: _ => Predict a word (Lemma_ p0) = Some forms
      end)).
Proof.
  intros Hwf. unfold Analyze.
  destruct (Parse_total a Hwf word) as [[|p ps] Hp]; rewrite Hp;
    cbn [mbind option_bind].
  - change (0 <? Z.of_nat (length (@nil Parsed))) with false. cbv iota.
    destruct (ParsePredicted_total a Hwf word) as [[|p0 pp] Hpp]; rewrite Hpp;
      cbn [mbind option_bind].
    + exists [], []. split; [reflexivity|]. right. auto.
    + destruct (Predict_total a Hwf word (Lemma_ p0)) as [fs Hfs].
      rewrite Hfs. cbn [mbind option_bind].
      exists (p0 :: pp), fs. split; [reflexivity|]. right. auto.
  - replace (0 <? Z.of_nat (length (p :: ps))) with true
      by (symmetry; apply Z.ltb_lt; cbn [length]; lia).
    destruct (Inflect_total a Hwf word) as [fs Hfs]. rewrite Hfs.
    cbn [mbind option_bind]. exists (p :: ps), fs.
    split; [reflexivity|]. left. split; [discriminate|]. auto.
Qed.

(** X15.  On a well-formed lexicon [Analyze] returns, the dictionary first:
    the parses and forms are those of [Parse] and [Inflect] when [Parse]
    finds the word, and otherwise the at most one parse of [ParsePredicted]
    with the forms that [Predict] builds for its lemma.  Every parse carries
    the word as given, the forms are sorted strictly ascending by [Word],
    and there are no forms without a parse. *)
Theorem Analyze_wf `{GoRuntime} (a : MorphAnalyzer) (word : string) :
  wf_lexicon a ->
  exists parses forms,
    Analyze a word = Some (parses, forms) /\
    ((parses <> [] /\ Parse a word = Some parses /\
      Inflect a word = Some forms) \/
     (Parse a word = Some [] /\ ParsePredicted a word = Some parses /\
      (length parses <= 1)%nat /\
      forall p0, head parses = Some p0 ->
        Predict a word (Lemma_ p0) = Some forms)) /\
    Forall (fun p => Word p = word) parses /\
    StronglySorted (fun x y => String.ltb (Word x) (Word y) = true) forms /\
    (parses = [] -> forms = []).
Proof.
  intros Hwf.
  destruct (Analyze_inv a word Hwf)
    as (parses & forms & Ha & [(Hne & Hp & Hi)|(Hp & Hpp & Hf)]);
    exists parses, forms; (split; [exact Ha|]).
  - split; [left; auto|]. split; [exact (Parse_words a word parses Hp)|].
    split; [exact (proj1 (Inflect_strictly_sorted a word forms Hi))|].
    intros ->. contradiction.
  - destruct (ParsePredicted_words a word parses Hpp) as [Hlen Hw].
    split; [|split; [exact Hw|]].
    + right. split; [exact Hp|]. split; [exact Hpp|]. split; [exact Hlen|].
      intros p0 Hh. destruct parses as [|q qs]; [discriminate|].
      injection Hh as <-. exact Hf.
    + destruct parses as [|p0 ps].
      * subst forms. split; [constructor|reflexivity].
      * split; [exact (proj1 (Predict_strict a word _ forms Hf))|].
        discriminate.
Qed.

(** X15 on the small lexicon, for the unknown word [Xb]. *)
Lemma Analyze_wf_witness :
  wf_lexicon demo /\
  exists parses forms,
    Analyze demo "Xb" = Some (parses, forms) /\
    ((parses <> [] /\ Parse demo "Xb" = Some parses /\
      Inflect demo "Xb" = Some forms) \/
     (Parse demo "Xb" = Some [] /\ ParsePredicted demo "Xb" = Some parses /\
      (length parses <= 1)%nat /\
      forall p0, head parses = Some p0 ->
        Predict demo "Xb" (Lemma_ p0) = Some forms)) /\
    Forall (fun p => Word p = "Xb") parses /\
    StronglySorted (fun x y => String.ltb (Word x) (Word y) = true) forms /\
    (parses = [] -> forms = []).
Proof.
  split; [exact demo_wf|]. exact (Analyze_wf demo "Xb" demo_wf).
Defined.

Lemma elem_of_concat {A} (x : A) (ls : list (list A)) :
  x ∈ concat ls <-> exists l, x ∈ l /\ l ∈ ls.
Proof.
  induction ls as [|l ls IH]; cbn [concat].
  - split; [intros []%elem_of_nil|intros (l & _ & []%elem_of_nil)].
  - rewrite elem_of_app, IH. split.
    + intros [Hx|(l' & Hx & Hl)]; [exists l|exists l'];
        (split; [assumption|]); [left|right; assumption].
    + intros (l' & Hx & Hl). apply elem_of_cons in Hl as [->|Hl];
        [left; assumption|right; eauto].
Qed.

Section BatchMore.
Context `{GoRuntime} (a : MorphAnalyzer) (Hwf : wf_lexicon a).

Lemma analyzedParses_words word :
  Forall (fun p => Word p = word) (analyzedParses a word).
Proof.
  unfold analyzedParses.
  destruct (Parse a word) as [[|p ps]|] eqn:Hp.
  - destruct (ParsePredicted a word) as [pp|] eqn:Hpp; [|constructor].
    exact (proj2 (ParsePredicted_words a word pp Hpp)).
  - exact (Parse_words a word _ Hp).
  - destruct (ParsePredicted a word) as [pp|] eqn:Hpp; [|constructor].
    exact (proj2 (ParsePredicted_words a word pp Hpp)).
Qed.

Lemma ParseList_inv words :
  ParseList a words
  = Some (sort_Slice lessWord
            (concat (arrival
               (map (fun c => concat (map (analyzedParses a) c))
                  (chunksOf (length words) chunkSize words))))).
Proof.
  unfold ParseList.
  set (chunks := chunksOf (length words) chunkSize words).
  assert (Hm : mapM (parseChunk a) chunks
               = Some (map (fun c => concat (map (analyzedParses a) c))
                         chunks)).
  { apply mapM_Some_2. induction chunks as [|c cs IH]; constructor;
      [apply parseChunk_spec, Hwf|apply IH]. }
  rewrite Hm. reflexivity.
Qed.

Lemma inflectChunk_spec chunk :
  inflectChunk a chunk = Some (concat (map (analyzedForms a) chunk)).
Proof.
  unfold inflectChunk.
  enough (Hgen : forall acc,
            foldM (fun parsedChunk word =>
                     '(_, forms) ← Analyze a word;
                     Some (parsedChunk ++ forms)) acc chunk
            = Some (acc ++ concat (map (analyzedForms a) chunk)))
    by apply (Hgen []).
  induction chunk as [|w chunk IH]; intros acc; cbn [foldM map concat].
  - rewrite app_nil_r. reflexivity.
  - unfold analyzedForms at 1.
    destruct (Analyze_total a Hwf w) as [fs ->]. cbn [mbind option_bind].
    rewrite IH, <- app_assoc. reflexivity.
Qed.

Lemma batch_perm {B} (g : string -> list B) (words : list string) :
  concat (arrival (map (fun c => concat (map g c))
                     (chunksOf (length words) chunkSize words)))
  ≡ₚ concat (map g words).
Proof.
  rewrite (concat_Permutation _ _ (arrival_perm _ _)).
  rewrite concat_map_concat.
  rewrite (chunksOf_concat chunkSize ltac:(unfold chunkSize; lia)
             (length words) words (Nat.le_refl _)).
  reflexivity.
Qed.

End BatchMore.

(** X16.  On a well-formed lexicon the result of [ParseList] is sorted by
    [Word] (no record is followed by one with a smaller word), and every
    record carries one of the words of the input. *)
Theorem ParseList_sorted `{GoRuntime} (a : MorphAnalyzer)
    (words : list string) :
  wf_lexicon a ->
  exists r, ParseList a words = Some r /\
    StronglySorted (fun x y => String.ltb (Word y) (Word x) = false) r /\
    Forall (fun p => Word p ∈ words) r.
Proof.
  intros Hwf. eexists. split; [apply (ParseList_inv a Hwf)|]. split.
  - apply (sort_Slice_sorted _ lessWord), lessWord_StrictWeak.
  - apply Forall_forall. intros p Hp.
    rewrite (sort_Slice_perm _ lessWord), (batch_perm (analyzedParses a))
      in Hp.
    apply elem_of_concat in Hp as (ps & Hp & Hps).
    apply list_elem_of_fmap in Hps as (w & -> & Hw).
    pose proof (analyzedParses_words a w) as Hall.
    rewrite Forall_forall in Hall. rewrite (Hall p Hp). exact Hw.
Qed.

(** X16 on the small lexicon. *)
Lemma ParseList_sorted_witness :
  wf_lexicon demo /\
  exists r, ParseList demo ["xb"; "ab"; "q"] = Some r /\
    StronglySorted (fun x y => String.ltb (Word y) (Word x) = false) r /\
    Forall (fun p => Word p ∈ ["xb"; "ab"; "q"]) r.
Proof.
  split; [exact demo_wf|].
  exact (ParseList_sorted demo ["xb"; "ab"; "q"] demo_wf).
Defined.

(** X17.  On a well-formed lexicon [InflectList] returns a list sorted by
    [Word] whose surface forms are, as a multiset, the surface forms that
    [Analyze] reports for each word in turn.  (Which record stands under a
    form that several paradigms generate is open, call by call.) *)
Theorem InflectList_words `{GoRuntime} (a : MorphAnalyzer)
    (words : list string) :
  wf_lexicon a ->
  exists r, InflectList a words = Some r /\
    map Word r
    ≡ₚ concat (map (fun w => map Word (analyzedForms a w)) words) /\
    StronglySorted (fun x y => String.ltb (Word y) (Word x) = false) r.
Proof.
  intros Hwf. unfold InflectList.
  set (chunks := chunksOf (length words) chunkSize words).
  assert (Hm : mapM (inflectChunk a) chunks
               = Some (map (fun c => concat (map (analyzedForms a) c))
                         chunks)).
  { apply mapM_Some_2. induction chunks as [|c cs IH]; constructor;
      [apply inflectChunk_spec, Hwf|apply IH]. }
  rewrite Hm. cbn [mbind option_bind]. eexists. split; [reflexivity|].
  split.
  - rewrite (sort_Slice_perm _ lessWord). subst chunks.
    rewrite (batch_perm (analyzedForms a) words).
    rewrite concat_map, map_map. reflexivity.
  - apply (sort_Slice_sorted _ lessWord), lessWord_StrictWeak.
Qed.

(** X17 on the small lexicon. *)
Lemma InflectList_words_witness :
  wf_lexicon demo /\
  exists r, InflectList demo ["xb"; "ab"; "q"] = Some r /\
    map Word r
    ≡ₚ concat (map (fun w => map Word (analyzedForms demo w))
                 ["xb"; "ab"; "q"]) /\
    StronglySorted (fun x y => String.ltb (Word y) (Word x) = false) r.
Proof.
  split; [exact demo_wf|].
  exact (InflectList_words demo ["xb"; "ab"; "q"] demo_wf).
Defined.

Lemma chunksOf_sizes {A} (n : nat) : (0 < n)%nat ->
  forall fuel (l : list A), (length l <= fuel)%nat ->
    Forall (fun c => (0 < length c <= n)%nat) (chunksOf fuel n l) /\
    forall i c, chunksOf fuel n l !! i = Some c ->
      (S i < length (chunksOf fuel n l))%nat -> length c = n.
Proof.
  intros Hn. induction fuel as [|fuel IH]; intros l Hl.
  - destruct l; cbn; (split; [constructor|intros i c; rewrite lookup_nil;
                                             discriminate]).
  - destruct l as [|x l].
    { cbn. split; [constructor|]. intros i c. rewrite lookup_nil.
      discriminate. }
    cbn [chunksOf].
    destruct (IH (drop n (x :: l))) as [Hall Hfull].
    { rewrite length_drop. cbn [length] in *. lia. }
    split.
    + constructor; [|exact Hall]. rewrite length_take. cbn [length]. lia.
    + intros [|i] c Hc Hi.
      * cbn in Hc. injection Hc as <-. cbn [length] in Hi.
        rewrite length_take. apply Nat.min_l.
        destruct (chunksOf fuel n (drop n (x :: l))) as [|c' cs] eqn:Hcs;
          [cbn in Hi; lia|].
        destruct (decide (n <= length (x :: l))%nat) as [|Hlt]; [assumption|].
        exfalso. rewrite drop_ge in Hcs by lia.
        destruct fuel; discriminate.
      * cbn in Hc. cbn [length] in Hi. apply (Hfull i c Hc). lia.
Qed.

(** X18.  The dispatcher of [ParseList] and [InflectList] cuts the word
    list into consecutive chunks that put together give the list back;
    no chunk is empty, none has more than 1000 words, and every chunk but
    the last has exactly 1000. *)
Theorem chunks_partition {A} (words : list A) :
  let chunks := chunksOf (length words) chunkSize words in
  concat chunks = words /\
  Forall (fun c => (0 < length c <= 1000)%nat) chunks /\
  forall i c, chunks !! i = Some c -> (S i < length chunks)%nat ->
    length c = 1000%nat.
Proof.
  intros chunks.
  assert (Hpos : (0 < chunkSize)%nat) by (unfold chunkSize; lia).
  split; [exact (chunksOf_concat chunkSize Hpos _ words (Nat.le_refl _))|].
  exact (chunksOf_sizes chunkSize Hpos _ words (Nat.le_refl _)).
Qed.

(** ** The loader: records, rejected files and truncated files *)

Lemma records_lookup {T} (view : list byte -> T) size n : forall b i,
  (i < n)%nat ->
  records view size n b !! i = Some (view (bytesAt b (i * size) size)).
Proof.
  unfold bytesAt. induction n as [|n IH]; intros b i Hi; [lia|].
  cbn [records]. destruct i as [|i].
  - cbn. rewrite drop_0. reflexivity.
  - cbn [lookup list_lookup]. rewrite IH by lia. rewrite drop_drop.
    do 3 f_equal; lia.
Qed.

(** X19.  [bytesToSlice] views a byte region as [len(b) / size] records:
    record [i] is read from the [size] bytes at offset [i * size], and the
    bytes after the last whole record are ignored. *)
Theorem bytesToSlice_records {T} (view : list byte -> T) (size : Z)
    (b : list byte) :
  0 < size ->
  length (bytesToSlice view size b)
  = Z.to_nat (Z.of_nat (length b) / size) /\
  (forall i, (i < Z.to_nat (Z.of_nat (length b) / size))%nat ->
     bytesToSlice view size b !! i
     = Some (view (bytesAt b (i * Z.to_nat size) (Z.to_nat size)))) /\
  (forall extra,
     Z.of_nat (length b) mod size = 0 -> Z.of_nat (length extra) < size ->
     bytesToSlice view size (b ++ extra) = bytesToSlice view size b).
Proof.
  intros Hsize.
  assert (Hlen : forall c : list byte,
            length (bytesToSlice view size c)
            = Z.to_nat (Z.of_nat (length c) / size)).
  { intros c. unfold bytesToSlice.
    destruct (Z.eqb_spec (Z.of_nat (length c)) 0) as [->|_];
      [rewrite Z.div_0_l by lia; reflexivity|apply length_records]. }
  assert (Hget : forall (c : list byte) i,
            (i < Z.to_nat (Z.of_nat (length c) / size))%nat ->
            bytesToSlice view size c !! i
            = Some (view (bytesAt c (i * Z.to_nat size) (Z.to_nat size)))).
  { intros c i Hi. unfold bytesToSlice.
    destruct (Z.eqb_spec (Z.of_nat (length c)) 0) as [Hz|_].
    - rewrite Hz, Z.div_0_l in Hi by lia. cbn in Hi. lia.
    - apply records_lookup, Hi. }
  split; [apply Hlen|]. split; [apply Hget|].
  intros extra Hmod Hextra.
  assert (Hdiv : Z.of_nat (length (b ++ extra)) / size
                 = Z.of_nat (length b) / size).
  { rewrite length_app, Nat2Z.inj_add.
    apply Z.mod_divide in Hmod as [k Hk]; [|lia]. rewrite Hk.
    rewrite Z.div_add_l, Z.div_mul by lia.
    rewrite (Z.div_small (Z.of_nat (length extra))) by lia. lia. }
  apply list_eq. intros i.
  destruct (decide (i < Z.to_nat (Z.of_nat (length b) / size))%nat)
    as [Hi|Hi].
  - rewrite (Hget b i Hi), (Hget (b ++ extra) i) by (rewrite Hdiv; exact Hi).
    do 2 f_equal. unfold bytesAt.
    assert (Hin : (i * Z.to_nat size + Z.to_nat size <= length b)%nat).
    { pose proof (Z.mul_div_le (Z.of_nat (length b)) size Hsize). nia. }
    rewrite drop_app_le, take_app_le by (rewrite ?length_drop; lia).
    reflexivity.
  - rewrite !lookup_ge_None_2; [reflexivity|rewrite Hlen..]; lia.
Qed.

(** X19 on eighteen bytes viewed as edges of eight bytes. *)
Lemma bytesToSlice_records_witness :
  let b := le_bytes 4 97 ++ le_bytes 4 1 ++ le_bytes 4 98 ++ le_bytes 4 2 in
  length (bytesToSlice viewFlatEdge sizeofFlatEdge b) = 2%nat /\
  bytesToSlice viewFlatEdge sizeofFlatEdge (b ++ le_bytes 2 7)
  = bytesToSlice viewFlatEdge sizeofFlatEdge b.
Proof.
  intros b.
  pose proof (bytesToSlice_records viewFlatEdge sizeofFlatEdge b eq_refl)
    as (Hlen & _ & Htail).
  split; [exact Hlen|]. apply Htail; [reflexivity|]. vm_compute. reflexivity.
Defined.

Lemma region_Panic {T} (view : list byte -> T) size file offset count :
  0 <= offset -> 0 <= count -> 0 < size ->
  offset + count * size < 2 ^ 63 ->
  Z.of_nat (length file) < offset + count * size ->
  region view size file offset count = Panic.
Proof.
  intros Ho Hc Hs Hmax Hlen. unfold region.
  assert (0 <= count * size) by nia.
  rewrite (wrap64s_small (count * size)) by lia.
  rewrite (wrap64s_small (offset + count * size)) by lia.
  unfold slice.
  destruct (Z.leb_spec (offset + count * size) (Z.of_nat (length file)));
    [lia|].
  rewrite andb_false_r. reflexivity.
Qed.

(** X20.  [loadInternal] rejects a mapped file by its first bytes alone,
    before it reads any region and whatever the complex block holds: a file
    that is not empty and shorter than the 120 bytes of the header gives the
    error of a file too short, and a longer file whose first four bytes are
    not [DAW7] gives the error of a wrong signature. *)
Theorem loadInternal_rejects
    (decodeComplex : list byte -> LoadError + ComplexData.t)
    (file : list byte) :
  (0 < Z.of_nat (length file) < 120 ->
   loadInternal decodeComplex file = Err ErrHeaderTooShort) /\
  (120 <= Z.of_nat (length file) ->
   string_of_list_byte (take 4 file) <> "DAW7" ->
   loadInternal decodeComplex file = Err ErrBadMagic).
Proof.
  unfold loadInternal. change sizeofHeader with 120. split.
  - intros [_ Hlen]. apply Z.ltb_lt in Hlen as ->. reflexivity.
  - intros Hlen Hmagic. apply Z.ltb_ge in Hlen as ->.
    assert (Hm : Magic (readHeader (take (Z.to_nat 120) file)) = take 4 file).
    { unfold readHeader, bytesAt. cbn [Magic]. rewrite drop_0, take_take.
      reflexivity. }
    rewrite Hm. apply String.eqb_neq in Hmagic as ->. reflexivity.
Qed.

(** X20 on a file of three bytes and on a file of 120 zero bytes. *)
Lemma loadInternal_rejects_witness :
  loadInternal (fun _ => inr emptyComplex) [x44; x41; x57]%byte
  = Err ErrHeaderTooShort /\
  loadInternal (fun _ => inr emptyComplex) (le_bytes 120 0) = Err ErrBadMagic.
Proof.
  split.
  - apply (proj1 (loadInternal_rejects (fun _ => inr emptyComplex)
                    [x44; x41; x57]%byte)).
    vm_compute. split; reflexivity.
  - apply (proj2 (loadInternal_rejects (fun _ => inr emptyComplex)
                    (le_bytes 120 0))).
    + vm_compute. discriminate.
    + vm_compute. discriminate.
Defined.

(** X21.  A truncated file makes [loadInternal] panic, not return an error:
    when the header and the complex block are accepted and the window of one
    of the six regions (offset and count not negative) ends after the end of
    the file, the slice expression panics. *)
Theorem loadInternal_truncated
    (decodeComplex : list byte -> LoadError + ComplexData.t)
    (file : list byte) (complexData : ComplexData.t) (r : Z * Z * Z) :
  let h := readHeader (take (Z.to_nat sizeofHeader) file) in
  sizeofHeader <= Z.of_nat (length file) ->
  string_of_list_byte (Magic h) = "DAW7" ->
  (exists block,
     slice file (ComplexDataOffset h)
       (wrap64s (ComplexDataOffset h + ComplexDataLength h)) = Some block /\
     decodeComplex block = inr complexData) ->
  r ∈ regionTable h ->
  0 <= r.1.1 -> 0 <= r.1.2 -> r.1.1 + r.1.2 * r.2 < 2 ^ 63 ->
  Z.of_nat (length file) < r.1.1 + r.1.2 * r.2 ->
  loadInternal decodeComplex file = Panic.
Proof.
  intros h Hlo Hmagic (block & Hblock & Hdec) Hr Ho Hc Hmax Hlen.
  unfold loadInternal. fold h.
  destruct (Z.ltb_spec (Z.of_nat (length file)) sizeofHeader); [lia|].
  rewrite Hmagic. change (negb (String.eqb "DAW7" "DAW7")) with false.
  cbv iota zeta. rewrite Hblock, Hdec.
  unfold regionTable in Hr.
  repeat (apply elem_of_cons in Hr as [->|Hr]);
    [..|apply elem_of_nil in Hr; contradiction];
    cbn [fst snd] in Ho, Hc, Hmax, Hlen;
    match goal with
    | _ : Z.of_nat (length file) < ?o + ?c * ?s |- _ =>
      match goal with
      | |- context [region ?v s file o c] =>
        rewrite (region_Panic v s file o c Ho Hc eq_refl Hmax Hlen)
      end
    end;
    repeat match goal with
           | |- context [region ?v ?s file ?o ?c] =>
             destruct (region v s file o c)
           end;
    reflexivity.
Qed.

(** X21 on the file of the small example cut after 160 bytes: the region of
    the prediction payloads ends at byte 168. *)
Lemma loadInternal_truncated_witness :
  loadInternal (fun _ => inr emptyComplex) (take 160 demoFile) = Panic.
Proof.
  refine (loadInternal_truncated (fun _ => inr emptyComplex)
            (take 160 demoFile) emptyComplex (152, 1, sizeofPredictInfo)
            _ _ _ _ _ _ _ _).
  - vm_compute. discriminate.
  - vm_compute. reflexivity.
  - eexists. split; [vm_compute; reflexivity|reflexivity].
  - vm_compute. do 5 right. left.
  - vm_compute. discriminate.
  - vm_compute. discriminate.
  - vm_compute. reflexivity.
  - vm_compute. reflexivity.
Defined.

Lemma region_views {T} (view : list byte -> T) size file offset count l :
  0 < size -> Z.of_nat (length file) < 2 ^ 63 ->
  inside (Z.of_nat (length file)) (offset, count, size) ->
  region view size file offset count = Ok l ->
  views view size file offset l.
Proof.
  intros Hsize Hlen (Ho & Hc & Hb). cbn [fst snd] in Ho, Hc, Hb.
  unfold region. assert (0 <= count * size) by nia.
  rewrite (wrap64s_small (count * size)) by lia.
  rewrite (wrap64s_small (offset + count * size)) by lia.
  destruct (slice file offset (offset + count * size)) as [b|] eqn:Hs;
    [|discriminate].
  intros [= <-]. apply slice_Some in Hs as (_ & _ & ->).
  replace (offset + count * size - offset) with (count * size) by lia.
  set (b := take (Z.to_nat (count * size)) (drop (Z.to_nat offset) file)).
  assert (Hbl : length b = Z.to_nat (count * size)).
  { subst b. rewrite length_take, length_drop. lia. }
  intros i x Hx.
  assert (Hi : (i < Z.to_nat count)%nat).
  { apply lookup_lt_Some in Hx. revert Hx. unfold bytesToSlice.
    rewrite Hbl, Z2Nat.id by lia.
    destruct (count * size =? 0); [cbn [length]; lia|].
    rewrite length_records, Z.div_mul by lia. auto. }
  assert (Hget : bytesToSlice view size b !! i
                 = Some (view (bytesAt b (i * Z.to_nat size)
                                 (Z.to_nat size)))).
  { unfold bytesToSlice. rewrite Hbl, Z2Nat.id by lia.
    destruct (Z.eqb_spec (count * size) 0) as [Hz|_]; [nia|].
    apply records_lookup. rewrite Z.div_mul by lia. exact Hi. }
  rewrite Hget in Hx. injection Hx as <-. f_equal.
  unfold bytesAt. subst b.
  assert (Hfit : (i * Z.to_nat size + Z.to_nat size
                  <= Z.to_nat (count * size))%nat).
  { rewrite Z2Nat.inj_mul by lia. nia. }
  rewrite (take_drop_commute (take _ _)), take_take, Nat.min_l by exact Hfit.
  rewrite <- take_drop_commute, drop_drop. reflexivity.
Qed.

(** X22.  What [loadInternal] loads: when the header is accepted, the
    complex block decodes and the six windows lie inside the file, the
    analyzer has the four tables of the complex block, and each of its six
    arrays is a view of the file, element [i] read from the bytes at the
    offset of the region plus [i] times the record size. *)
Theorem loadInternal_views
    (decodeComplex : list byte -> LoadError + ComplexData.t)
    (file : list byte) (complexData : ComplexData.t) :
  let h := readHeader (take (Z.to_nat sizeofHeader) file) in
  sizeofHeader <= Z.of_nat (length file) < 2 ^ 63 ->
  string_of_list_byte (Magic h) = "DAW7" ->
  (exists block,
     slice file (ComplexDataOffset h)
       (wrap64s (ComplexDataOffset h + ComplexDataLength h)) = Some block /\
     decodeComplex block = inr complexData) ->
  Forall (inside (Z.of_nat (length file))) (regionTable h) ->
  exists a, loadInternal decodeComplex file = Ok a /\
    paradigms a = ComplexData.Paradigms complexData /\
    paradigmToLemmaID a = ComplexData.ParadigmToLemmaID complexData /\
    views viewFlatNode sizeofFlatNode file (NodesOffset h) (nodes a) /\
    views viewFlatEdge sizeofFlatEdge file (EdgesOffset h) (edges a) /\
    views viewMorphInfo sizeofMorphInfo file (PayloadsOffset h)
      (payloads a) /\
    views viewFlatNode sizeofFlatNode file (PredictNodesOffset h)
      (predictNodes a) /\
    views viewFlatEdge sizeofFlatEdge file (PredictEdgesOffset h)
      (predictEdges a) /\
    views viewPredictInfo sizeofPredictInfo file (PredictPayloadsOffset h)
      (predictPayloads a).
Proof.
  intros h [Hlo Hhi] Hmagic (block & Hblock & Hdec) Hin.
  unfold loadInternal. fold h.
  destruct (Z.ltb_spec (Z.of_nat (length file)) sizeofHeader); [lia|].
  rewrite Hmagic. change (negb (String.eqb "DAW7" "DAW7")) with false.
  cbv iota zeta. rewrite Hblock, Hdec.
  unfold regionTable in Hin.
  repeat match goal with
         | Hf : Forall _ (_ :: _) |- _ =>
           apply Forall_cons in Hf as [? Hf]
         end.
  destruct (region_Ok viewFlatNode sizeofFlatNode file (NodesOffset h)
              (NodesCount h)) as (l1 & E1 & _);
    [reflexivity|lia|assumption|].
  destruct (region_Ok viewFlatEdge sizeofFlatEdge file (EdgesOffset h)
              (EdgesCount h)) as (l2 & E2 & _);
    [reflexivity|lia|assumption|].
  destruct (region_Ok viewMorphInfo sizeofMorphInfo file (PayloadsOffset h)
              (PayloadsCount h)) as (l3 & E3 & _);
    [reflexivity|lia|assumption|].
  destruct (region_Ok viewFlatNode sizeofFlatNode file (PredictNodesOffset h)
              (PredictNodesCount h)) as (l4 & E4 & _);
    [reflexivity|lia|assumption|].
  destruct (region_Ok viewFlatEdge sizeofFlatEdge file (PredictEdgesOffset h)
              (PredictEdgesCount h)) as (l5 & E5 & _);
    [reflexivity|lia|assumption|].
  destruct (region_Ok viewPredictInfo sizeofPredictInfo file
              (PredictPayloadsOffset h) (PredictPayloadsCount h))
    as (l6 & E6 & _); [reflexivity|lia|assumption|].
  rewrite E1, E2, E3, E4, E5, E6.
  eexists. split; [reflexivity|]. cbn [paradigms paradigmToLemmaID nodes edges
    payloads predictNodes predictEdges predictPayloads].
  split; [reflexivity|]. split; [reflexivity|].
  repeat split;
    (eapply region_views; [reflexivity|lia|eassumption|eassumption]).
Qed.

(** X22 on the file of the small example. *)
Lemma loadInternal_views_witness :
  exists a, loadInternal (fun _ => inr emptyComplex) demoFile = Ok a /\
    views viewFlatNode sizeofFlatNode demoFile 120 (nodes a) /\
    views viewPredictInfo sizeofPredictInfo demoFile 152 (predictPayloads a).
Proof.
  destruct (loadInternal_views (fun _ => inr emptyComplex) demoFile
              emptyComplex) as (a & Ha & _ & _ & Hn & _ & _ & _ & _ & Hp).
  - vm_compute. split; [discriminate|reflexivity].
  - vm_compute. reflexivity.
  - eexists. split; [vm_compute; reflexivity|reflexivity].
  - exact demoFile_inside.
  - exists a. split; [exact Ha|]. split; [exact Hn|exact Hp].
Defined.

(** ** The tag decomposition: what the fields can hold *)

Lemma inMap_spec g (s : GrammemeSet) : inMap g s = true <-> g ∈ s.
Proof. unfold inMap. apply bool_decide_eq_true. Qed.

Lemma in_categories c : In c categories.
Proof. destruct c; cbn [categories In]; tauto. Qed.

Lemma first_category_Some g c :
  first_category g = Some c -> g ∈ vocabulary c.
Proof. intros [_ Hc]%find_some. apply inMap_spec, Hc. Qed.

Lemma first_category_None g c : first_category g = None -> g ∉ vocabulary c.
Proof.
  intros Hn Hin%inMap_spec.
  pose proof (find_none _ _ Hn c (in_categories c)) as Hc. cbv beta in Hc.
  congruence.
Qed.

(** The state of [newParsed] before its loop. *)
Lemma newParsed_start word lemma tagString :
  exists p1,
    newParsed word lemma tagString
    = fold_left dispatch (Split_comma tagString) p1 /\
    (PartOfSpeech p1 = "" \/
     (PartOfSpeech p1 ∈ posTags /\
      head (Split_comma tagString) = Some (PartOfSpeech p1))) /\
    (forall c, field c p1 = "") /\ OtherTags p1 = ∅.
Proof.
  unfold newParsed.
  set (p0 := mkParsed word lemma tagString "" "" "" "" "" "" "" "" "" "" "" ∅).
  cbv zeta. destruct (Split_comma tagString) as [|first rest].
  - exists p0. split; [reflexivity|]. split; [left; reflexivity|].
    split; [intros []; reflexivity|reflexivity].
  - destruct (inMap first posTags) eqn:Hpos.
    + exists (set_PartOfSpeech first p0). split; [reflexivity|]. split.
      * right. split; [apply inMap_spec, Hpos|reflexivity].
      * split; [intros []; reflexivity|reflexivity].
    + exists p0. split; [reflexivity|]. split; [left; reflexivity|].
      split; [intros []; reflexivity|reflexivity].
Qed.

(** X23.  What the fields of a record of [newParsed] can hold: the part of
    speech is empty or the first token, and then a member of the
    part-of-speech set; each category field is empty or a token of the tag
    string that belongs to the vocabulary of the category and differs from
    the part of speech; and the other-tags set holds only tokens that differ
    from the part of speech and belong to no category vocabulary. *)
Theorem newParsed_fields (word lemma tagString : string) :
  let p := newParsed word lemma tagString in
  let tokens := Split_comma tagString in
  (PartOfSpeech p = "" \/
   (PartOfSpeech p ∈ posTags /\ head tokens = Some (PartOfSpeech p))) /\
  (forall c, field c p = "" \/
     (field c p ∈ tokens /\ field c p ∈ vocabulary c /\
      field c p <> PartOfSpeech p)) /\
  (forall g, g ∈ OtherTags p ->
     g ∈ tokens /\ g <> PartOfSpeech p /\ forall c, g ∉ vocabulary c).
Proof.
  intros p tokens. subst p tokens.
  destruct (newParsed_start word lemma tagString)
    as (p1 & -> & Hpos & Hfld & Hoth).
  destruct (fold_dispatch_keeps (Split_comma tagString) p1)
    as (_ & _ & _ & HP).
  rewrite HP. split; [exact Hpos|]. split.
  - intros c. rewrite fold_dispatch_field, Hfld.
    destruct (last (filter _ _)) as [g|] eqn:Hlast; cbn [default];
      [right|left; reflexivity].
    apply last_Some in Hlast as [l' Hl'].
    assert (Hg : g ∈ filter (fun g => goes_to (PartOfSpeech p1) g (Some c))
                   (Split_comma tagString)).
    { rewrite Hl'. apply elem_of_app. right. apply list_elem_of_singleton.
      reflexivity. }
    apply list_elem_of_filter in Hg as [[Hne Hc] Hin].
    split; [exact Hin|]. split; [exact (first_category_Some g c Hc)|exact Hne].
  - intros g Hg. apply fold_dispatch_other in Hg.
    rewrite Hoth in Hg. destruct Hg as [Hg|[Hin [Hne Hc]]].
    + apply elem_of_empty in Hg. contradiction.
    + split; [exact Hin|]. split; [exact Hne|].
      intros c. exact (first_category_None g c Hc).
Qed.

(** X24.  The vocabularies of the ten categories are pairwise disjoint and
    disjoint from the part-of-speech set: a token of the vocabulary of one
    category is in no other vocabulary and is no part of speech, so the
    order of the cases of the [switch] of [newParsed] decides nothing. *)
Theorem vocabularies_disjoint (g : string) (c1 c2 : Category) :
  g ∈ vocabulary c1 ->
  (g ∈ vocabulary c2 -> c1 = c2) /\ g ∉ posTags.
Proof.
  intros H1. rewrite <- !inMap_spec.
  destruct c1; cbn [vocabulary] in H1;
    unfold animacyTags, aspectTags, caseTags, genderTags, moodTags,
      numberTags, personTags, tenseTags, transTags, voiceTags in H1;
    apply elem_of_list_to_set in H1;
    repeat (apply elem_of_cons in H1 as [->|H1]);
    try (apply elem_of_nil in H1; contradiction);
    (split; [destruct c2; try reflexivity|]; intros H2; vm_compute in H2;
     discriminate).
Qed.

(** X24 for a gender tag. *)
Lemma vocabularies_disjoint_witness :
  "Мужской" ∈ vocabulary CGender /\
  ("Мужской" ∈ vocabulary CCase -> CGender = CCase) /\
  "Мужской" ∉ posTags.
Proof.
  assert (Hin : "Мужской" ∈ vocabulary CGender)
    by (apply inMap_spec; vm_compute; reflexivity).
  split; [exact Hin|].
  exact (vocabularies_disjoint "Мужской" CGender CCase Hin).
Defined.

(** ** From the generation back to the lookup *)

Lemma runes_nonempty c s : runes (String c s) <> [].
Proof.
  cbn [runes]. cbv zeta.
  repeat match goal with
         | |- context [if ?b then _ else _] => destruct b
         | |- context [match ?s with EmptyString => _ | String _ _ => _ end] =>
           destruct s
         end; discriminate.
Qed.

Lemma append_cons c x s :
  String.append (String c x) s = String c (String.append x s).
Proof. reflexivity. Qed.

Lemma append_nil s : String.append EmptyString s = s.
Proof. reflexivity. Qed.

Lemma runes_encode_app r s :
  runes (encode_rune r) = [r] ->
  runes (String.append (encode_rune r) s) = r :: runes s.
Proof.
  unfold encode_rune. cbv zeta.
  set (r' := if (r <? 0) || (1114111 <? r) || in_range 55296 57343 r
             then RuneError else r).
  assert (Hr' : r' = RuneError \/ r' = r)
    by (subst r'; destruct (_ || _); auto).
  destruct (Z.ltb_spec r' 128) as [H1|H1];
    [|destruct (Z.ltb_spec r' 2048) as [H2|H2];
      [|destruct (Z.ltb_spec r' 65536) as [H3|H3]]].
  - rewrite !append_cons, append_nil. cbn [runes]. cbv zeta.
    destruct (_ <? 128).
    + intros [= ->]. reflexivity.
    + intros [= <-]. unfold RuneError in *. lia.
  - rewrite !append_cons, append_nil. cbn [runes]. cbv zeta.
    repeat match goal with
           | |- context [if ?b then _ else _] => destruct b
           end;
      intros Hx;
      first [ injection Hx as Hx; rewrite <- Hx; reflexivity
            | exfalso; injection Hx as _ Hx;
              first [ exact (runes_nonempty _ _ Hx) | discriminate Hx ] ].
  - rewrite !append_cons, append_nil. cbn [runes]. cbv zeta.
    repeat match goal with
           | |- context [if ?b then _ else _] => destruct b
           end;
      intros Hx;
      first [ injection Hx as Hx; rewrite <- Hx; reflexivity
            | exfalso; injection Hx as _ Hx;
              first [ exact (runes_nonempty _ _ Hx) | discriminate Hx ] ].
  - rewrite !append_cons, append_nil. cbn [runes]. cbv zeta.
    repeat match goal with
           | |- context [if ?b then _ else _] => destruct b
           end;
      intros Hx;
      first [ injection Hx as Hx; rewrite <- Hx; reflexivity
            | exfalso; injection Hx as _ Hx;
              first [ exact (runes_nonempty _ _ Hx) | discriminate Hx ] ].
Qed.

Lemma runes_string_of_runes rs :
  Forall (fun r => runes (encode_rune r) = [r]) rs ->
  runes (string_of_runes rs) = rs.
Proof.
  induction 1 as [|r rs Hr _ IH]; [reflexivity|].
  cbn [string_of_runes foldr]. rewrite (runes_encode_app r _ Hr).
  f_equal. exact IH.
Qed.

Lemma path_chars a i cs j :
  path a i cs j ->
  Forall (fun c => exists e, e ∈ edges a /\ FlatEdge.Char e = c) cs.
Proof.
  induction 1 as [i|i n w e cs j Hn Hw He _ IH]; constructor; [|exact IH].
  exists e. split; [|reflexivity]. exact (window_subseteq _ _ _ _ Hw e He).
Qed.

(** X25.  From the generation back to the lookup: on a well-formed lexicon
    with sorted edge windows, whose edge labels and stem characters are
    lower-case Unicode scalar values, every form that [dfsGenerate] emits
    from the anchor of a stem spelled from the root is found by [Parse], and
    one of its parses carries the form and the tag string under which the
    form was generated. *)
Theorem generated_form_parses `{GoRuntime} (a : MorphAnalyzer) (pID : Z)
    (pInfo : ParadigmInfo.t) (generatedForms : gmap string Z)
    (form : string) (tagsID : Z) :
  wf_lexicon a -> sorted_windows (nodes a) (edges a) ->
  (forall e, e ∈ edges a -> lexicon_rune (FlatEdge.Char e)) ->
  Forall lexicon_rune (runes (ParadigmInfo.Stem pInfo)) ->
  walk (nodes a) (edges a) 0 (runes (ParadigmInfo.Stem pInfo))
  = Some (ParadigmInfo.NodeID pInfo, true) ->
  dfsGenerate a (ParadigmInfo.NodeID pInfo) (runes (ParadigmInfo.Stem pInfo))
    pID ∅ = Some generatedForms ->
  generatedForms !! form = Some tagsID ->
  exists ps p tags,
    Parse a form = Some ps /\ p ∈ ps /\ Word p = form /\
    index (tagsPool a) tagsID = Some tags /\ Tags p = tags.
Proof.
  intros Hwf Hsorted Hedges Hstem Hanchor Hgen Hform.
  destruct (findWord_sound a _ _ _ _ _ _ _ Hgen form tagsID Hform)
    as [Hempty|(cs & j & Hpath & Hem & Hspell)];
    [rewrite lookup_empty in Hempty; discriminate|].
  cbn [app] in Hspell.
  set (rs := runes (ParadigmInfo.Stem pInfo) ++ cs) in *.
  assert (Hrs : Forall lexicon_rune rs).
  { apply Forall_app. split; [exact Hstem|].
    apply (Forall_impl _ _ _ (path_chars a _ _ _ Hpath)).
    intros c (e & He & <-). exact (Hedges e He). }
  assert (Hdec : runes form = rs).
  { rewrite Hspell. apply runes_string_of_runes.
    apply (Forall_impl _ _ _ Hrs). intros r [Hr _]. exact Hr. }
  assert (Hlow : ToLower form = form).
  { unfold ToLower. rewrite Hdec, Hspell. f_equal.
    clear -Hrs. induction Hrs as [|r rs [_ Hr] _ IH]; [reflexivity|].
    cbn [map]. rewrite Hr, IH. reflexivity. }
  assert (Hwalk : walk (nodes a) (edges a) 0 (runes (ToLower form))
                  = Some (j, true)).
  { rewrite Hlow, Hdec. subst rs. rewrite walk_app, Hanchor.
    apply path_walk; assumption. }
  destruct Hem as (node & infos & info & Hn & Hfin & Hps & Hin & _ & Htags).
  destruct (Parse_at a form j node infos info Hwf Hwalk Hn Hfin Hps Hin)
    as (ps & p & HP & Hp & Hw & _ & Ht).
  exists ps, p, (Tags p). rewrite <- Htags. auto.
Qed.

(** X25 on the small lexicon: the form [abc] of paradigm 1. *)
Lemma generated_form_parses_witness :
  exists ps p tags,
    Parse demo "abc" = Some ps /\ p ∈ ps /\ Word p = "abc" /\
    index (tagsPool demo) 2 = Some tags /\ Tags p = tags.
Proof.
  destruct (dfsGenerate demo 1 (runes "a") 1 ∅) as [gen|] eqn:Hgen;
    [|vm_compute in Hgen; discriminate].
  refine (generated_form_parses demo 1 (ParadigmInfo.mk "a" 1) gen "abc" 2
            demo_wf demo_sorted _ _ eq_refl Hgen _).
  - intros e He. cbn [edges demo] in He.
    repeat (apply elem_of_cons in He as [->|He]);
      [..|apply elem_of_nil in He; contradiction];
      split; vm_compute; reflexivity.
  - repeat constructor.
  - assert (E : dfsGenerate demo 1 (runes "a") 1 ∅ ≫= (.!! "abc") = Some 2)
      by (vm_compute; reflexivity).
    rewrite Hgen in E. exact E.
Defined.
